(** * EncryptionRSA: the arbitrary-precision unsigned integer [UInt]

    A shallow embedding of the [UInt] engine of [1.cpp] (digit store and
    normaliser, comparator, additive operators, multipliers and selector,
    divider, exponentiation, gcd and the decimal codec), of the index
    computations of its transform and of the driver [main] that encrypts
    a message with it, followed by the theorems that relate every
    operation to the number it denotes.

    Conventions.
    - An [int64_t] is a [Z]; [/] and [%] on [int64_t] are [Z.quot] and
      [Z.rem] (truncation towards zero).
    - A [std::vector<int64_t>] is a [list Z], index 0 first, so a digit
      vector is least-significant digit first, as in the source.
    - A failed [assert] and undefined behaviour ([back()] of an empty
      vector, an index out of range) are the fault [None] of the error
      monad [option]; every operation of the source that ends in
      [normalize()] therefore returns an [option UInt].
    - Loops over a vector are structural recursions over the list (the
      loop index is the position of the head); the remaining [while] loops
      run through the combinator [while], whose fuel [n] allows [2^n]
      iterations.
    - On normalised operands the [int64_t] computations of the engine
      stay in range (a digit is below [10^9], a product of two digits and
      a carry below [2 * 10^18]), except in [operator%(UInt, int64_t)],
      whose modulus is any [int64_t]: there the overflow is a fault.
    - Floating-point computations (the cost estimate of the selector and
      the transform of [fast_mult]) are the two fields of the interface
      [FloatRuntime]; [rand()] is a function from the number of the call
      to the value returned. *)

From Stdlib Require Import ZArith List Bool Lia Ascii.
From Stdlib Require String.
Import ListNotations.
Local Open Scope Z_scope.

(** ** The error monad *)

Definition bind {A B : Type} (m : option A) (k : A -> option B) : option B :=
  match m with
  | Some a => k a
  | None => None
  end.

Notation "'do' x <- m ; k" := (bind m (fun x => k))
  (at level 10, x name, m at level 100, k at level 200).

Notation "'do' ' ( x , y ) <- m ; k" := (bind m (fun '(x, y) => k))
  (at level 10, x name, y name, m at level 100, k at level 200).

(** [assert(c)]: continue when [c] holds, fault otherwise. *)
Definition assert (c : bool) : option unit :=
  if c then Some tt else None.

(** ** [while] loops

    [run n] executes at most [2^n] iterations of [while (cond) body]. *)

Section While.
Variable St : Type.
Variable cond : St -> bool.
Variable body : St -> option St.

Inductive outcome : Type :=
| Done (s : St)
| More (s : St)
| Fault.

Fixpoint run (n : nat) (s : St) : outcome :=
  match n with
  | O => if cond s
         then match body s with Some s' => More s' | None => Fault end
         else Done s
  | S n' => match run n' s with
            | More s' => run n' s'
            | o => o
            end
  end.

Definition while (n : nat) (s : St) : option St :=
  match run n s with
  | Done s' => Some s'
  | _ => None
  end.
End While.

Arguments Done {St} s.
Arguments More {St} s.
Arguments Fault {St}.
Arguments run {St} cond body n s.
Arguments while {St} cond body n s.

(** ** The data type *)

(** [static const int64_t BASE = (int64_t)1e9], [WIDTH = 9]. *)
Definition BASE : Z := 1000000000.
Definition WIDTH : nat := 9.

(** [struct UInt { std::vector<int64_t> digits; }] *)
Record UInt : Type := mkUInt { digits : list Z }.

(** The number a digit vector denotes (least-significant digit first). *)
Fixpoint val (ds : list Z) : Z :=
  match ds with
  | [] => 0
  | d :: t => d + BASE * val t
  end.

Definition value (u : UInt) : Z := val (digits u).

Definition digit_ok (d : Z) : bool := (0 <=? d) && (d <? BASE).

(** The representation invariant of section 3 of the specification, as a
    decidable predicate: non-empty, every digit in [[0, BASE)], and no
    most-significant zero unless the vector is the single digit 0. *)
Definition wf (u : UInt) : bool :=
  match digits u with
  | [] => false
  | _ => forallb digit_ok (digits u)
         && (negb (last (digits u) 0 =? 0) || (length (digits u) =? 1)%nat)
  end.

Definition Inv (u : UInt) : Prop :=
  digits u <> [] /\
  Forall (fun d => 0 <= d < BASE) (digits u) /\
  (last (digits u) 0 <> 0 \/ digits u = [0]).

(** ** [UInt::normalize]

    [while (digits.back() == 0 && size > 1) digits.pop_back();], read on
    the reversed vector (most-significant digit first). *)
Fixpoint pop_zeros (msf : list Z) : list Z :=
  match msf with
  | d :: (_ :: _) as rest => if d =? 0 then pop_zeros rest else msf
  | _ => msf
  end.

Definition normalize (u : UInt) : option UInt :=
  match digits u with
  | [] => None (* digits.back() on an empty vector *)
  | _ =>
      let ds := rev (pop_zeros (rev (digits u))) in
      do _ <- assert (forallb digit_ok ds);
      Some (mkUInt ds)
  end.

(** ** Constructors *)

(** [do { digits.push_back(number % BASE); number /= BASE; } while (number > 0);] *)
Fixpoint int_digits (fuel : nat) (number : Z) : list Z :=
  match fuel with
  | O => []
  | S fuel' =>
      Z.rem number BASE ::
      (let number' := Z.quot number BASE in
       if number' >? 0 then int_digits fuel' number' else [])
  end.

(** [UInt::UInt(int64_t number)]; the loop runs once per base-[BASE] digit,
    so [1 + log2 number] iterations are always enough. *)
Definition UInt_of_int (number : Z) : option UInt :=
  do _ <- assert (number >=? 0);
  normalize (mkUInt (int_digits (S (Z.to_nat (Z.log2 number))) number)).

(** [UInt::UInt(const std::vector<int64_t>& digits)] *)
Definition UInt_of_vec (ds : list Z) : option UInt :=
  normalize (mkUInt ds).

Definition size (u : UInt) : Z := Z.of_nat (length (digits u)).

(** [digits.back()] *)
Definition back (u : UInt) : Z := last (digits u) 0.

(** [UInt(0)], as the default constructor and the conversion of the
    literal [0] build it. *)
Definition UInt0 : UInt := mkUInt [0].

(** ** Comparator *)

(** The loop of [UInt::compare], from the most-significant digit down, on
    the two reversed vectors (they have the same length there). *)
Fixpoint compare_msf (xs ys : list Z) : Z :=
  match xs, ys with
  | x :: xs', y :: ys' =>
      if x >? y then 1
      else if x <? y then -1
      else compare_msf xs' ys'
  | _, _ => 0
  end.

(** [int64_t UInt::compare(const UInt& other) const] *)
Definition compare (a other : UInt) : Z :=
  if size a >? size other then 1
  else if size a <? size other then -1
  else compare_msf (rev (digits a)) (rev (digits other)).

Definition op_lt (a b : UInt) : bool := compare a b <? 0.
Definition op_gt (a b : UInt) : bool := compare a b >? 0.
Definition op_eq (a b : UInt) : bool := compare a b =? 0.
Definition op_le (a b : UInt) : bool := compare a b <=? 0.
Definition op_ge (a b : UInt) : bool := compare a b >=? 0.
Definition op_ne (a b : UInt) : bool := negb (compare a b =? 0).

(** ** Additive operators *)

(** The loop of [operator+=(int64_t)]: [for (i = 0; rem > 0; ++i)].  Past
    the end of the vector a digit 0 is pushed; a carry out of that digit
    takes one more pushed digit. *)
Fixpoint plus_int_loop (ds : list Z) (rem : Z) : list Z :=
  if rem >? 0 then
    match ds with
    | [] =>
        let rem := rem + 0 in
        if rem >=? BASE then [rem - BASE; 1] else [rem]
    | d :: t =>
        let rem := rem + d in
        if rem >=? BASE then (rem - BASE) :: plus_int_loop t 1
        else rem :: plus_int_loop t 0
    end
  else ds.

(** The tail of the loop of [operator+=(const UInt&)] once both vectors
    are exhausted: [while (rem > 0)] a digit 0 is pushed and takes
    [rem % BASE]. *)
Fixpoint carry_digits (fuel : nat) (rem : Z) : list Z :=
  match fuel with
  | O => []
  | S fuel' =>
      if rem >? 0 then
        let div := Z.quot rem BASE in
        (rem - div * BASE) :: carry_digits fuel' div
      else []
  end.

(** The same loop once [i >= s1]: [d1 = (digits.push_back(0), 0)]. *)
Fixpoint plus_tail (ys : list Z) (rem : Z) : list Z :=
  match ys with
  | [] => carry_digits (S (Z.to_nat (Z.log2 rem))) rem
  | d2 :: ys' =>
      let rem := rem + (0 + d2) in
      let div := Z.quot rem BASE in
      (rem - div * BASE) :: plus_tail ys' div
  end.

(** The loop of [operator+=(const UInt&)]:
    [for (i = 0; i < s1 || i < s2 || rem > 0; ++i)]. *)
Fixpoint plus_loop (xs ys : list Z) (rem : Z) : list Z :=
  match xs with
  | [] => plus_tail ys rem
  | d1 :: xs' =>
      let d2 := hd 0 ys in
      let rem := rem + (d1 + d2) in
      let div := Z.quot rem BASE in
      (rem - div * BASE) :: plus_loop xs' (tl ys) div
  end.

(** The long path of [operator+=(const UInt&)] (lines 134-145). *)
Definition plus_long (a other : UInt) : option UInt :=
  normalize (mkUInt (plus_loop (digits a) (digits other) 0)).

(** [UInt& UInt::operator+=(const int64_t num)].  For [num >= BASE] the
    source calls [*this += UInt(num)], whose argument has at least two
    digits, so that call runs the long path ([plus_assign_int_escalates]
    below states the call as the source writes it). *)
Definition plus_assign_int (a : UInt) (num : Z) : option UInt :=
  do _ <- assert (num >=? 0);
  if num >=? BASE then
    do o <- UInt_of_int num;
    plus_long a o
  else normalize (mkUInt (plus_int_loop (digits a) num)).

(** [UInt& UInt::operator+=(const UInt& other)] *)
Definition plus_assign (a other : UInt) : option UInt :=
  if size other =? 1 then plus_assign_int a (nth 0 (digits other) 0)
  else plus_long a other.

(** The loop of [operator-=(int64_t)]; the second component is the final
    [rem]. *)
Fixpoint minus_int_loop (ds : list Z) (rem : Z) : list Z * Z :=
  match ds with
  | [] => ([], rem)
  | d :: t =>
      if rem <? 0 then
        let rem := rem + d in
        if rem <? 0 then
          let '(t', r) := minus_int_loop t (-1) in ((rem + BASE) :: t', r)
        else (rem :: t, 0)
      else (ds, rem)
  end.

(** The loop of [operator-=(const UInt&)], with its [break] once the
    borrow is clear and [i >= s2]. *)
Fixpoint minus_loop (xs ys : list Z) (rem : Z) : list Z * Z :=
  match xs with
  | [] => ([], rem)
  | d1 :: xs' =>
      let d2 := hd 0 ys in
      let rem := rem + (d1 - d2) in
      if rem <? 0 then
        let '(t', r) := minus_loop xs' (tl ys) (-1) in ((rem + BASE) :: t', r)
      else
        match ys with
        | [] => (rem :: xs', 0)
        | _ :: ys' => let '(t', r) := minus_loop xs' ys' 0 in (rem :: t', r)
        end
  end.

(** The long path of [operator-=(const UInt&)] (lines 174-191). *)
Definition minus_long (a other : UInt) : option UInt :=
  do _ <- assert (size a >=? size other);
  let '(ds, rem) := minus_loop (digits a) (digits other) 0 in
  do _ <- assert (rem =? 0);
  normalize (mkUInt ds).

(** [UInt& UInt::operator-=(const int64_t num)] *)
Definition minus_assign_int (a : UInt) (num : Z) : option UInt :=
  do _ <- assert (num >=? 0);
  if num >=? BASE then
    do o <- UInt_of_int num;
    minus_long a o
  else
    let '(ds, rem) := minus_int_loop (digits a) (- num) in
    do _ <- assert (rem =? 0);
    normalize (mkUInt ds).

(** [UInt& UInt::operator-=(const UInt& other)] *)
Definition minus_assign (a other : UInt) : option UInt :=
  if size other =? 1 then minus_assign_int a (nth 0 (digits other) 0)
  else minus_long a other.

(** ** Multiplier *)

(** The floating-point part of the multiplier, which a shallow embedding
    over [Z] cannot evaluate, is the interface [FloatRuntime]:
    - [spectral_cost pow] is the value of the C++ expression
      [(int64_t)(3 * pow * std::log(pow) / std::log(2))] of [UInt::mult],
      computed in [double] and truncated;
    - [spectral_round fa fb] is the vector [temp] of [UInt::fast_mult]
      after its rounding loop: for [fa] and [fb] already resized to [n],
      the [n] values [int64_t(fa[i].real() + 0.5)] that [fft(fa, false)],
      [fft(fb, false)], [fa[i] *= fb[i]] and [fft(fa, true)] leave in
      [long double] arithmetic. *)
Class FloatRuntime : Type := {
  spectral_cost : Z -> Z;
  spectral_round : list Z -> list Z -> list Z
}.

(** The loop of [operator*=(int64_t)]:
    [for (auto& d : digits) { rem += 1LL * d * num; ... }] and then
    [if (rem > 0) digits.push_back(rem)]. *)
Fixpoint times_int_loop (ds : list Z) (num rem : Z) : list Z :=
  match ds with
  | [] => if rem >? 0 then [rem] else []
  | d :: t =>
      let rem := rem + 1 * d * num in
      let div := Z.quot rem BASE in
      (rem - div * BASE) :: times_int_loop t num div
  end.

(** The inner loop of [slow_mult] for one [i]: [temp] is the part of the
    buffer from index [i] on, [ys] the digits of [other] from index [j]
    on; it ends with [if (rem > 0) temp[i+s2] += rem]. *)
Fixpoint mult_row (xi : Z) (ys temp : list Z) (rem : Z) : option (list Z) :=
  match ys with
  | [] =>
      if rem >? 0 then
        match temp with
        | t :: temp' => Some ((t + rem) :: temp')
        | [] => None (* temp[i+s2] out of range *)
        end
      else Some temp
  | y :: ys' =>
      match temp with
      | t :: temp' =>
          let rem := rem + (t + 1 * xi * y) in
          let div := Z.quot rem BASE in
          do r <- mult_row xi ys' temp' div;
          Some ((rem - div * BASE) :: r)
      | [] => None (* temp[i+j] out of range *)
      end
  end.

(** The outer loop of [slow_mult]; [temp] is the buffer from index [i]
    on.  Row [i] leaves [temp[i]] final. *)
Fixpoint slow_loop (xs ys temp : list Z) : option (list Z) :=
  match xs with
  | [] => Some temp
  | xi :: xs' =>
      do row <- mult_row xi ys temp 0;
      match row with
      | t :: rest => do r <- slow_loop xs' ys rest; Some (t :: r)
      | [] => None (* no cell temp[i] *)
      end
  end.

(** The long path of [slow_mult] (lines 216-229):
    [std::vector<int64_t> temp(s1+s2)], the two loops, [UInt(temp)]. *)
Definition slow_long (a other : UInt) : option UInt :=
  let temp := repeat 0 (length (digits a) + length (digits other)) in
  do res <- slow_loop (digits a) (digits other) temp;
  UInt_of_vec res.

(** [while (pow < temp) pow *= 2;] *)
Fixpoint double_until (fuel : nat) (pow temp : Z) : Z :=
  match fuel with
  | O => pow
  | S fuel' => if pow <? temp then double_until fuel' (pow * 2) temp else pow
  end.

(** The padded transform length of [UInt::mult]:
    [temp = 3 * max(len1, len2); pow = 1; while (pow < temp) pow *= 2;
     pow *= 2]. *)
Definition padded_length (len1 len2 : Z) : Z :=
  let temp := 3 * Z.max len1 len2 in
  double_until (S (Z.to_nat (Z.log2 temp))) 1 temp * 2.

(** The lambda [prepare] of [fast_mult]: every digit gives three
    sub-digits of radix 1000, least-significant first. *)
Definition prepare (number : UInt) : list Z :=
  flat_map (fun d => [Z.rem d 1000; Z.rem (Z.quot d 1000) 1000;
                      Z.quot d 1000000])
           (digits number).

(** [n = 1; while (n < max(fa.size(), fb.size())) n *= 2; n *= 2;] *)
Definition transform_length (sa sb : Z) : Z :=
  let m := Z.max sa sb in
  double_until (S (Z.to_nat (Z.log2 m))) 1 m * 2.

(** [v.resize(n)]: cut to [n] elements or filled with zeros. *)
Definition resize (n : Z) (v : list Z) : list Z :=
  firstn (Z.to_nat n) v ++ repeat 0 (Z.to_nat n - length v).

(** The carry loop of [fast_mult] past the end of [temp]:
    [while (carry > 0)] a pushed 0 takes the carry. *)
Fixpoint carry_tail (fuel : nat) (carry : Z) : option (list Z) :=
  match fuel with
  | O => Some []
  | S fuel' =>
      if carry >? 0 then
        let t := 0 + carry in
        let carry := Z.quot t 1000 in
        let t := t - carry * 1000 in
        do _ <- assert (t >=? 0);
        do r <- carry_tail fuel' carry;
        Some (t :: r)
      else Some []
  end.

(** The carry loop of [fast_mult], [for (i = 0; i < n || carry > 0; ++i)],
    in radix 1000. *)
Fixpoint carry_loop (temp : list Z) (carry : Z) : option (list Z) :=
  match temp with
  | [] => carry_tail (S (Z.to_nat (Z.log2 carry))) carry
  | t :: rest =>
      let t := t + carry in
      let carry := Z.quot t 1000 in
      let t := t - carry * 1000 in
      do _ <- assert (t >=? 0);
      do r <- carry_loop rest carry;
      Some (t :: r)
  end.

(** The last loop of [fast_mult], [for (i = 0; i < n; i += 3)], on the
    first [n] elements of [temp]: three sub-digits give one digit, the
    missing ones of the last group being 0. *)
Fixpoint regroup (temp : list Z) : list Z :=
  match temp with
  | [] => []
  | [c] => [c + 1000 * (0 + 1000 * 0)]
  | [c; b] => [c + 1000 * (b + 1000 * 0)]
  | c :: b :: a :: rest => (c + 1000 * (b + 1000 * a)) :: regroup rest
  end.

Section Multiplier.
Context {rt : FloatRuntime}.

(** The selector of [UInt::mult]: [op1 >= 15 * op2]. *)
Definition use_fast (a other : UInt) : bool :=
  let len1 := size a in
  let len2 := size other in
  let pow := padded_length len1 len2 in
  let op1 := len1 * len2 in
  let op2 := spectral_cost pow in
  op1 >=? 15 * op2.

(** The vector [res] of [fast_mult] (lines 283-339). *)
Definition spectral_digits (a other : UInt) : option (list Z) :=
  let fa := prepare a in
  let fb := prepare other in
  let n := transform_length (Z.of_nat (length fa)) (Z.of_nat (length fb)) in
  let temp := spectral_round (resize n fa) (resize n fb) in
  do temp <- carry_loop temp 0;
  Some (regroup (firstn (Z.to_nat n) temp)).

(** The long path of [fast_mult] (lines 238-340): [return UInt(res)]. *)
Definition fast_long (a other : UInt) : option UInt :=
  do res <- spectral_digits a other;
  UInt_of_vec res.

(** [UInt::mult] on an [other] of two digits or more, where neither
    [fast_mult] nor [slow_mult] takes its single-digit shortcut. *)
Definition mult_long (a other : UInt) : option UInt :=
  if use_fast a other then fast_long a other else slow_long a other.

(** [UInt& UInt::operator*=(const int64_t num)].  For [num >= BASE] the
    source calls [*this *= UInt(num)], that is [mult] on an argument of
    at least two digits ([times_assign_int_escalates] below states the
    call as the source writes it). *)
Definition times_assign_int (a : UInt) (num : Z) : option UInt :=
  do _ <- assert (num >=? 0);
  if num >=? BASE then
    do o <- UInt_of_int num;
    mult_long a o
  else normalize (mkUInt (times_int_loop (digits a) num 0)).

(** [UInt operator*(const UInt& a, const int64_t b) { return UInt(a) *= b; }] *)
Definition op_times_int (a : UInt) (b : Z) : option UInt :=
  times_assign_int a b.

(** [UInt UInt::slow_mult(const UInt& other) const] *)
Definition slow_mult (a other : UInt) : option UInt :=
  if size other =? 1 then op_times_int a (nth 0 (digits other) 0)
  else slow_long a other.

(** [UInt UInt::fast_mult(const UInt& other) const] *)
Definition fast_mult (a other : UInt) : option UInt :=
  if size other =? 1 then op_times_int a (nth 0 (digits other) 0)
  else fast_long a other.

(** [UInt UInt::mult(const UInt& other) const] *)
Definition mult (a other : UInt) : option UInt :=
  if use_fast a other then fast_mult a other else slow_mult a other.

(** [UInt operator*(const UInt& a, const UInt& b) { return a.mult(b); }] *)
Definition op_times (a b : UInt) : option UInt := mult a b.

(** [UInt& UInt::operator*=(const UInt& other)] *)
Definition times_assign (a other : UInt) : option UInt := op_times a other.
End Multiplier.

(** ** Divider *)

Definition INT64_MAX : Z := 9223372036854775807.
Definition INT64_MIN : Z := -9223372036854775808.
Definition in_int64 (z : Z) : bool := (INT64_MIN <=? z) && (z <=? INT64_MAX).

(** The loop of [operator/=(int64_t)], from the most-significant digit
    down, on the reversed vector; it yields the new digits in the same
    order. *)
Fixpoint div_int_loop (msf : list Z) (num rem : Z) : list Z :=
  match msf with
  | [] => []
  | d :: t =>
      let rem := rem * BASE + d in
      let div := Z.quot rem num in
      div :: div_int_loop t num (rem - div * num)
  end.

(** The loop of [operator%(const UInt&, int64_t)], on the reversed vector:
    [((rem *= UInt::BASE) += a.digits[i]) %= num].  Here [num] is any
    positive [int64_t], so [rem * BASE] can leave the [int64_t] range; this
    signed overflow is a fault. *)
Fixpoint mod_int_loop (msf : list Z) (num rem : Z) : option Z :=
  match msf with
  | [] => Some rem
  | d :: t =>
      do _ <- assert (in_int64 (rem * BASE));
      do _ <- assert (in_int64 (rem * BASE + d));
      mod_int_loop t num (Z.rem (rem * BASE + d) num)
  end.

(** [int64_t operator%(const UInt& a, const int64_t num)] *)
Definition op_mod_int (a : UInt) (num : Z) : option Z :=
  do _ <- assert (num >? 0);
  mod_int_loop (rev (digits a)) num 0.

Section Divider.
Context {rt : FloatRuntime}.

(** The division operators call each other: [operator/=(int64_t)]
    escalates to [div_mod] for [num >= BASE], and [div_mod] ends in
    [r /= norm].  [dm] is the [div_mod] that an escalation calls. *)
Section Knot.
Variable dm : UInt -> UInt -> option (UInt * UInt).

(** [UInt& UInt::operator/=(const int64_t num)] *)
Definition div_assign_int_with (a : UInt) (num : Z) : option UInt :=
  do _ <- assert (num >? 0);
  if num >=? BASE then
    do o <- UInt_of_int num;
    do '(q, _) <- dm a o;
    Some q
  else
    normalize (mkUInt (rev (div_int_loop (rev (digits a)) num 0))).

(** The correction loop of [div_mod]:
    [while (r < temp) { r += b; --d; }] on the state [(r, d)]. *)
Definition correct_cond (temp : UInt) (st : UInt * Z) : bool :=
  op_lt (fst st) temp.

Definition correct_body (b : UInt) (st : UInt * Z) : option (UInt * Z) :=
  do r <- plus_assign (fst st) b;
  Some (r, snd st - 1).

(** The main loop of [div_mod], [for (i = a_size - 1; i >= 0; --i)], on
    the reversed digits of [a]; [q] collects [q.digits[i]], index [i]
    first. *)
Fixpoint div_loop (b : UInt) (msf : list Z) (q : list Z) (r : UInt)
  : option (list Z * UInt) :=
  match msf with
  | [] => Some (q, r)
  | ai :: rest =>
      let b_size := size b in
      do r <- times_assign_int r BASE;
      do r <- plus_assign_int r ai;
      let s1 := if size r <=? b_size then 0
                else nth (Z.to_nat b_size) (digits r) 0 in
      let s2 := if size r <=? b_size - 1 then 0
                else nth (Z.to_nat (b_size - 1)) (digits r) 0 in
      do _ <- assert (negb (back b =? 0)); (* division by zero *)
      let d := Z.quot (1 * BASE * s1 + s2) (back b) in
      do temp <- op_times_int b d;
      do '(r, d) <- while (correct_cond temp) (correct_body b) 64 (r, d);
      do r <- minus_assign r temp;
      div_loop b rest (d :: q) r
  end.

(** [std::pair<UInt, UInt> UInt::div_mod(const UInt& other) const] *)
Definition div_mod_with (a other : UInt) : option (UInt * UInt) :=
  if size other =? 1 then
    let d0 := nth 0 (digits other) 0 in
    do q <- div_assign_int_with a d0;
    do m <- op_mod_int a d0;
    do r <- UInt_of_int m;
    Some (q, r)
  else
    do _ <- assert (negb (back other + 1 =? 0)); (* division by zero *)
    let norm := Z.quot BASE (back other + 1) in
    do a' <- op_times_int a norm;
    do b <- op_times_int other norm;
    do '(q, r) <- div_loop b (rev (digits a')) [] UInt0;
    do q <- normalize (mkUInt q);
    do r <- div_assign_int_with r norm;
    Some (q, r).
End Knot.

(** Calls nested [depth] deep. *)
Fixpoint div_mod_at (depth : nat) (a other : UInt) : option (UInt * UInt) :=
  match depth with
  | O => div_mod_with (fun _ _ => None) a other
  | S depth' => div_mod_with (div_mod_at depth') a other
  end.

(** One nested call is all the source can make: an escalated divisor
    [UInt(num)] is normalised, so its own [norm] is below [BASE]
    ([div_mod_at_stable] below). *)
Definition div_mod (a other : UInt) : option (UInt * UInt) :=
  div_mod_at 1 a other.

Definition div_assign_int (a : UInt) (num : Z) : option UInt :=
  div_assign_int_with div_mod a num.

(** [UInt operator/(const UInt& a, const UInt& b)] *)
Definition op_div (a b : UInt) : option UInt :=
  do '(q, _) <- div_mod a b; Some q.

(** [UInt operator%(const UInt& a, const UInt& b)] *)
Definition op_mod (a b : UInt) : option UInt :=
  do '(_, r) <- div_mod a b; Some r.

(** [UInt operator/(const UInt& a, const int64_t b)] *)
Definition op_div_int (a : UInt) (b : Z) : option UInt :=
  div_assign_int a b.

(** ** Mixed-operand operators (lines 488-493) *)

(** [UInt operator+(const UInt& a, const int64_t b) { return UInt(a) += b; }] *)
Definition op_plus_int (a : UInt) (b : Z) : option UInt :=
  plus_assign_int a b.

(** [UInt operator+(const int64_t a, const UInt& b) { return b * a; }] *)
Definition int_op_plus (a : Z) (b : UInt) : option UInt :=
  op_times_int b a.

(** [UInt operator-(const UInt& a, const int64_t b) { return UInt(a) -= b; }] *)
Definition op_minus_int (a : UInt) (b : Z) : option UInt :=
  minus_assign_int a b.

(** [UInt operator*(const int64_t a, const UInt& b) { return b * a; }] *)
Definition int_op_times (a : Z) (b : UInt) : option UInt :=
  op_times_int b a.

(** [UInt operator+(const UInt& a, const UInt& b) { return UInt(a) += b; }] *)
Definition op_plus (a b : UInt) : option UInt := plus_assign a b.

(** [UInt operator-(const UInt& a, const UInt& b) { return UInt(a) -= b; }] *)
Definition op_minus (a b : UInt) : option UInt := minus_assign a b.

(** ** Exponentiation and gcd *)

(** [UInt gcd(UInt a, UInt b)]:
    [while (b != 0) { auto rem = a % b; a = b; b = rem; }] on the state
    [(a, b)]; the literal [0] converts to [UInt(0)]. *)
Definition gcd_cond (st : UInt * UInt) : bool := op_ne (snd st) UInt0.

Definition gcd_body (st : UInt * UInt) : option (UInt * UInt) :=
  do rem <- op_mod (fst st) (snd st);
  Some (snd st, rem).

(** A remainder is below its divisor, so the loop makes fewer than
    [BASE ^ size b <= 2 ^ (30 * size b)] iterations. *)
Definition gcd (a b : UInt) : option UInt :=
  do '(a, _) <- while gcd_cond gcd_body (30 * length (digits b) + 1) (a, b);
  Some a.

(** [UInt pow(UInt a, long long n, long long mod)]: both branches run
    [while (n > 0)] on the state [(res, a, n)]. *)
Definition pow_cond (st : UInt * UInt * Z) : bool := snd st >? 0.

Definition pow_body (modulus : option Z) (st : UInt * UInt * Z)
  : option (UInt * UInt * Z) :=
  let '(res, a, n) := st in
  do res <- (if negb (Z.rem n 2 =? 0) then times_assign res a
             else Some res);
  do a <- times_assign a a;
  do a <- match modulus with
          | None => Some a
          | Some m =>
              (* a %= mod: the scalar converts to UInt(mod) *)
              do mu <- UInt_of_int m;
              op_mod a mu
          end;
  Some (res, a, Z.quot n 2).

Definition pow (a : UInt) (n modulus : Z) : option UInt :=
  do res <- UInt_of_int 1;
  let m := if modulus =? -1 then None else Some modulus in
  do '(ra, _) <-
     while pow_cond (pow_body m) (S (Z.to_nat (Z.log2 n))) (res, a, n);
  Some (fst ra).
End Divider.

(** ** Textual codec *)

(** A [std::string] is a [list ascii]. *)
Definition text : Type := list ascii.

Definition is_digit (c : ascii) : bool :=
  let n := nat_of_ascii c in (48 <=? n)%nat && (n <=? 57)%nat.

Definition digit_value (c : ascii) : Z := Z.of_nat (nat_of_ascii c) - 48.

(** [isspace] in the "C" locale. *)
Definition is_space (c : ascii) : bool :=
  let n := nat_of_ascii c in (n =? 32)%nat || ((9 <=? n)%nat && (n <=? 13)%nat).

Fixpoint skip_space (s : text) : text :=
  match s with
  | c :: t => if is_space c then skip_space t else s
  | [] => []
  end.

(** The digits [strtol] consumes: the longest prefix of decimal digits. *)
Fixpoint read_digits (s : text) (acc : Z) : Z :=
  match s with
  | c :: t => if is_digit c then read_digits t (acc * 10 + digit_value c) else acc
  | [] => acc
  end.

(** [std::stoi(str)]: leading white space, an optional sign, then decimal
    digits up to the first other character; [None] is one of its two
    exceptions ([invalid_argument] without a digit, [out_of_range] outside
    [int]), which nothing in the source catches. *)
Definition stoi (str : text) : option Z :=
  let s := skip_space str in
  let '(neg, s) :=
    match s with
    | c :: t =>
        if (nat_of_ascii c =? 45)%nat then (true, t)
        else if (nat_of_ascii c =? 43)%nat then (false, t)
        else (false, s)
    | [] => (false, s)
    end in
  match s with
  | c :: _ =>
      if is_digit c then
        let v := read_digits s 0 in
        let v := if neg then - v else v in
        do _ <- assert ((-2147483648 <=? v) && (v <=? 2147483647));
        Some v
      else None
  | [] => None
  end.

(** [s.substr(pos, len)] for [pos <= s.size()]. *)
Definition substr (s : text) (pos len : nat) : text :=
  firstn len (skipn pos s).

(** The first loop of [UInt::UInt(const std::string&)]:
    [for (idGroup = 1; idGroup <= nGroups; ++idGroup)], with [count] the
    iterations left. *)
Fixpoint string_groups (s : text) (count idGroup : nat) : option (list Z) :=
  match count with
  | O => Some []
  | S count' =>
      do d <- stoi (substr s (length s - idGroup * WIDTH) WIDTH);
      do rest <- string_groups s count' (S idGroup);
      Some (d :: rest)
  end.

(** [UInt::UInt(const std::string& s)] *)
Definition UInt_of_string (s : text) : option UInt :=
  let size := length s in
  do ds <- string_groups s (size / WIDTH) 1;
  do top <- (if negb (size mod WIDTH =? 0)%nat
             then do d <- stoi (substr s 0 (size mod WIDTH)); Some [d]
             else Some []);
  normalize (mkUInt (ds ++ top)).

Definition digit_char (d : Z) : ascii := ascii_of_nat (Z.to_nat (48 + d)).

(** The decimal digits of a non-negative [n], most-significant first. *)
Fixpoint print_digits (fuel : nat) (n : Z) (acc : text) : text :=
  match fuel with
  | O => acc
  | S fuel' =>
      let acc := digit_char (Z.rem n 10) :: acc in
      let n := Z.quot n 10 in
      if n =? 0 then acc else print_digits fuel' n acc
  end.

(** [os << x] for an [int64_t x]. *)
Definition print_int (x : Z) : text :=
  if x <? 0
  then ascii_of_nat 45 :: print_digits (S (Z.to_nat (Z.log2 (- x)))) (- x) []
  else print_digits (S (Z.to_nat (Z.log2 x))) x [].

(** [os << std::setw(w) << std::setfill('0') << x]: right-adjusted, filled
    on the left, never truncated. *)
Definition print_padded (w : nat) (x : Z) : text :=
  let s := print_int x in
  repeat (ascii_of_nat 48) (w - length s) ++ s.

(** [std::ostream& operator<<(std::ostream& os, const UInt& number)]: the
    characters written. *)
Definition format (number : UInt) : option text :=
  match rev (digits number) with
  | [] => None (* digits.back() on an empty vector *)
  | top :: rest =>
      Some (print_int top ++ flat_map (print_padded WIDTH) rest)
  end.

(** [std::istream& operator>>(std::istream& is, UInt& number)] on the
    token [s] the stream delivers. *)
Definition parse (s : text) : option UInt := UInt_of_string s.

(** A valid decimal string: non-empty, decimal digits only. *)
Definition valid_decimal (s : text) : bool :=
  match s with
  | [] => false
  | _ => forallb is_digit s
  end.

(** Without leading zeros: the first character is not ['0'], unless the
    string is ["0"]. *)
Definition no_leading_zero (s : text) : bool :=
  match s with
  | c :: _ :: _ => negb (nat_of_ascii c =? 48)%nat
  | _ => true
  end.

(** ** The index computations of the transform

    The lambdas [reverse] and [fft] of [fast_mult] compute on indices with
    [int] shifts; the butterflies on [long double] values are behind
    [spectral_round]. *)

(** [1 << i] for the [int] literal 1: a shift that leaves the
    non-negative range of a 32-bit [int] is a fault. *)
Definition shl1 (i : Z) : option Z :=
  do _ <- assert ((0 <=? i) && (i <? 31));
  Some (Z.shiftl 1 i).

(** The loop of the lambda [reverse]: [for (i = 0; i < nBits; ++i)], with
    [count] the iterations left. *)
Fixpoint reverse_loop (count : nat) (i number nBits res : Z) : option Z :=
  match count with
  | O => Some res
  | S count' =>
      do m <- shl1 i;
      do res <- (if negb (Z.land number m =? 0)
                 then do s <- shl1 (nBits - 1 - i); Some (Z.lor res s)
                 else Some res);
      reverse_loop count' (i + 1) number nBits res
  end.

(** The lambda [reverse(number, nBits)] (lines 239-247). *)
Definition reverse (number nBits : Z) : option Z :=
  reverse_loop (Z.to_nat nBits) 0 number nBits 0.

(** [nBits = 0; while ((1 << nBits) < n) ++nBits;] of the lambda [fft];
    the shift faults at [nBits = 31], so 32 iterations are all there
    can be. *)
Fixpoint count_bits (fuel : nat) (nBits n : Z) : option Z :=
  match fuel with
  | O => None
  | S fuel' =>
      do m <- shl1 nBits;
      if m <? n then count_bits fuel' (nBits + 1) n else Some nBits
  end.

(** [a[i] = x] on a vector, a fault out of range. *)
Fixpoint store {A : Type} (a : list A) (i : nat) (x : A) : option (list A) :=
  match a, i with
  | [], _ => None
  | _ :: t, O => Some (x :: t)
  | h :: t, S i' => do t' <- store t i' x; Some (h :: t')
  end.

(** [std::swap(a[i], a[j])] *)
Definition swap {A : Type} (a : list A) (i j : nat) : option (list A) :=
  match nth_error a i, nth_error a j with
  | Some x, Some y => do a <- store a i y; store a j x
  | _, _ => None
  end.

(** The first loop of the lambda [fft] (lines 256-260), on a vector of
    any element type:
    [for (i = 0; i < n; ++i)
       if (i < reverse(i, nBits)) std::swap(a[i], a[reverse(i, nBits)]);],
    with [count] the iterations left. *)
Fixpoint permute_loop {A : Type} (count : nat) (i nBits : Z) (a : list A)
  : option (list A) :=
  match count with
  | O => Some a
  | S count' =>
      do r <- reverse i nBits;
      do a <- (if i <? r then swap a (Z.to_nat i) (Z.to_nat r) else Some a);
      permute_loop count' (i + 1) nBits a
  end.

(** Lines 252-260 of the lambda [fft]: [n = a.size()], the bit count and
    the permutation. *)
Definition bit_reversal {A : Type} (a : list A) : option (list A) :=
  let n := Z.of_nat (length a) in
  do nBits <- count_bits 32 0 n;
  permute_loop (length a) 0 nBits a.

(** ** The encryption driver [main] *)

(** [std::to_string(x)] for an [int64_t x]: the decimal text, as [os << x]
    writes it. *)
Definition to_string (x : Z) : text := print_int x.

(** The code [c] of one character of the message (lines 551-562), on the
    character's number; a [char] above 127 (negative where [char] is
    signed) fails every test, as every other character outside the
    alphabet. *)
Definition symbol_code (symbol : ascii) : Z :=
  let s := Z.of_nat (nat_of_ascii symbol) in
  if (s >=? 48) && (s <=? 57) then s - 48
  else if (s >=? 65) && (s <=? 90) then s - 55
  else if (s >=? 97) && (s <=? 122) then s - 61
  else if s =? 32 then 62
  else if s =? 46 then 63
  else 64.

(** [start_vector] after the first loop of [main]. *)
Definition start_vector (input_msg : text) : list Z :=
  map symbol_code input_msg.

Section Driver.
Context {rt : FloatRuntime}.

(** [for (auto v : start_vector) { code_number += v * current_place;
    current_place *= 64; }] (lines 567-570); [v * current_place] is
    [operator*(int64_t, const UInt&)]. *)
Fixpoint encode_loop (vs : list Z) (code_number current_place : UInt)
  : option UInt :=
  match vs with
  | [] => Some code_number
  | v :: vs' =>
      do t <- int_op_times v current_place;
      do code_number <- plus_assign code_number t;
      do current_place <- times_assign_int current_place 64;
      encode_loop vs' code_number current_place
  end.

(** The loop of lines 575-578 on the state [(ready_code, code_number)]:
    [do { ready_code.push_back(code_number % prime);
          code_number /= prime; } while (code_number > 0);]
    where the literal [0] converts to [UInt(0)]. *)
Definition radix_cond (st : list Z * UInt) : bool := op_gt (snd st) UInt0.

Definition radix_body (prime : Z) (st : list Z * UInt)
  : option (list Z * UInt) :=
  do d <- op_mod_int (snd st) prime;
  do c <- div_assign_int (snd st) prime;
  Some (fst st ++ [d], c).

Definition ready_code_with (fuel : nat) (prime : Z) (code_number : UInt)
  : option (list Z) :=
  do st <- radix_body prime ([], code_number);
  do st <- while radix_cond (radix_body prime) fuel st;
  Some (fst st).

(** For [prime >= 2] every iteration at least halves [code_number], which
    is below [2 ^ (30 * size)]. *)
Definition ready_code (prime : Z) (code_number : UInt) : option (list Z) :=
  ready_code_with (30 * length (digits code_number) + 1) prime code_number.

(** The two numbers of one output line (lines 585-588), for the exponent
    [b]: [pow(temp, b, prime) % prime] and, for
    [UInt temp2(pow(k, b, prime)); temp2 *= digit;], [temp2 % prime]. *)
Definition encrypt_digit (temp k : UInt) (prime b digit : Z)
  : option (Z * Z) :=
  do p1 <- pow temp b prime;
  do c1 <- op_mod_int p1 prime;
  do temp2 <- pow k b prime;
  do temp2 <- times_assign_int temp2 digit;
  do c2 <- op_mod_int temp2 prime;
  Some (c1, c2).

(** [rand i] is the value of call number [i] of [rand()]. *)
Variable rand : nat -> Z.

(** [int64_t b = 2 + rand() % (prime - 3);], a fault for [prime = 3]. *)
Definition exponent (prime : Z) (i : nat) : option Z :=
  do _ <- assert (negb (prime - 3 =? 0));
  Some (2 + Z.rem (rand i) (prime - 3)).

(** The loop of lines 583-593 and [cout << ans] after it; [out] is what
    [cout] has taken so far, [i] the iteration. *)
Fixpoint encrypt_loop (ready_code : list Z) (i : nat) (temp k : UInt)
         (prime : Z) (out ans : text) : option text :=
  match ready_code with
  | [] => Some (out ++ ans)
  | digit :: rest =>
      do b <- exponent prime i;
      do '(c1, c2) <- encrypt_digit temp k prime b digit;
      let ans := ans ++ (to_string c1 ++ [ascii_of_nat 32]) in
      let ans := ans ++ (to_string c2 ++ [ascii_of_nat 10]) in
      if Z.of_nat (length ans) >=? 100000
      then encrypt_loop rest (S i) temp k prime (out ++ ans) []
      else encrypt_loop rest (S i) temp k prime out ans
  end.

(** [int main()] on the three numbers and the message line that [cin]
    delivers: the characters written to [cout]. *)
Definition main (prime g key : Z) (input_msg : text) : option text :=
  do current_place <- UInt_of_int 1;
  do code_number <- UInt_of_int 0;
  do code_number <-
     encode_loop (start_vector input_msg) code_number current_place;
  do ready_code <- ready_code prime code_number;
  do temp <- UInt_of_int g;
  do k <- UInt_of_int key;
  encrypt_loop ready_code 0 temp k prime [] [].
End Driver.

(** ** Specification vocabulary *)

(** Every digit lies in [[0, BASE)]. *)
Definition Digits (ds : list Z) : Prop := Forall (fun d => 0 <= d < BASE) ds.

(** The value [compare] returns for a numeric comparison. *)
Definition sign_of (c : comparison) : Z :=
  match c with
  | Lt => -1
  | Eq => 0
  | Gt => 1
  end.

(** What the spectral path has to deliver on [a] and [b]: a non-empty
    vector of digits in range that denotes the product. *)
Definition fast_ok {rt : FloatRuntime} (a b : UInt) : Prop :=
  exists res, spectral_digits a b = Some res /\ res <> [] /\ Digits res /\
              val res = value a * value b.

(** The spectral path is right wherever the selector takes it on a second
    operand of at most [k] digits. *)
Definition spectral_ok {rt : FloatRuntime} (k : Z) : Prop :=
  forall a b, Inv a -> Inv b -> 2 <= size b <= k ->
  use_fast a b = true -> fast_ok a b.

(** The spectral path is right wherever the selector takes it. *)
Definition spectral_sound {rt : FloatRuntime} : Prop := forall k, spectral_ok k.

(** The spectral path returns the product digits on all operands. *)
Definition fft_exact {rt : FloatRuntime} : Prop :=
  forall a b, Inv a -> Inv b -> 2 <= size b -> fast_ok a b.

(** Sub-digits of radix 1000 and the number they denote. *)
Definition SubDigits (l : list Z) : Prop := Forall (fun d => 0 <= d < 1000) l.

Fixpoint val1000 (l : list Z) : Z :=
  match l with
  | [] => 0
  | d :: t => d + 1000 * val1000 t
  end.

(** Assumption on the transform: on two sub-digit vectors that fit
    together into the padded length [n], the rounded inverse transform
    returns [n] non-negative coefficients of the product, so that they
    evaluate at 1000 to the product of the operands (no wrap-around of the
    cyclic convolution, rounding error below 0.5). *)
Definition transform_exact {rt : FloatRuntime} : Prop :=
  forall fa fb n,
  SubDigits fa -> SubDigits fb -> Z.of_nat (length fa + length fb) <= n ->
  length (spectral_round (resize n fa) (resize n fb)) = Z.to_nat n /\
  Forall (fun c => 0 <= c) (spectral_round (resize n fa) (resize n fb)) /\
  val1000 (spectral_round (resize n fa) (resize n fb))
  = val1000 fa * val1000 fb.

(** Assumption on the cost estimate: it is not below the padded length
    (the exact value is [3 * pow * log2 pow >= 3 * pow]). *)
Definition cost_sane {rt : FloatRuntime} : Prop :=
  forall pow, 2 <= pow -> pow <= spectral_cost pow.

(** The invariant of the correction loop of [div_mod], for the divisor
    [b], the partial remainder [R] and the estimate [dh]: [R / value b] is
    the true quotient digit. *)
Definition correct_inv (b : UInt) (R dh : Z) (st : UInt * Z) : Prop :=
  Inv (fst st) /\
  value (fst st) = R + (dh - snd st) * value b /\
  R / value b <= snd st <= dh.

(** The invariant of the loop of [gcd]. *)
Definition gcd_inv (g : Z) (st : UInt * UInt) : Prop :=
  Inv (fst st) /\ Inv (snd st) /\ Z.gcd (value (fst st)) (value (snd st)) = g.

(** The invariant of both loops of [pow]: [T] is the power to compute. *)
Definition pow_inv (modulus : option Z) (T : Z) (st : UInt * UInt * Z) : Prop :=
  let '(res, a, n) := st in
  Inv res /\ Inv a /\ 0 <= n /\
  match modulus with
  | Some m => (value res * value a ^ n) mod m = T mod m
  | None => value res * value a ^ n = T
  end.

Definition modulus_ok (modulus : option Z) : Prop :=
  match modulus with
  | Some m => 0 < m
  | None => True
  end.

(** The number a string of decimal digits denotes. *)
Definition dec (s : text) : Z := read_digits s 0.

Definition all_digits (s : text) : Prop := forallb is_digit s = true.

(** A digit string in canonical form: no leading ['0'] unless it is the
    single character. *)
Definition canonical (s : text) : Prop :=
  all_digits s /\ s <> [] /\ no_leading_zero s = true.

(** A [div_mod] whose results are normalised. *)
Definition returns_Inv (dm : UInt -> UInt -> option (UInt * UInt)) : Prop :=
  forall a b q r, dm a b = Some (q, r) -> Inv q /\ Inv r.

(** The divisors an escalation builds: normalised, two digits or more. *)
Definition escalated (o : UInt) : Prop := size o <> 1 /\ 1 <= back o < BASE.

(** The constructors and the operations that yield a [UInt]; [DivAssign]
    and [ModAssign] are also the two components of [div_mod]. *)
Inductive operation : Type :=
| OfInt (number : Z)
| OfString (s : text)
| OfVec (ds : list Z)
| PlusAssignInt (a : UInt) (num : Z)
| PlusAssign (a b : UInt)
| MinusAssignInt (a : UInt) (num : Z)
| MinusAssign (a b : UInt)
| TimesAssignInt (a : UInt) (num : Z)
| TimesAssign (a b : UInt)
| DivAssignInt (a : UInt) (num : Z)
| DivAssign (a b : UInt)
| ModAssign (a b : UInt)
| SlowMult (a b : UInt)
| FastMult (a b : UInt)
| Mult (a b : UInt)
| IntPlus (s : Z) (x : UInt)
| IntTimes (s : Z) (x : UInt)
| Pow (a : UInt) (n modulus : Z)
| Gcd (a b : UInt).

Definition perform {rt : FloatRuntime} (op : operation) : option UInt :=
  match op with
  | OfInt number => UInt_of_int number
  | OfString s => UInt_of_string s
  | OfVec ds => UInt_of_vec ds
  | PlusAssignInt a num => plus_assign_int a num
  | PlusAssign a b => plus_assign a b
  | MinusAssignInt a num => minus_assign_int a num
  | MinusAssign a b => minus_assign a b
  | TimesAssignInt a num => times_assign_int a num
  | TimesAssign a b => times_assign a b
  | DivAssignInt a num => div_assign_int a num
  | DivAssign a b => op_div a b
  | ModAssign a b => op_mod a b
  | SlowMult a b => slow_mult a b
  | FastMult a b => fast_mult a b
  | Mult a b => mult a b
  | IntPlus s x => int_op_plus s x
  | IntTimes s x => int_op_times s x
  | Pow a n modulus => pow a n modulus
  | Gcd a b => gcd a b
  end.

(** The operands an operation takes as they are into its result: only
    [gcd], which returns its first argument when the second is zero. *)
Definition operands_kept (op : operation) : Prop :=
  match op with
  | Gcd a b => Inv a /\ Inv b
  | _ => True
  end.

(** The preconditions of the operations: normalised operands, and what
    the assertions of the source demand. *)
Definition requires (op : operation) : Prop :=
  match op with
  | OfInt number => 0 <= number
  | OfString s => valid_decimal s = true
  | OfVec ds => ds <> [] /\ Digits ds
  | PlusAssignInt a num | TimesAssignInt a num => Inv a /\ 0 <= num
  | IntPlus num a | IntTimes num a => Inv a /\ 0 <= num
  | MinusAssignInt a num => Inv a /\ 0 <= num <= value a
  | MinusAssign a b => Inv a /\ Inv b /\ value b <= value a
  | DivAssignInt a num => Inv a /\ 0 < num
  | DivAssign a b | ModAssign a b => Inv a /\ Inv b /\ 0 < value b
  | PlusAssign a b | TimesAssign a b | SlowMult a b | FastMult a b
  | Mult a b | Gcd a b => Inv a /\ Inv b
  | Pow a n modulus => Inv a /\ 0 <= n /\ (modulus = -1 \/ 0 < modulus)
  end.

(** The [n] sub-digits of radix 1000 of [v], least-significant first. *)
Fixpoint digits1000 (n : nat) (v : Z) : list Z :=
  match n with
  | O => []
  | S n' => v mod 1000 :: digits1000 n' (v / 1000)
  end.

(** A runtime whose floating-point evaluation is exact: the cost estimate
    is [3 * pow * log2 pow], and the transform returns coefficients of the
    product (here the ones already carried).  It shows that the assumptions
    made on a runtime below can be met. *)
Definition exact_runtime : FloatRuntime := {|
  spectral_cost pow := 3 * pow * Z.log2 pow;
  spectral_round fa fb := digits1000 (length fa) (val1000 fa * val1000 fb)
|}.

(** The string of the first concrete scenario of the specification. *)
Module Scenario.
Import String.
Definition quintillion : text := list_ascii_of_string "1000000000000000000".
End Scenario.

(** Sample texts for the codec and the driver. *)
Module Samples.
Import String.
Definition leading_zeros : text :=
  list_ascii_of_string "000000012345678901234567890".
Definition no_digits : text := list_ascii_of_string "twelve".
Definition message : text := list_ascii_of_string "Hi there.".
Definition twelve : text := list_ascii_of_string "12".
Definition blanks : text := list_ascii_of_string "  ".
Definition junk : text := list_ascii_of_string "x9".
End Samples.

(** ** Vocabulary of the driver *)

(** The number a vector of character codes denotes: code [i] has the
    weight [64 ^ i]. *)
Fixpoint code_value (vs : list Z) : Z :=
  match vs with
  | [] => 0
  | v :: t => v + 64 * code_value t
  end.

(** A message over the 64 characters with a code of their own: decimal
    digits, letters, the blank and the full stop. *)
Definition in_alphabet (input_msg : text) : bool :=
  forallb (fun c => symbol_code c <? 64) input_msg.

(** The number a vector of digits of radix [p] denotes, least-significant
    digit first. *)
Fixpoint radix_value (p : Z) (ds : list Z) : Z :=
  match ds with
  | [] => 0
  | d :: t => d + p * radix_value p t
  end.




(** * Correctness *)

(** ** The error monad and the [while] combinator *)

Lemma bind_Some {A B : Type} (m : option A) (k : A -> option B) (b : B) :
  bind m k = Some b -> exists a, m = Some a /\ k a = Some b.
Proof. destruct m as [a|]; simpl; intros H; [eauto | discriminate]. Qed.

Lemma assert_Some (c : bool) (u : unit) : assert c = Some u -> c = true.
Proof. destruct c; simpl; [reflexivity | discriminate]. Qed.

Lemma assert_true (c : bool) : c = true -> assert c = Some tt.
Proof. intros ->; reflexivity. Qed.

(** Inversion of a monadic computation that returned. *)
Ltac inv_bind H :=
  repeat match type of H with
  | bind ?m ?k = Some _ =>
      let x := fresh "x" in
      let Hx := fresh "Hx" in
      apply bind_Some in H; destruct H as (x & Hx & H)
  end.

Section WhileRules.
Variable St : Type.
Variable cond : St -> bool.
Variable body : St -> option St.
Variable I : St -> Prop.
Variable mu : St -> Z.

Hypothesis step_ok :
  forall s, I s -> cond s = true ->
  exists s', body s = Some s' /\ I s' /\ 0 <= mu s' < mu s.

Lemma run_progress (n : nat) :
  forall s, I s -> 0 <= mu s ->
  (exists s', run cond body n s = Done s' /\ I s' /\ cond s' = false) \/
  (exists s', run cond body n s = More s' /\ I s' /\
              0 <= mu s' /\ mu s' + 2 ^ Z.of_nat n <= mu s).
Proof.
  induction n as [|n IH]; intros s HI Hmu.
  - simpl. destruct (cond s) eqn:Hc.
    + destruct (step_ok s HI Hc) as (s' & -> & HI' & Hm).
      right. exists s'. repeat split; try tauto; lia.
    + left. eauto.
  - cbn [run]. destruct (IH s HI Hmu) as [(s' & -> & H)|(s' & -> & HI' & Hm0 & Hm)].
    + left. eauto.
    + destruct (IH s' HI' Hm0) as [(s'' & -> & H)|(s'' & -> & HI'' & Hm0' & Hm')].
      * left. eauto.
      * right. exists s''. repeat split; trivial.
        rewrite Nat2Z.inj_succ, Z.pow_succ_r by lia. lia.
Qed.

(** Total correctness of a [while] loop with invariant [I] and variant
    [mu]: with fuel [n] and [mu s < 2^n] the loop returns, in a state
    that satisfies [I] and falsifies the condition. *)
Lemma while_total (n : nat) (s : St) :
  I s -> 0 <= mu s < 2 ^ Z.of_nat n ->
  exists s', while cond body n s = Some s' /\ I s' /\ cond s' = false.
Proof.
  intros HI Hmu. unfold while.
  destruct (run_progress n s HI (proj1 Hmu)) as [(s' & -> & H)|(s' & _ & _ & Hm0 & Hm)].
  - eauto.
  - lia.
Qed.
End WhileRules.

Section WhilePartial.
Variable St : Type.
Variable cond : St -> bool.
Variable body : St -> option St.
Variable I : St -> Prop.

Hypothesis step_pres :
  forall s s', I s -> cond s = true -> body s = Some s' -> I s'.

Lemma run_partial (n : nat) :
  forall s, I s ->
  match run cond body n s with
  | Done s' => I s' /\ cond s' = false
  | More s' => I s'
  | Fault => True
  end.
Proof.
  induction n as [|n IH]; intros s HI.
  - simpl. destruct (cond s) eqn:Hc; [|tauto].
    destruct (body s) eqn:Hb; [eauto | exact Logic.I].
  - cbn [run]. specialize (IH s HI) as H1.
    destruct (run cond body n s) as [s'|s'|]; trivial.
    apply IH; exact H1.
Qed.

(** Partial correctness: a state the loop returns satisfies the
    invariant. *)
Lemma while_partial (n : nat) (s s' : St) :
  I s -> while cond body n s = Some s' -> I s' /\ cond s' = false.
Proof.
  intros HI. unfold while. pose proof (run_partial n s HI) as H.
  destruct (run cond body n s); try discriminate.
  intros [= <-]. exact H.
Qed.
End WhilePartial.

(** ** Digit vectors *)

Lemma BASE_eq : BASE = 1000000000.
Proof. reflexivity. Qed.

Lemma BASE_pos : 0 < BASE.
Proof. reflexivity. Qed.

Lemma BASE_pow_pos (n : nat) : 0 < BASE ^ Z.of_nat n.
Proof. apply Z.pow_pos_nonneg; [exact BASE_pos | lia]. Qed.

Lemma BASE_pow_succ (n : nat) : BASE ^ Z.of_nat (S n) = BASE * BASE ^ Z.of_nat n.
Proof. rewrite Nat2Z.inj_succ, Z.pow_succ_r by lia. reflexivity. Qed.

Lemma digit_ok_iff (d : Z) : digit_ok d = true <-> 0 <= d < BASE.
Proof. unfold digit_ok. rewrite andb_true_iff, Z.leb_le, Z.ltb_lt. tauto. Qed.

Lemma forallb_digit_ok (ds : list Z) : forallb digit_ok ds = true <-> Digits ds.
Proof.
  unfold Digits. rewrite forallb_forall, Forall_forall.
  split; intros H d Hd; apply digit_ok_iff; auto.
Qed.

Lemma Digits_cons (d : Z) (ds : list Z) :
  Digits (d :: ds) <-> 0 <= d < BASE /\ Digits ds.
Proof. unfold Digits. split; [intros H; inversion H; auto | intros []; constructor; auto]. Qed.

Lemma Digits_app (xs ys : list Z) : Digits (xs ++ ys) <-> Digits xs /\ Digits ys.
Proof. unfold Digits. apply Forall_app. Qed.

Lemma Digits_rev (xs : list Z) : Digits (rev xs) <-> Digits xs.
Proof.
  unfold Digits. rewrite !Forall_forall.
  split; intros H d Hd; apply H; [apply -> in_rev | apply <- in_rev]; exact Hd.
Qed.

Lemma Digits_repeat0 (n : nat) : Digits (repeat 0 n).
Proof.
  unfold Digits. apply Forall_forall. intros d Hd.
  apply repeat_spec in Hd. subst d. pose proof BASE_pos. lia.
Qed.

Lemma val_app (xs ys : list Z) :
  val (xs ++ ys) = val xs + BASE ^ Z.of_nat (length xs) * val ys.
Proof.
  induction xs as [|x xs IH]; cbn [val app length].
  - change (Z.of_nat 0) with 0. rewrite Z.pow_0_r. lia.
  - rewrite IH, BASE_pow_succ. ring.
Qed.

Lemma val_repeat0 (n : nat) : val (repeat 0 n) = 0.
Proof. induction n as [|n IH]; cbn [repeat val]; [reflexivity | rewrite IH; reflexivity]. Qed.

Lemma val_bounds (ds : list Z) :
  Digits ds -> 0 <= val ds < BASE ^ Z.of_nat (length ds).
Proof.
  induction ds as [|d ds IH]; intros H.
  - cbn. lia.
  - apply Digits_cons in H. destruct H as [Hd Hds].
    specialize (IH Hds). cbn [val length]. rewrite BASE_pow_succ.
    pose proof BASE_pos. nia.
Qed.

Lemma val_snoc (ds : list Z) (d : Z) :
  val (ds ++ [d]) = val ds + BASE ^ Z.of_nat (length ds) * d.
Proof. rewrite val_app. cbn [val]. f_equal. ring. Qed.

(** A vector whose top digit is not zero denotes at least
    [BASE ^ (length - 1)]. *)
Lemma val_lower (ds : list Z) :
  Digits ds -> ds <> [] -> last ds 0 <> 0 ->
  BASE ^ (Z.of_nat (length ds) - 1) <= val ds.
Proof.
  intros HD Hne Hl.
  destruct (exists_last Hne) as (init & d & ->).
  rewrite last_last in Hl. apply Digits_app in HD. destruct HD as [Hi Hd].
  apply Digits_cons in Hd. destruct Hd as [Hd _].
  rewrite val_snoc, length_app. cbn [length].
  replace (Z.of_nat (length init + 1) - 1) with (Z.of_nat (length init)) by lia.
  pose proof (val_bounds init Hi). pose proof (BASE_pow_pos (length init)). nia.
Qed.

(** Two digit vectors of one length that denote the same number are
    equal. *)
Lemma val_inj (xs ys : list Z) :
  Digits xs -> Digits ys -> length xs = length ys -> val xs = val ys -> xs = ys.
Proof.
  revert ys. induction xs as [|x xs IH]; intros [|y ys] Hx Hy Hl Hv;
    try discriminate; [reflexivity|].
  apply Digits_cons in Hx. apply Digits_cons in Hy.
  destruct Hx as [Hx Hxs], Hy as [Hy Hys].
  cbn [val] in Hv. pose proof BASE_pos.
  assert (x = y /\ val xs = val ys) as [-> Hv'].
  { assert (x = (x + BASE * val xs) mod BASE) as E1.
    { rewrite (Z.mul_comm BASE), Z.mod_add by lia.
      symmetry. apply Z.mod_small. lia. }
    assert (y = (y + BASE * val ys) mod BASE) as E2.
    { rewrite (Z.mul_comm BASE), Z.mod_add by lia.
      symmetry. apply Z.mod_small. lia. }
    assert (x = y) by congruence. split; [assumption | nia]. }
  f_equal. apply IH; auto.
Qed.

(** ** [normalize] *)

Lemma pop_zeros_cons2 (d e : Z) (rest : list Z) :
  pop_zeros (d :: e :: rest) =
  if d =? 0 then pop_zeros (e :: rest) else d :: e :: rest.
Proof. reflexivity. Qed.

Lemma pop_zeros_val (msf : list Z) : val (rev (pop_zeros msf)) = val (rev msf).
Proof.
  induction msf as [|d [|e rest] IH]; try reflexivity.
  rewrite pop_zeros_cons2. destruct (d =? 0) eqn:Hd; [|reflexivity].
  apply Z.eqb_eq in Hd. subst d. rewrite IH.
  change (rev (0 :: e :: rest)) with (rev (e :: rest) ++ [0]).
  rewrite val_snoc. lia.
Qed.

Lemma pop_zeros_nonempty (msf : list Z) : msf <> [] -> pop_zeros msf <> [].
Proof.
  induction msf as [|d [|e rest] IH]; intros H; try assumption.
  rewrite pop_zeros_cons2. destruct (d =? 0); [apply IH|]; discriminate.
Qed.

Lemma pop_zeros_suffix (msf : list Z) :
  exists k, msf = repeat 0 k ++ pop_zeros msf.
Proof.
  induction msf as [|d [|e rest] IH]; try (exists 0%nat; reflexivity).
  rewrite pop_zeros_cons2. destruct (d =? 0) eqn:Hd; [|exists 0%nat; reflexivity].
  apply Z.eqb_eq in Hd. subst d. destruct IH as (k & Hk).
  exists (S k). cbn [repeat app]. f_equal. exact Hk.
Qed.

Lemma pop_zeros_Digits (msf : list Z) : Digits msf -> Digits (pop_zeros msf).
Proof.
  intros H. destruct (pop_zeros_suffix msf) as (k & Hk).
  rewrite Hk in H. apply Digits_app in H. tauto.
Qed.

Lemma pop_zeros_length (msf : list Z) :
  (length (pop_zeros msf) <= length msf)%nat.
Proof.
  destruct (pop_zeros_suffix msf) as (k & Hk).
  rewrite Hk at 2. rewrite length_app. lia.
Qed.

Lemma pop_zeros_head (msf : list Z) :
  hd 0 (pop_zeros msf) <> 0 \/ (length (pop_zeros msf) <= 1)%nat.
Proof.
  induction msf as [|d [|e rest] IH]; try (right; cbn; lia).
  rewrite pop_zeros_cons2. destruct (d =? 0) eqn:Hd; [exact IH|].
  left. cbn. apply Z.eqb_neq. exact Hd.
Qed.

Lemma pop_zeros_id (msf : list Z) :
  hd 0 msf <> 0 \/ (length msf <= 1)%nat -> pop_zeros msf = msf.
Proof.
  destruct msf as [|d [|e rest]]; intros H; try reflexivity.
  rewrite pop_zeros_cons2. destruct H as [H|H]; [|cbn in H; lia].
  cbn in H. apply Z.eqb_neq in H. rewrite H. reflexivity.
Qed.

Lemma last_rev_hd (l : list Z) : last (rev l) 0 = hd 0 l.
Proof.
  destruct l as [|x l]; [reflexivity|].
  cbn [rev hd]. apply last_last.
Qed.

Lemma hd_rev_last (l : list Z) : hd 0 (rev l) = last l 0.
Proof. rewrite <- (rev_involutive l) at 2. symmetry. apply last_rev_hd. Qed.

Lemma Inv_intro (ds : list Z) :
  ds <> [] -> Digits ds -> last ds 0 <> 0 \/ (length ds <= 1)%nat ->
  Inv (mkUInt ds).
Proof.
  intros Hne HD Hl. unfold Inv. cbn [digits]. repeat split; trivial.
  destruct Hl as [Hl|Hl]; [left; exact Hl|].
  destruct ds as [|d [|e ds]]; [congruence | | cbn in Hl; lia].
  destruct (Z.eq_dec d 0) as [->|Hd]; [right; reflexivity | left; exact Hd].
Qed.

Lemma Inv_nonempty (u : UInt) : Inv u -> digits u <> [].
Proof. intros H; apply H. Qed.

Lemma Inv_Digits (u : UInt) : Inv u -> Digits (digits u).
Proof. intros H; apply H. Qed.

Lemma Inv_top (u : UInt) : Inv u -> back u <> 0 \/ digits u = [0].
Proof. intros H; apply H. Qed.

Lemma Inv_size (u : UInt) : Inv u -> 1 <= size u.
Proof.
  intros H. apply Inv_nonempty in H. unfold size.
  destruct (digits u); [congruence | cbn [length]; lia].
Qed.

Lemma value_nonneg (u : UInt) : Inv u -> 0 <= value u.
Proof. intros H. apply (val_bounds (digits u)). apply H. Qed.

Lemma value_upper (u : UInt) : Inv u -> value u < BASE ^ size u.
Proof. intros H. apply (val_bounds (digits u)). apply H. Qed.

(** A normalised vector of [n] digits denotes a number in
    [[BASE^(n-1), BASE^n)], unless it is the single digit 0. *)
Lemma value_lower (u : UInt) :
  Inv u -> digits u <> [0] -> BASE ^ (size u - 1) <= value u.
Proof.
  intros H H0. apply val_lower; try apply H.
  destruct (Inv_top u H); [assumption | contradiction].
Qed.

Lemma value_zero (u : UInt) : Inv u -> (value u = 0 <-> digits u = [0]).
Proof.
  intros H. split.
  - intros Hv. destruct (list_eq_dec Z.eq_dec (digits u) [0]) as [E|E]; trivial.
    pose proof (value_lower u H E) as Hl.
    assert (0 < BASE ^ (size u - 1)).
    { apply Z.pow_pos_nonneg; [exact BASE_pos | pose proof (Inv_size u H); lia]. }
    lia.
  - unfold value. intros ->. reflexivity.
Qed.

(** The representation is canonical: a normalised vector is determined by
    the number it denotes. *)
Lemma Inv_value_inj (a b : UInt) : Inv a -> Inv b -> value a = value b -> a = b.
Proof.
  intros Ha Hb Hv.
  assert (forall u v, Inv u -> Inv v -> value u = value v -> size u <= size v) as Hle.
  { intros u v Hu Hv' E.
    destruct (list_eq_dec Z.eq_dec (digits u) [0]) as [E0|E0].
    - unfold size at 1. rewrite E0. cbn. apply Inv_size. exact Hv'.
    - pose proof (value_lower u Hu E0). pose proof (value_upper v Hv').
      destruct (Z_lt_le_dec (size v) (size u)) as [Hlt|]; [|assumption].
      assert (BASE ^ size v <= BASE ^ (size u - 1)).
      { apply Z.pow_le_mono_r; [exact BASE_pos | lia]. }
      lia. }
  assert (size a = size b) as Hs.
  { apply Z.le_antisymm; apply Hle; auto. }
  destruct a as [xs], b as [ys]. unfold value, size in *. cbn [digits] in *.
  f_equal. apply val_inj; try apply Ha; try apply Hb; trivial. lia.
Qed.

Lemma wf_Inv (u : UInt) : wf u = true <-> Inv u.
Proof.
  unfold wf, Inv. destruct u as [ds]. cbn [digits].
  destruct ds as [|d ds].
  - split; [discriminate | intros [H _]; congruence].
  - set (l := d :: ds). rewrite andb_true_iff, forallb_digit_ok, orb_true_iff.
    rewrite negb_true_iff, Z.eqb_neq, Nat.eqb_eq. unfold Digits.
    split.
    + intros [HD Hl]. split; [discriminate|]. split; [exact HD|].
      destruct Hl as [Hl|Hl]; [left; exact Hl|].
      subst l. destruct ds; [|discriminate].
      destruct (Z.eq_dec d 0) as [->|Hd]; [right; reflexivity | left; exact Hd].
    + intros (_ & HD & Hl). split; [exact HD|].
      destruct Hl as [Hl|Hl]; [left; exact Hl | right; rewrite Hl; reflexivity].
Qed.

(** [normalize] returns exactly when the digits left after trimming are in
    range; the result is normalised and denotes the same number. *)
Lemma normalize_Some (u v : UInt) :
  normalize u = Some v ->
  Inv v /\ value v = value u /\ size v <= size u.
Proof.
  unfold normalize. destruct (digits u) as [|d ds] eqn:E; [discriminate|].
  rewrite <- E. intros H. inv_bind H. injection H as <-.
  apply assert_Some in Hx. apply forallb_digit_ok in Hx.
  unfold value, size. cbn [digits]. split; [|split].
  - apply Inv_intro; trivial.
    + intros Hr. apply (f_equal (@rev Z)) in Hr. rewrite rev_involutive in Hr.
      cbn in Hr. revert Hr. apply pop_zeros_nonempty.
      rewrite E. cbn [rev]. intros Hr. apply app_eq_nil in Hr. destruct Hr; discriminate.
    + rewrite last_rev_hd, length_rev. apply pop_zeros_head.
  - rewrite pop_zeros_val, rev_involutive. reflexivity.
  - rewrite length_rev. pose proof (pop_zeros_length (rev (digits u))).
    rewrite length_rev in H. lia.
Qed.

Lemma normalize_ok (ds : list Z) :
  ds <> [] -> Digits ds ->
  exists u, normalize (mkUInt ds) = Some u /\ Inv u /\ value u = val ds.
Proof.
  intros Hne HD.
  assert (exists u, normalize (mkUInt ds) = Some u) as (u & Hu).
  { unfold normalize. cbn [digits]. destruct ds as [|d ds]; [congruence|].
    rewrite assert_true; [cbn; eauto|].
    apply forallb_digit_ok. apply Digits_rev. apply pop_zeros_Digits.
    apply Digits_rev. exact HD. }
  exists u. split; [exact Hu|]. apply normalize_Some in Hu. tauto.
Qed.

Lemma normalize_id (u : UInt) : Inv u -> normalize u = Some u.
Proof.
  intros H. destruct u as [ds].
  destruct (normalize_ok ds) as (v & Hv & Hi & Hval); try apply H.
  rewrite Hv. f_equal. apply Inv_value_inj; trivial.
Qed.

Lemma UInt_of_vec_Some (ds : list Z) (u : UInt) :
  UInt_of_vec ds = Some u -> Inv u /\ value u = val ds.
Proof. intros H. apply normalize_Some in H. tauto. Qed.

(** ** [UInt(int64_t)] *)

Lemma quot_BASE (n : Z) : 0 <= n -> Z.quot n BASE = n / BASE.
Proof. intros. apply Z.quot_div_nonneg; [assumption | exact BASE_pos]. Qed.

Lemma rem_BASE (n : Z) : 0 <= n -> Z.rem n BASE = n mod BASE.
Proof. intros. apply Z.rem_mod_nonneg; [assumption | exact BASE_pos]. Qed.

Lemma int_digits_S (fuel : nat) (n : Z) :
  int_digits (S fuel) n =
  Z.rem n BASE ::
  (if Z.quot n BASE >? 0 then int_digits fuel (Z.quot n BASE) else []).
Proof. reflexivity. Qed.

Lemma int_digits_spec (fuel : nat) :
  forall n, 0 <= n < 2 ^ Z.of_nat (S fuel) ->
  Digits (int_digits (S fuel) n) /\ val (int_digits (S fuel) n) = n /\
  (int_digits (S fuel) n <> []) /\
  (0 < n -> last (int_digits (S fuel) n) 0 <> 0).
Proof.
  induction fuel as [|fuel IH]; intros n Hn;
    rewrite int_digits_S, !quot_BASE, rem_BASE by lia;
    pose proof BASE_pos;
    pose proof (Z.mod_pos_bound n BASE ltac:(lia)) as Hm;
    pose proof (Z.div_mod n BASE ltac:(lia)) as Hdm;
    pose proof (Z.div_pos n BASE ltac:(lia) ltac:(lia)) as Hq0;
    destruct (n / BASE >? 0) eqn:Hq.
  - apply Z.gtb_lt in Hq. exfalso.
    change (2 ^ Z.of_nat 1) with 2 in Hn.
    rewrite Z.div_small in Hq; [lia | rewrite BASE_eq; lia].
  - assert (n / BASE = 0) as Hz.
    { destruct (Z.gtb_spec (n / BASE) 0); [discriminate | lia]. }
    repeat split.
    + apply Digits_cons. split; [lia | constructor].
    + cbn [val]. lia.
    + discriminate.
    + cbn [last]. lia.
  - apply Z.gtb_lt in Hq.
    assert (0 <= n / BASE < 2 ^ Z.of_nat (S fuel)) as Hn'.
    { clear Hm Hdm IH. split; [lia|].
      rewrite (Nat2Z.inj_succ (S fuel)), Z.pow_succ_r in Hn by lia.
      assert (0 < 2 ^ Z.of_nat (S fuel)) by (apply Z.pow_pos_nonneg; lia).
      apply Z.div_lt_upper_bound; [lia|]. rewrite BASE_eq. lia. }
    destruct (IH _ Hn') as (HD & Hv & Hne & Hl).
    repeat split.
    + apply Digits_cons. auto.
    + cbn [val]. rewrite Hv. lia.
    + discriminate.
    + intros _. destruct (int_digits (S fuel) (n / BASE)) eqn:E; [congruence|].
      cbn [last]. cbn [last] in Hl. apply Hl. lia.
  - assert (n / BASE = 0) as Hz.
    { destruct (Z.gtb_spec (n / BASE) 0); [discriminate | lia]. }
    repeat split.
    + apply Digits_cons. split; [lia | constructor].
    + cbn [val]. lia.
    + discriminate.
    + cbn [last]. lia.
Qed.

Lemma log2_fuel (n : Z) : 0 <= n -> n < 2 ^ Z.of_nat (S (Z.to_nat (Z.log2 n))).
Proof.
  intros Hn. rewrite Nat2Z.inj_succ, Z2Nat.id by apply Z.log2_nonneg.
  destruct (Z.eq_dec n 0) as [->|Hz]; [cbn; lia|].
  apply Z.log2_spec. lia.
Qed.

Lemma UInt_of_int_digits (n : Z) :
  0 <= n ->
  UInt_of_int n = Some (mkUInt (int_digits (S (Z.to_nat (Z.log2 n))) n)).
Proof.
  intros Hn. unfold UInt_of_int. rewrite assert_true by (apply Z.geb_le; lia).
  cbn [bind].
  destruct (int_digits_spec (Z.to_nat (Z.log2 n)) n) as (HD & Hv & Hne & Hl).
  { split; [assumption | apply log2_fuel; assumption]. }
  apply normalize_id. apply Inv_intro; trivial.
  destruct (Z.eq_dec n 0) as [->|Hz]; [right; cbn; lia | left; apply Hl; lia].
Qed.

Lemma UInt_of_int_ok (n : Z) :
  0 <= n -> exists u, UInt_of_int n = Some u /\ Inv u /\ value u = n.
Proof.
  intros Hn. rewrite UInt_of_int_digits by assumption.
  destruct (int_digits_spec (Z.to_nat (Z.log2 n)) n) as (HD & Hv & Hne & Hl).
  { split; [assumption | apply log2_fuel; assumption]. }
  eexists. split; [reflexivity|]. split; [|exact Hv].
  apply Inv_intro; trivial.
  destruct (Z.eq_dec n 0) as [->|Hz]; [right; cbn; lia | left; apply Hl; lia].
Qed.

Lemma UInt_of_int_Some (n : Z) (u : UInt) :
  UInt_of_int n = Some u -> 0 <= n /\ Inv u /\ value u = n.
Proof.
  intros H. assert (0 <= n) as Hn.
  { unfold UInt_of_int in H. inv_bind H. apply assert_Some in Hx.
    apply Z.geb_le in Hx. lia. }
  destruct (UInt_of_int_ok n Hn) as (v & Hv & Hi & Hval).
  rewrite H in Hv. injection Hv as <-. auto.
Qed.

Lemma UInt_of_int_small (n : Z) :
  0 <= n < BASE -> UInt_of_int n = Some (mkUInt [n]).
Proof.
  intros Hn. destruct (UInt_of_int_ok n) as (u & Hu & Hi & Hv); [lia|].
  rewrite Hu. f_equal. apply Inv_value_inj; trivial.
  - apply Inv_intro; [discriminate | | right; cbn; lia].
    apply Digits_cons. split; [assumption | constructor].
  - rewrite Hv. unfold value. cbn. lia.
Qed.

(** An escalated scalar [num >= BASE] converts to at least two digits. *)
Lemma UInt_of_int_large (n : Z) (u : UInt) :
  UInt_of_int n = Some u -> BASE <= n -> 2 <= size u /\ 1 <= back u.
Proof.
  intros H Hn. apply UInt_of_int_Some in H. destruct H as (_ & Hi & Hv).
  pose proof (value_upper u Hi) as Hu.
  pose proof (Inv_size u Hi) as Hs.
  split.
  - destruct (Z.eq_dec (size u) 1) as [E|E]; [|lia].
    rewrite E in Hu. rewrite Z.pow_1_r in Hu. lia.
  - destruct (Inv_top u Hi) as [Hb|Hb].
    + pose proof (Inv_Digits u Hi) as HD. unfold back in *.
      destruct (exists_last (Inv_nonempty u Hi)) as (init & d & E).
      rewrite E in *. rewrite last_last in *.
      apply Digits_app in HD. destruct HD as [_ HD].
      apply Digits_cons in HD. lia.
    + unfold value in Hv. rewrite Hb in Hv. cbn in Hv. pose proof BASE_pos. lia.
Qed.

(** ** Comparator *)

Lemma compare_msf_spec (xs : list Z) :
  forall ys, length xs = length ys -> Digits xs -> Digits ys ->
  compare_msf xs ys = sign_of (val (rev xs) ?= val (rev ys)).
Proof.
  induction xs as [|x xs IH]; intros [|y ys] Hl Hx Hy; try discriminate.
  - reflexivity.
  - apply Digits_cons in Hx. apply Digits_cons in Hy.
    destruct Hx as [Hx Hxs], Hy as [Hy Hys].
    injection Hl as Hl.
    cbn [compare_msf rev]. rewrite !val_snoc, !length_rev, <- Hl.
    pose proof (val_bounds (rev xs) (proj2 (Digits_rev xs) Hxs)) as Bx.
    pose proof (val_bounds (rev ys) (proj2 (Digits_rev ys) Hys)) as By.
    rewrite !length_rev, <- ?Hl in *.
    set (p := BASE ^ Z.of_nat (length xs)) in *.
    destruct (Z.gtb_spec x y) as [Hgt|Hle].
    + match goal with |- _ = sign_of ?c =>
        assert (c = Gt) as -> by (apply Z.compare_gt_iff; nia) end.
      reflexivity.
    + destruct (Z.ltb_spec x y) as [Hlt|Hge].
      * match goal with |- _ = sign_of ?c =>
          assert (c = Lt) as -> by (apply Z.compare_lt_iff; nia) end.
        reflexivity.
      * assert (x = y) by lia. subst y.
        rewrite (IH ys Hl Hxs Hys). f_equal.
        destruct (Z.compare_spec (val (rev xs)) (val (rev ys)));
          symmetry; [apply Z.compare_eq_iff | apply Z.compare_lt_iff
                    | apply Z.compare_gt_iff]; nia.
Qed.

Lemma size_lt_value_lt (a b : UInt) :
  Inv a -> Inv b -> size a < size b -> value a < value b.
Proof.
  intros Ha Hb Hs.
  pose proof (value_upper a Ha). pose proof (Inv_size a Ha).
  assert (digits b <> [0]) as Hb0.
  { intros E. unfold size in Hs at 2. rewrite E in Hs. cbn in Hs. lia. }
  pose proof (value_lower b Hb Hb0).
  assert (BASE ^ size a <= BASE ^ (size b - 1)).
  { apply Z.pow_le_mono_r; [exact BASE_pos | lia]. }
  lia.
Qed.

(** The three-way comparison is the sign of the numeric comparison. *)
Lemma compare_value (a b : UInt) :
  Inv a -> Inv b -> compare a b = sign_of (value a ?= value b).
Proof.
  intros Ha Hb. unfold compare.
  destruct (Z.gtb_spec (size a) (size b)) as [Hgt|Hle].
  - pose proof (size_lt_value_lt b a Hb Ha Hgt).
    assert ((value a ?= value b) = Gt) as -> by (apply Z.compare_gt_iff; lia).
    reflexivity.
  - destruct (Z.ltb_spec (size a) (size b)) as [Hlt|Hge].
    + pose proof (size_lt_value_lt a b Ha Hb Hlt).
      assert ((value a ?= value b) = Lt) as -> by (apply Z.compare_lt_iff; lia).
      reflexivity.
    + rewrite compare_msf_spec.
      * rewrite !rev_involutive. reflexivity.
      * rewrite !length_rev. unfold size in *. lia.
      * apply Digits_rev, Inv_Digits, Ha.
      * apply Digits_rev, Inv_Digits, Hb.
Qed.

Lemma sign_of_lt (x y : Z) : sign_of (x ?= y) < 0 <-> x < y.
Proof. destruct (Z.compare_spec x y); cbn; lia. Qed.

Lemma sign_of_gt (x y : Z) : sign_of (x ?= y) > 0 <-> x > y.
Proof. destruct (Z.compare_spec x y); cbn; lia. Qed.

Lemma sign_of_eq (x y : Z) : sign_of (x ?= y) = 0 <-> x = y.
Proof. destruct (Z.compare_spec x y); cbn; lia. Qed.

Lemma op_lt_value (a b : UInt) :
  Inv a -> Inv b -> op_lt a b = (value a <? value b).
Proof.
  intros Ha Hb. unfold op_lt. rewrite compare_value by assumption.
  destruct (Z.compare_spec (value a) (value b)); cbn;
    symmetry; [apply Z.ltb_ge | apply Z.ltb_lt | apply Z.ltb_ge]; lia.
Qed.

Lemma op_ne_value (a b : UInt) :
  Inv a -> Inv b -> op_ne a b = negb (value a =? value b).
Proof.
  intros Ha Hb. unfold op_ne. rewrite compare_value by assumption.
  destruct (Z.compare_spec (value a) (value b));
    destruct (Z.eqb_spec (value a) (value b)); cbn; try reflexivity; lia.
Qed.

Lemma Inv_UInt0 : Inv UInt0.
Proof. apply wf_Inv. reflexivity. Qed.

(** ** Additive operators *)

Lemma quot_rem_BASE (r : Z) :
  0 <= r ->
  0 <= r - Z.quot r BASE * BASE < BASE /\ 0 <= Z.quot r BASE /\
  r = (r - Z.quot r BASE * BASE) + BASE * Z.quot r BASE.
Proof.
  intros Hr. rewrite quot_BASE by assumption. pose proof BASE_pos.
  pose proof (Z.div_mod r BASE ltac:(lia)).
  pose proof (Z.mod_pos_bound r BASE ltac:(lia)).
  pose proof (Z.div_pos r BASE ltac:(lia) ltac:(lia)). lia.
Qed.

Lemma plus_int_loop_eq (ds : list Z) (rem : Z) :
  plus_int_loop ds rem =
  if rem >? 0 then
    match ds with
    | [] => if rem + 0 >=? BASE then [rem + 0 - BASE; 1] else [rem + 0]
    | d :: t =>
        if rem + d >=? BASE then (rem + d - BASE) :: plus_int_loop t 1
        else (rem + d) :: plus_int_loop t 0
    end
  else ds.
Proof. destruct ds; reflexivity. Qed.

Lemma plus_int_loop_spec (ds : list Z) :
  forall rem, Digits ds -> 0 <= rem < BASE ->
  Digits (plus_int_loop ds rem) /\
  val (plus_int_loop ds rem) = val ds + rem /\
  (length ds <= length (plus_int_loop ds rem))%nat.
Proof.
  pose proof BASE_eq as HB.
  induction ds as [|d t IH]; intros rem HD Hr; rewrite plus_int_loop_eq.
  - destruct (Z.gtb_spec rem 0).
    + destruct (Z.geb_spec (rem + 0) BASE); [lia|].
      repeat split; [|cbn [val]; lia | cbn; lia].
      apply Digits_cons. split; [lia | constructor].
    + repeat split; [constructor | cbn; lia | lia].
  - apply Digits_cons in HD. destruct HD as [Hd Ht].
    destruct (Z.gtb_spec rem 0); [|repeat split;
      [apply Digits_cons; auto | lia | lia]].
    destruct (Z.geb_spec (rem + d) BASE).
    + destruct (IH 1 Ht ltac:(lia)) as (H1 & H2 & H3).
      repeat split; [apply Digits_cons; split; [lia | assumption] | |cbn [length]; lia].
      cbn [val]. rewrite H2. lia.
    + destruct (IH 0 Ht ltac:(lia)) as (H1 & H2 & H3).
      repeat split; [apply Digits_cons; split; [lia | assumption] | |cbn [length]; lia].
      cbn [val]. rewrite H2. lia.
Qed.

Lemma carry_digits_spec (fuel : nat) :
  forall rem, 0 <= rem < 2 ^ Z.of_nat fuel ->
  Digits (carry_digits fuel rem) /\ val (carry_digits fuel rem) = rem.
Proof.
  induction fuel as [|fuel IH]; intros rem Hr.
  - cbn in Hr. assert (rem = 0) by lia. subst. split; [constructor | reflexivity].
  - cbn [carry_digits]. destruct (Z.gtb_spec rem 0) as [Hpos|Hz].
    + destruct (quot_rem_BASE rem ltac:(lia)) as (H1 & H2 & H3).
      assert (0 <= Z.quot rem BASE < 2 ^ Z.of_nat fuel) as Hq.
      { split; [assumption|]. rewrite quot_BASE by lia.
        rewrite Nat2Z.inj_succ, Z.pow_succ_r in Hr by lia.
        assert (0 < 2 ^ Z.of_nat fuel) by (apply Z.pow_pos_nonneg; lia).
        apply Z.div_lt_upper_bound; [exact BASE_pos|]. rewrite BASE_eq. lia. }
      destruct (IH _ Hq) as (HD & Hv).
      split; [apply Digits_cons; auto|]. cbn [val]. rewrite Hv. lia.
    + assert (rem = 0) by lia. subst. split; [constructor | reflexivity].
Qed.

Lemma plus_tail_spec (ys : list Z) :
  forall rem, Digits ys -> 0 <= rem ->
  Digits (plus_tail ys rem) /\ val (plus_tail ys rem) = val ys + rem.
Proof.
  induction ys as [|y ys IH]; intros rem HD Hr.
  - cbn [plus_tail val]. apply carry_digits_spec.
    split; [assumption | apply log2_fuel; assumption].
  - apply Digits_cons in HD. destruct HD as [Hy Hys].
    cbn [plus_tail].
    destruct (quot_rem_BASE (rem + (0 + y)) ltac:(lia)) as (H1 & H2 & H3).
    destruct (IH _ Hys H2) as (HD & Hv).
    split; [apply Digits_cons; auto|]. cbn [val]. rewrite Hv. lia.
Qed.

Lemma plus_loop_spec (xs : list Z) :
  forall ys rem, Digits xs -> Digits ys -> 0 <= rem ->
  Digits (plus_loop xs ys rem) /\
  val (plus_loop xs ys rem) = val xs + val ys + rem /\
  (length xs <= length (plus_loop xs ys rem))%nat.
Proof.
  induction xs as [|x xs IH]; intros ys rem Hx Hy Hr.
  - cbn [plus_loop val length].
    destruct (plus_tail_spec ys rem Hy Hr) as (H1 & H2).
    repeat split; [assumption | lia | lia].
  - apply Digits_cons in Hx. destruct Hx as [Hx Hxs].
    cbn [plus_loop].
    assert (0 <= hd 0 ys < BASE /\ Digits (tl ys) /\
            val ys = hd 0 ys + BASE * val (tl ys)) as (Hh & Ht & Hv).
    { destruct ys as [|y ys]; cbn [hd tl val].
      - pose proof BASE_pos. split; [lia|]. split; [constructor | lia].
      - apply Digits_cons in Hy. tauto. }
    destruct (quot_rem_BASE (rem + (x + hd 0 ys)) ltac:(lia)) as (H1 & H2 & H3).
    destruct (IH (tl ys) _ Hxs Ht H2) as (HD & Hval & Hlen).
    repeat split; [apply Digits_cons; auto | | cbn [length]; lia].
    cbn [val]. rewrite Hval, Hv. lia.
Qed.

Lemma plus_long_ok (a b : UInt) :
  Inv a -> Inv b ->
  exists r, plus_long a b = Some r /\ Inv r /\ value r = value a + value b.
Proof.
  intros Ha Hb. unfold plus_long.
  destruct (plus_loop_spec (digits a) (digits b) 0) as (HD & Hv & Hl);
    [apply Ha | apply Hb | lia |].
  destruct (normalize_ok (plus_loop (digits a) (digits b) 0)) as (r & Hr & Hi & Hval).
  - intros E. rewrite E in Hl. apply Inv_nonempty in Ha.
    destruct (digits a); [congruence | cbn in Hl; lia].
  - exact HD.
  - exists r. split; [exact Hr|]. split; [exact Hi|].
    rewrite Hval, Hv. unfold value. lia.
Qed.

Lemma plus_assign_int_ok (a : UInt) (num : Z) :
  Inv a -> 0 <= num ->
  exists r, plus_assign_int a num = Some r /\ Inv r /\ value r = value a + num.
Proof.
  intros Ha Hn. unfold plus_assign_int.
  rewrite assert_true by (apply Z.geb_le; lia). cbn [bind].
  destruct (Z.geb_spec num BASE) as [Hge|Hlt].
  - destruct (UInt_of_int_ok num Hn) as (o & Ho & Hoi & Hov).
    rewrite Ho. cbn [bind].
    destruct (plus_long_ok a o Ha Hoi) as (r & Hr & Hi & Hv).
    exists r. split; [exact Hr|]. split; [exact Hi | lia].
  - destruct (plus_int_loop_spec (digits a) num) as (HD & Hv & Hl);
      [apply Ha | lia |].
    destruct (normalize_ok (plus_int_loop (digits a) num)) as (r & Hr & Hi & Hval).
    + intros E. rewrite E in Hl. apply Inv_nonempty in Ha.
      destruct (digits a); [congruence | cbn in Hl; lia].
    + exact HD.
    + exists r. split; [exact Hr|]. split; [exact Hi|].
      rewrite Hval, Hv. reflexivity.
Qed.

(** A normalised vector of one digit. *)
Lemma size_one (b : UInt) :
  Inv b -> size b = 1 ->
  digits b = [nth 0 (digits b) 0] /\ 0 <= nth 0 (digits b) 0 < BASE /\
  value b = nth 0 (digits b) 0.
Proof.
  intros Hb Hs. unfold size, value in *. pose proof (Inv_Digits b Hb) as HD.
  destruct (digits b) as [|d [|e t]]; cbn [length] in Hs; try lia.
  apply Digits_cons in HD. cbn [nth val]. repeat split; try tauto; lia.
Qed.

Lemma plus_assign_ok (a b : UInt) :
  Inv a -> Inv b ->
  exists r, plus_assign a b = Some r /\ Inv r /\ value r = value a + value b.
Proof.
  intros Ha Hb. unfold plus_assign.
  destruct (Z.eqb_spec (size b) 1) as [Hs|Hs].
  - destruct (size_one b Hb Hs) as (_ & Hd & Hv). rewrite Hv.
    apply plus_assign_int_ok; [assumption | lia].
  - apply plus_long_ok; assumption.
Qed.

(** The escalation of [operator+=(int64_t)], as the source writes it:
    [return *this += UInt(num)]. *)
Lemma plus_assign_int_escalates (a : UInt) (num : Z) :
  BASE <= num ->
  plus_assign_int a num = do o <- UInt_of_int num; plus_assign a o.
Proof.
  intros Hn. unfold plus_assign_int.
  rewrite assert_true by (apply Z.geb_le; pose proof BASE_pos; lia). cbn [bind].
  destruct (Z.geb_spec num BASE); [|lia].
  destruct (UInt_of_int num) as [o|] eqn:Ho; [|reflexivity]. cbn [bind].
  destruct (UInt_of_int_large num o Ho Hn) as [Hs _].
  unfold plus_assign. destruct (Z.eqb_spec (size o) 1); [lia | reflexivity].
Qed.

(** ** Subtraction *)

Lemma minus_int_loop_spec (ds : list Z) :
  forall rem, Digits ds -> - BASE < rem <= 0 ->
  let '(res, r) := minus_int_loop ds rem in
  Digits res /\ length res = length ds /\ r <= 0 /\
  val res + r * BASE ^ Z.of_nat (length ds) = val ds + rem.
Proof.
  pose proof BASE_eq as HB.
  induction ds as [|d t IH]; intros rem HD Hr.
  - cbn. repeat split; [constructor | lia | lia].
  - apply Digits_cons in HD. destruct HD as [Hd Ht].
    cbn [minus_int_loop]. destruct (Z.ltb_spec rem 0) as [Hneg|Hz].
    + destruct (Z.ltb_spec (rem + d) 0) as [Hb|Hnb].
      * specialize (IH (-1) Ht ltac:(lia)).
        destruct (minus_int_loop t (-1)) as [t' r].
        destruct IH as (H1 & H2 & H3 & H4).
        repeat split; [apply Digits_cons; split; [lia | assumption]
                      | cbn [length]; lia | lia |].
        cbn [val length]. rewrite BASE_pow_succ. lia.
      * repeat split; [apply Digits_cons; split; [lia | assumption]
                      | lia |]. cbn [val]. lia.
    + repeat split; [apply Digits_cons; auto | lia |]. lia.
Qed.

Lemma minus_loop_spec (xs : list Z) :
  forall ys rem, Digits xs -> Digits ys -> -1 <= rem <= 0 ->
  let '(res, r) := minus_loop xs ys rem in
  Digits res /\ length res = length xs /\ r <= 0 /\
  val res + r * BASE ^ Z.of_nat (length xs) =
  val xs - val (firstn (length xs) ys) + rem.
Proof.
  pose proof BASE_eq as HB.
  induction xs as [|x xs IH]; intros ys rem Hx Hy Hr.
  - cbn. repeat split; [constructor | lia | lia].
  - apply Digits_cons in Hx. destruct Hx as [Hx Hxs].
    cbn [minus_loop].
    assert (0 <= hd 0 ys < BASE /\ Digits (tl ys) /\
            val (firstn (length (x :: xs)) ys) =
            hd 0 ys + BASE * val (firstn (length xs) (tl ys))) as (Hh & Ht & Hv).
    { destruct ys as [|y ys]; cbn [hd tl val firstn length].
      - split; [lia|]. split; [constructor|]. rewrite firstn_nil. cbn. lia.
      - apply Digits_cons in Hy. tauto. }
    rewrite Hv. destruct (Z.ltb_spec (rem + (x - hd 0 ys)) 0) as [Hb|Hnb].
    + specialize (IH (tl ys) (-1) Hxs Ht ltac:(lia)).
      destruct (minus_loop xs (tl ys) (-1)) as [t' r].
      destruct IH as (H1 & H2 & H3 & H4).
      repeat split; [apply Digits_cons; split; [lia | assumption]
                    | cbn [length]; lia | lia |].
      cbn [val length]. rewrite BASE_pow_succ. lia.
    + destruct ys as [|y ys].
      * cbn [hd tl] in *. rewrite firstn_nil. cbn [val].
        repeat split; [apply Digits_cons; split; [lia | assumption] | lia |].
        cbn [val]. lia.
      * cbn [hd tl] in *.
        specialize (IH ys 0 Hxs Ht ltac:(lia)).
        destruct (minus_loop xs ys 0) as [t' r].
        destruct IH as (H1 & H2 & H3 & H4).
        repeat split; [apply Digits_cons; split; [lia | assumption]
                      | cbn [length]; lia | lia |].
        cbn [val length]. rewrite BASE_pow_succ. lia.
Qed.

Lemma borrow_clear (res r len d : Z) :
  0 <= res < BASE ^ len -> r <= 0 -> 0 <= d -> res + r * BASE ^ len = d ->
  r = 0.
Proof. intros. nia. Qed.

Lemma minus_long_ok (a b : UInt) :
  Inv a -> Inv b -> value b <= value a ->
  exists r, minus_long a b = Some r /\ Inv r /\ value r = value a - value b.
Proof.
  intros Ha Hb Hle. unfold minus_long.
  assert (size b <= size a) as Hs.
  { destruct (Z_lt_le_dec (size a) (size b)) as [Hlt|]; [|assumption].
    pose proof (size_lt_value_lt a b Ha Hb Hlt). lia. }
  rewrite assert_true by (apply Z.geb_le; lia). cbn [bind].
  pose proof (minus_loop_spec (digits a) (digits b) 0
                (Inv_Digits a Ha) (Inv_Digits b Hb) ltac:(lia)) as H.
  destruct (minus_loop (digits a) (digits b) 0) as [ds rem].
  destruct H as (HD & Hl & Hr & Hv).
  rewrite firstn_all2 in Hv by (unfold size in Hs; lia).
  assert (rem = 0) as ->.
  { eapply borrow_clear; [| exact Hr | | exact Hv].
    - rewrite <- Hl. apply val_bounds. exact HD.
    - unfold value in Hle. lia. }
  rewrite assert_true by reflexivity. cbn [bind].
  destruct (normalize_ok ds) as (r & Hn & Hi & Hval).
  - intros E. rewrite E in Hl. apply Inv_nonempty in Ha.
    destruct (digits a); [congruence | discriminate].
  - exact HD.
  - exists r. split; [exact Hn|]. split; [exact Hi|].
    rewrite Hval. unfold value. lia.
Qed.

Lemma minus_assign_int_ok (a : UInt) (num : Z) :
  Inv a -> 0 <= num <= value a ->
  exists r, minus_assign_int a num = Some r /\ Inv r /\ value r = value a - num.
Proof.
  intros Ha Hn. unfold minus_assign_int.
  rewrite assert_true by (apply Z.geb_le; lia). cbn [bind].
  destruct (Z.geb_spec num BASE) as [Hge|Hlt].
  - destruct (UInt_of_int_ok num ltac:(lia)) as (o & Ho & Hoi & Hov).
    rewrite Ho. cbn [bind].
    destruct (minus_long_ok a o Ha Hoi ltac:(lia)) as (r & Hr & Hi & Hv).
    exists r. split; [exact Hr|]. split; [exact Hi | lia].
  - pose proof (minus_int_loop_spec (digits a) (- num)
                  (Inv_Digits a Ha) ltac:(lia)) as H.
    destruct (minus_int_loop (digits a) (- num)) as [ds rem].
    destruct H as (HD & Hl & Hr & Hv).
    assert (rem = 0) as ->.
    { eapply borrow_clear; [| exact Hr | | exact Hv].
      - rewrite <- Hl. apply val_bounds. exact HD.
      - unfold value in Hn. lia. }
    rewrite assert_true by reflexivity. cbn [bind].
    destruct (normalize_ok ds) as (r & Hnr & Hi & Hval).
    + intros E. rewrite E in Hl. apply Inv_nonempty in Ha.
      destruct (digits a); [congruence | discriminate].
    + exact HD.
    + exists r. split; [exact Hnr|]. split; [exact Hi|].
      rewrite Hval. unfold value. lia.
Qed.

Lemma minus_assign_ok (a b : UInt) :
  Inv a -> Inv b -> value b <= value a ->
  exists r, minus_assign a b = Some r /\ Inv r /\ value r = value a - value b.
Proof.
  intros Ha Hb Hle. unfold minus_assign.
  destruct (Z.eqb_spec (size b) 1) as [Hs|Hs].
  - destruct (size_one b Hb Hs) as (_ & Hd & Hv). rewrite Hv in *.
    apply minus_assign_int_ok; [assumption | lia].
  - apply minus_long_ok; assumption.
Qed.

(** The escalation of [operator-=(int64_t)], as the source writes it:
    [return *this -= UInt(num)]. *)
Lemma minus_assign_int_escalates (a : UInt) (num : Z) :
  BASE <= num ->
  minus_assign_int a num = do o <- UInt_of_int num; minus_assign a o.
Proof.
  intros Hn. unfold minus_assign_int.
  rewrite assert_true by (apply Z.geb_le; pose proof BASE_pos; lia). cbn [bind].
  destruct (Z.geb_spec num BASE); [|lia].
  destruct (UInt_of_int num) as [o|] eqn:Ho; [|reflexivity]. cbn [bind].
  destruct (UInt_of_int_large num o Ho Hn) as [Hs _].
  unfold minus_assign. destruct (Z.eqb_spec (size o) 1); [lia | reflexivity].
Qed.

(** ** Schoolbook multiplication *)

Lemma times_int_loop_spec (ds : list Z) (num : Z) :
  forall rem, Digits ds -> 0 <= num < BASE -> 0 <= rem < BASE ->
  Digits (times_int_loop ds num rem) /\
  val (times_int_loop ds num rem) = val ds * num + rem /\
  (length ds <= length (times_int_loop ds num rem))%nat.
Proof.
  pose proof BASE_eq as HB.
  induction ds as [|d t IH]; intros rem HD Hn Hr.
  - cbn [times_int_loop]. destruct (Z.gtb_spec rem 0).
    + repeat split; [apply Digits_cons; split; [lia | constructor]
                    | cbn; lia | cbn; lia].
    + repeat split; [constructor | cbn; lia | lia].
  - apply Digits_cons in HD. destruct HD as [Hd Ht].
    cbn [times_int_loop].
    assert (0 <= rem + 1 * d * num < BASE * BASE) as Hp by nia.
    destruct (quot_rem_BASE (rem + 1 * d * num) ltac:(lia)) as (H1 & H2 & H3).
    assert (Z.quot (rem + 1 * d * num) BASE < BASE) as Hq.
    { rewrite quot_BASE by lia. apply Z.div_lt_upper_bound; lia. }
    destruct (IH _ Ht Hn (conj H2 Hq)) as (HD' & Hv & Hl).
    repeat split; [apply Digits_cons; auto | | cbn [length]; lia].
    cbn [val]. rewrite Hv. lia.
Qed.

(** One row of the schoolbook product: the cells under [ys] take the
    partial sums and the cell above them the carry. *)
Lemma mult_row_spec (xi : Z) (ys : list Z) :
  forall lo t zs rem,
  0 <= xi < BASE -> Digits ys -> Digits lo -> length lo = length ys ->
  0 <= rem < BASE ->
  exists lo' c,
    mult_row xi ys (lo ++ t :: zs) rem = Some (lo' ++ (t + c) :: zs) /\
    Digits lo' /\ length lo' = length ys /\ 0 <= c < BASE /\
    val lo' + BASE ^ Z.of_nat (length ys) * c = val lo + xi * val ys + rem.
Proof.
  pose proof BASE_eq as HB.
  induction ys as [|y ys IH]; intros lo t zs rem Hxi Hy Hlo Hl Hr.
  - destruct lo; [|discriminate]. cbn [app mult_row].
    exists [], rem. destruct (Z.gtb_spec rem 0).
    + split; [reflexivity|]. split; [constructor|].
      split; [reflexivity|]. split; [lia|].
      change (BASE ^ Z.of_nat (length (@nil Z))) with 1. cbn [val]. lia.
    + assert (rem = 0) as -> by lia. rewrite Z.add_0_r.
      split; [reflexivity|]. split; [constructor|].
      split; [reflexivity|]. split; [lia|].
      change (BASE ^ Z.of_nat (length (@nil Z))) with 1. cbn [val]. lia.
  - destruct lo as [|l lo]; [discriminate|]. injection Hl as Hl.
    apply Digits_cons in Hy. apply Digits_cons in Hlo.
    destruct Hy as [Hy Hys], Hlo as [Hl0 Hlo].
    cbn [app mult_row].
    assert (0 <= rem + (l + 1 * xi * y) < BASE * BASE) as Hp by nia.
    destruct (quot_rem_BASE (rem + (l + 1 * xi * y)) ltac:(lia)) as (H1 & H2 & H3).
    assert (Z.quot (rem + (l + 1 * xi * y)) BASE < BASE) as Hq.
    { rewrite quot_BASE by lia. apply Z.div_lt_upper_bound; lia. }
    destruct (IH lo t zs _ Hxi Hys Hlo Hl (conj H2 Hq))
      as (lo' & c & Hrow & HD & Hlen & Hc & Hv).
    rewrite Hrow. cbn [bind].
    eexists (_ :: lo'), c. split; [reflexivity|].
    split; [apply Digits_cons; auto|].
    split; [cbn [length]; lia|]. split; [lia|].
    cbn [val length]. rewrite BASE_pow_succ. nia.
Qed.

Lemma slow_loop_spec (xs : list Z) (ys : list Z) :
  forall lo,
  Digits xs -> Digits ys -> Digits lo -> length lo = length ys ->
  exists res,
    slow_loop xs ys (lo ++ repeat 0 (length xs)) = Some res /\
    Digits res /\ length res = (length lo + length xs)%nat /\
    val res = val lo + val xs * val ys.
Proof.
  induction xs as [|x xs IH]; intros lo Hx Hy Hlo Hl.
  - cbn [slow_loop repeat length]. rewrite app_nil_r.
    exists lo. split; [reflexivity|]. split; [assumption|].
    split; [lia | cbn; lia].
  - apply Digits_cons in Hx. destruct Hx as [Hx Hxs].
    cbn [slow_loop repeat length].
    destruct (mult_row_spec x ys lo 0 (repeat 0 (length xs)) 0 Hx Hy Hlo Hl)
      as (lo' & c & Hrow & HD & Hlen & Hc & Hv).
    { pose proof BASE_pos. lia. }
    rewrite Hrow. cbn [bind]. rewrite Z.add_0_l.
    assert (exists t0 lo1, lo' ++ [c] = t0 :: lo1 /\ length lo1 = length ys)
      as (t0 & lo1 & E & Hl1).
    { destruct lo' as [|t0 lo1]; cbn [app].
      - exists c, []. cbn in Hlen. split; [reflexivity | cbn; lia].
      - exists t0, (lo1 ++ [c]). split; [reflexivity|].
        rewrite length_app. cbn [length] in *. lia. }
    replace (lo' ++ c :: repeat 0 (length xs))
      with (t0 :: lo1 ++ repeat 0 (length xs)).
    2:{ change (lo' ++ c :: repeat 0 (length xs))
          with (lo' ++ [c] ++ repeat 0 (length xs)).
        rewrite app_assoc, E. reflexivity. }
    assert (Digits (t0 :: lo1)) as HD1.
    { rewrite <- E. apply Digits_app. split; [assumption|].
      apply Digits_cons. split; [assumption | constructor]. }
    apply Digits_cons in HD1. destruct HD1 as [Ht0 HD1].
    destruct (IH lo1 Hxs Hy HD1 Hl1) as (res & Hres & HDr & Hlr & Hvr).
    rewrite Hres. cbn [bind]. exists (t0 :: res).
    split; [reflexivity|]. split; [apply Digits_cons; auto|].
    split; [cbn [length]; lia|].
    cbn [val]. rewrite Hvr.
    assert (val (lo' ++ [c]) = t0 + BASE * val lo1) as E2.
    { rewrite E. reflexivity. }
    rewrite val_snoc, Hlen in E2. lia.
Qed.

Lemma slow_loop_ok (xs ys : list Z) :
  Digits xs -> Digits ys ->
  exists res,
    slow_loop xs ys (repeat 0 (length xs + length ys)) = Some res /\
    Digits res /\ length res = (length xs + length ys)%nat /\
    val res = val xs * val ys.
Proof.
  intros Hx Hy.
  destruct (slow_loop_spec xs ys (repeat 0 (length ys)) Hx Hy)
    as (res & Hres & HD & Hl & Hv).
  - apply Digits_repeat0.
  - apply repeat_length.
  - rewrite <- repeat_app, Nat.add_comm in Hres.
    exists res. rewrite repeat_length in Hl. rewrite val_repeat0 in Hv.
    split; [assumption|]. split; [assumption|]. split; lia.
Qed.

Lemma slow_long_ok (a b : UInt) :
  Inv a -> Inv b ->
  exists r, slow_long a b = Some r /\ Inv r /\ value r = value a * value b.
Proof.
  intros Ha Hb. unfold slow_long.
  destruct (slow_loop_ok (digits a) (digits b) (Inv_Digits a Ha) (Inv_Digits b Hb))
    as (res & Hres & HD & Hl & Hv).
  rewrite Hres. cbn [bind]. unfold UInt_of_vec.
  destruct (normalize_ok res) as (r & Hn & Hi & Hval).
  - intros E. rewrite E in Hl. apply Inv_nonempty in Ha.
    destruct (digits a); [congruence | discriminate].
  - exact HD.
  - exists r. split; [exact Hn|]. split; [exact Hi|]. rewrite Hval. exact Hv.
Qed.

(** ** The multiplication selector *)

Lemma double_until_spec (fuel : nat) :
  forall pow temp k,
  pow = 2 ^ k -> 0 <= k -> temp <= pow * 2 ^ Z.of_nat fuel ->
  exists k', k <= k' /\ double_until fuel pow temp = 2 ^ k' /\
             temp <= 2 ^ k' /\ (k < k' -> 2 ^ (k' - 1) < temp).
Proof.
  induction fuel as [|fuel IH]; intros pow temp k Hp Hk Ht.
  - cbn [double_until]. exists k. change (2 ^ Z.of_nat 0) with 1 in Ht.
    repeat split; [lia | assumption | lia | lia].
  - cbn [double_until]. destruct (Z.ltb_spec pow temp) as [Hlt|Hge].
    + destruct (IH (pow * 2) temp (k + 1)) as (k' & Hk' & E & Hle & Hmin).
      * rewrite Z.pow_add_r by lia. subst pow. reflexivity.
      * lia.
      * rewrite Nat2Z.inj_succ, Z.pow_succ_r in Ht by lia. lia.
      * exists k'. repeat split; [lia | assumption | assumption |].
        intros _. destruct (Z.eq_dec k' (k + 1)) as [->|Hne].
        -- replace (k + 1 - 1) with k by lia. lia.
        -- apply Hmin. lia.
    + exists k. repeat split; [lia | assumption | lia | lia].
Qed.

(** The padded transform length is twice the smallest power of two that
    holds three times the larger digit count. *)
Lemma padded_length_spec (len1 len2 : Z) :
  1 <= len1 -> 1 <= len2 ->
  exists k, 2 <= k /\ padded_length len1 len2 = 2 * 2 ^ k /\
            3 * Z.max len1 len2 <= 2 ^ k /\ 2 ^ (k - 1) < 3 * Z.max len1 len2.
Proof.
  intros H1 H2. unfold padded_length.
  set (temp := 3 * Z.max len1 len2).
  assert (3 <= temp) as Ht by (unfold temp; lia).
  destruct (double_until_spec (S (Z.to_nat (Z.log2 temp))) 1 temp 0)
    as (k & Hk & E & Hle & Hmin); [reflexivity | lia | |].
  - rewrite Z.mul_1_l. apply Z.lt_le_incl, log2_fuel. lia.
  - assert (0 < k) as Hk0.
    { destruct (Z.eq_dec k 0) as [->|]; [rewrite Z.pow_0_r in Hle; lia | lia]. }
    assert (2 <= k).
    { destruct (Z.eq_dec k 1) as [->|]; [rewrite Z.pow_1_r in Hle; lia | lia]. }
    exists k. rewrite E. repeat split; [lia | lia | assumption | auto].
Qed.

Section MultiplierCorrect.
Context {rt : FloatRuntime}.

Lemma fft_exact_spectral_ok (k : Z) : fft_exact -> spectral_ok k.
Proof. intros H a b Ha Hb Hs _. apply H; [assumption | assumption | lia]. Qed.

(** With a sane cost estimate the selector takes schoolbook whenever one
    operand has at most 15 digits. *)
Lemma use_fast_small (a b : UInt) :
  cost_sane -> 1 <= size a -> 1 <= size b ->
  size a <= 15 \/ size b <= 15 -> use_fast a b = false.
Proof.
  intros Hc Ha Hb Hs. unfold use_fast.
  destruct (padded_length_spec (size a) (size b) Ha Hb) as (k & Hk & E & Hle & _).
  assert (0 < 2 ^ k) by (apply Z.pow_pos_nonneg; lia).
  pose proof (Hc (padded_length (size a) (size b)) ltac:(lia)) as Hcost.
  assert (size a * size b <= 15 * Z.max (size a) (size b)) as Hop.
  { destruct Hs; [apply Z.le_trans with (15 * size b) | apply Z.le_trans with (15 * size a)]; nia. }
  cbv zeta.
  match goal with |- (?x >=? ?y) = false =>
    destruct (Z.geb_spec x y) as [Hge|]; [|reflexivity] end.
  exfalso. lia.
Qed.

Lemma cost_sane_spectral_ok : cost_sane -> spectral_ok 15.
Proof.
  intros Hc a b Ha Hb Hs Hf.
  rewrite use_fast_small in Hf; try discriminate; trivial.
  - apply Inv_size. exact Ha.
  - lia.
  - right. lia.
Qed.

Lemma spectral_ok_mono (k k' : Z) : k' <= k -> spectral_ok k -> spectral_ok k'.
Proof. intros Hk H a b Ha Hb Hs. apply H; trivial. lia. Qed.

Lemma fast_long_ok (a b : UInt) :
  fast_ok a b ->
  exists r, fast_long a b = Some r /\ Inv r /\ value r = value a * value b.
Proof.
  intros (res & Hres & Hne & HD & Hv). unfold fast_long.
  rewrite Hres. cbn [bind]. unfold UInt_of_vec.
  destruct (normalize_ok res Hne HD) as (r & Hn & Hi & Hval).
  exists r. split; [exact Hn|]. split; [exact Hi|]. rewrite Hval. exact Hv.
Qed.

Lemma mult_long_ok (k : Z) (a b : UInt) :
  spectral_ok k -> Inv a -> Inv b -> 2 <= size b <= k ->
  exists r, mult_long a b = Some r /\ Inv r /\ value r = value a * value b.
Proof.
  intros Hk Ha Hb Hs. unfold mult_long.
  destruct (use_fast a b) eqn:Hf.
  - apply fast_long_ok. apply (Hk a b); assumption.
  - apply slow_long_ok; assumption.
Qed.

Lemma size_le_of_value (u : UInt) (k : Z) :
  Inv u -> 1 <= k -> value u < BASE ^ k -> size u <= k.
Proof.
  intros Hu Hk Hv.
  destruct (list_eq_dec Z.eq_dec (digits u) [0]) as [E|E].
  - unfold size. rewrite E. cbn. lia.
  - pose proof (value_lower u Hu E).
    destruct (Z_lt_le_dec k (size u)) as [Hlt|]; [|assumption].
    assert (BASE ^ k <= BASE ^ (size u - 1)).
    { apply Z.pow_le_mono_r; [exact BASE_pos | lia]. }
    lia.
Qed.

Lemma times_assign_int_short (a : UInt) (num : Z) :
  Inv a -> 0 <= num < BASE ->
  exists r, times_assign_int a num = Some r /\ Inv r /\
            value r = value a * num.
Proof.
  intros Ha Hn. unfold times_assign_int.
  rewrite assert_true by (apply Z.geb_le; lia). cbn [bind].
  destruct (Z.geb_spec num BASE) as [Hge|Hlt]; [lia|].
  destruct (times_int_loop_spec (digits a) num 0) as (HD & Hv & Hl);
    [apply Ha | lia | pose proof BASE_pos; lia |].
  destruct (normalize_ok (times_int_loop (digits a) num 0)) as (r & Hr & Hi & Hval).
  - intros E. rewrite E in Hl. apply Inv_nonempty in Ha.
    destruct (digits a); [congruence | cbn in Hl; lia].
  - exact HD.
  - exists r. split; [exact Hr|]. split; [exact Hi|].
    rewrite Hval, Hv. unfold value. lia.
Qed.

Lemma times_assign_int_ok (k : Z) (a : UInt) (num : Z) :
  spectral_ok k -> Inv a -> 2 <= k -> 0 <= num < BASE ^ k ->
  exists r, times_assign_int a num = Some r /\ Inv r /\
            value r = value a * num.
Proof.
  intros Hk Ha Hk2 Hn.
  destruct (Z_lt_le_dec num BASE) as [Hlt|Hge].
  - apply times_assign_int_short; [assumption | lia].
  - unfold times_assign_int.
    rewrite assert_true by (apply Z.geb_le; lia). cbn [bind].
    destruct (Z.geb_spec num BASE) as [_|]; [|lia].
    destruct (UInt_of_int_ok num ltac:(lia)) as (o & Ho & Hoi & Hov).
    rewrite Ho. cbn [bind].
    destruct (UInt_of_int_large num o Ho Hge) as [Hs _].
    destruct (mult_long_ok k a o Hk Ha Hoi) as (r & Hr & Hi & Hv).
    + split; [assumption|]. apply size_le_of_value; [assumption | lia | lia].
    + exists r. split; [exact Hr|]. split; [exact Hi | lia].
Qed.

Lemma mult_ok (k : Z) (a b : UInt) :
  spectral_ok k -> Inv a -> Inv b -> size b <= k ->
  exists r, mult a b = Some r /\ Inv r /\ value r = value a * value b.
Proof.
  intros Hk Ha Hb Hs.
  assert (exists r, op_times_int a (nth 0 (digits b) 0) = Some r /\ Inv r /\
                    value r = value a * value b \/ size b <> 1) as Hshort.
  { destruct (Z.eq_dec (size b) 1) as [E|E].
    - destruct (size_one b Hb E) as (_ & Hd & Hv). rewrite Hv.
      destruct (times_assign_int_short a _ Ha Hd) as (r & H).
      exists r. left. exact H.
    - exists a. right. exact E. }
  pose proof (Inv_size b Hb) as Hs1.
  unfold mult, fast_mult, slow_mult.
  destruct (Z.eqb_spec (size b) 1) as [E|E].
  - destruct Hshort as (r & [H|H]); [|contradiction].
    exists r. destruct (use_fast a b); exact H.
  - destruct (mult_long_ok k a b Hk Ha Hb ltac:(lia)) as (r & H).
    exists r. unfold mult_long in H. exact H.
Qed.

Lemma mult_long_eq (a b : UInt) : size b <> 1 -> mult a b = mult_long a b.
Proof.
  intros Hs. unfold mult, mult_long, fast_mult, slow_mult.
  destruct (Z.eqb_spec (size b) 1); [contradiction | reflexivity].
Qed.

(** On a single-digit [other] both multipliers take the same shortcut, so
    [mult] is the scalar product whichever the selector picks. *)
Lemma mult_single (a b : UInt) :
  size b = 1 -> mult a b = op_times_int a (nth 0 (digits b) 0).
Proof.
  intros Hs. unfold mult, fast_mult, slow_mult.
  rewrite Hs. cbn [Z.eqb Pos.eqb]. destruct (use_fast a b); reflexivity.
Qed.

(** The escalation of [operator*=(int64_t)], as the source writes it:
    [return *this *= UInt(num)]. *)
Lemma times_assign_int_escalates (a : UInt) (num : Z) :
  BASE <= num ->
  times_assign_int a num = do o <- UInt_of_int num; times_assign a o.
Proof.
  intros Hn. unfold times_assign_int.
  rewrite assert_true by (apply Z.geb_le; pose proof BASE_pos; lia). cbn [bind].
  destruct (Z.geb_spec num BASE); [|lia].
  destruct (UInt_of_int num) as [o|] eqn:Ho; [|reflexivity]. cbn [bind].
  destruct (UInt_of_int_large num o Ho Hn) as [Hs _].
  unfold times_assign, op_times. rewrite mult_long_eq by lia. reflexivity.
Qed.
End MultiplierCorrect.

(** ** Division by a scalar *)

Lemma val_rev_cons (d : Z) (t : list Z) :
  val (rev (d :: t)) = val (rev t) + BASE ^ Z.of_nat (length t) * d.
Proof. cbn [rev]. rewrite val_snoc, length_rev. reflexivity. Qed.

Lemma div_int_loop_spec (msf : list Z) (num : Z) :
  forall rem, Digits msf -> 0 < num < BASE -> 0 <= rem < num ->
  Digits (div_int_loop msf num rem) /\
  length (div_int_loop msf num rem) = length msf /\
  exists r, 0 <= r < num /\
    val (rev (div_int_loop msf num rem)) * num + r =
    rem * BASE ^ Z.of_nat (length msf) + val (rev msf).
Proof.
  pose proof BASE_eq as HB.
  induction msf as [|d t IH]; intros rem HD Hn Hr.
  - cbn. split; [constructor|]. split; [reflexivity|]. exists rem. lia.
  - apply Digits_cons in HD. destruct HD as [Hd Ht].
    cbn [div_int_loop].
    set (rem' := rem * BASE + d).
    assert (0 <= rem' < num * BASE) as Hr' by (unfold rem'; nia).
    assert (Z.quot rem' num = rem' / num) as Eq
      by (apply Z.quot_div_nonneg; lia).
    rewrite Eq.
    pose proof (Z.div_mod rem' num ltac:(lia)) as Hdm.
    pose proof (Z.mod_pos_bound rem' num ltac:(lia)) as Hmb.
    assert (0 <= rem' / num < BASE) as Hq.
    { split; [apply Z.div_pos; lia | apply Z.div_lt_upper_bound; lia]. }
    destruct (IH (rem' - rem' / num * num) Ht Hn ltac:(lia))
      as (HD' & Hl & r & Hrr & Hv).
    split; [apply Digits_cons; auto|]. split; [cbn [length]; lia|].
    exists r. split; [assumption|].
    rewrite !val_rev_cons, Hl. cbn [length]. rewrite BASE_pow_succ.
    unfold rem' in *. nia.
Qed.

Lemma mod_int_loop_spec (msf : list Z) (num : Z) :
  forall rem, Digits msf -> 0 < num <= 9223372036 -> 0 <= rem < num ->
  mod_int_loop msf num rem =
  Some ((rem * BASE ^ Z.of_nat (length msf) + val (rev msf)) mod num).
Proof.
  pose proof BASE_eq as HB.
  induction msf as [|d t IH]; intros rem HD Hn Hr.
  - cbn. rewrite Z.mul_1_r, Z.add_0_r, Z.mod_small by lia. reflexivity.
  - apply Digits_cons in HD. destruct HD as [Hd Ht].
    cbn [mod_int_loop].
    rewrite !assert_true.
    2,3: unfold in_int64, INT64_MIN, INT64_MAX;
         apply andb_true_iff; split; apply Z.leb_le; nia.
    cbn [bind].
    rewrite Z.rem_mod_nonneg by nia.
    rewrite IH; [|assumption | assumption | apply Z.mod_pos_bound; lia].
    f_equal. rewrite val_rev_cons. cbn [length]. rewrite BASE_pow_succ.
    set (p := BASE ^ Z.of_nat (length t)).
    replace (rem * (BASE * p) + (val (rev t) + p * d))
      with ((rem * BASE + d) * p + val (rev t)) by ring.
    rewrite (Z.add_mod ((rem * BASE + d) mod num * p)) by lia.
    rewrite (Z.add_mod ((rem * BASE + d) * p)) by lia.
    rewrite Z.mul_mod_idemp_l by lia. reflexivity.
Qed.

Lemma op_mod_int_ok (a : UInt) (num : Z) :
  Inv a -> 0 < num <= 9223372036 -> op_mod_int a num = Some (value a mod num).
Proof.
  intros Ha Hn. unfold op_mod_int.
  rewrite assert_true by (apply Z.gtb_lt; lia). cbn [bind].
  rewrite mod_int_loop_spec; [| apply Digits_rev, Inv_Digits, Ha | lia | lia].
  rewrite rev_involutive, Z.mul_0_l, Z.add_0_l. reflexivity.
Qed.

Section ScalarDivision.
Variable dm : UInt -> UInt -> option (UInt * UInt).

(** The short path of [operator/=(int64_t)] does not depend on the
    [div_mod] an escalation would call. *)
Lemma div_assign_int_short (a : UInt) (num : Z) :
  Inv a -> 0 < num < BASE ->
  exists q, div_assign_int_with dm a num = Some q /\ Inv q /\
            value q = value a / num.
Proof.
  intros Ha Hn. unfold div_assign_int_with.
  rewrite assert_true by (apply Z.gtb_lt; lia). cbn [bind].
  destruct (Z.geb_spec num BASE) as [|_]; [lia|].
  destruct (div_int_loop_spec (rev (digits a)) num 0)
    as (HD & Hl & r & Hr & Hv);
    [apply Digits_rev, Inv_Digits, Ha | lia | lia |].
  rewrite rev_involutive, Z.mul_0_l, Z.add_0_l in Hv.
  destruct (normalize_ok (rev (div_int_loop (rev (digits a)) num 0)))
    as (q & Hq & Hi & Hval).
  - intros E. apply (f_equal (@length Z)) in E.
    rewrite !length_rev, Hl, length_rev in E. apply Inv_nonempty in Ha.
    destruct (digits a); [congruence | discriminate].
  - apply Digits_rev. exact HD.
  - exists q. split; [exact Hq|]. split; [exact Hi|].
    rewrite Hval. apply Z.div_unique with r; [lia|].
    unfold value. lia.
Qed.
End ScalarDivision.

(** ** The integer frame of the spectral multiplication *)

Lemma SubDigits_cons (d : Z) (l : list Z) :
  SubDigits (d :: l) <-> 0 <= d < 1000 /\ SubDigits l.
Proof.
  unfold SubDigits. split; [intros H; inversion H; auto | intros []; constructor; auto].
Qed.

Lemma SubDigits_app (xs ys : list Z) :
  SubDigits (xs ++ ys) <-> SubDigits xs /\ SubDigits ys.
Proof. unfold SubDigits. apply Forall_app. Qed.

Lemma pow1000_succ (n : nat) : 1000 ^ Z.of_nat (S n) = 1000 * 1000 ^ Z.of_nat n.
Proof. rewrite Nat2Z.inj_succ, Z.pow_succ_r by lia. reflexivity. Qed.

Lemma val1000_app (xs ys : list Z) :
  val1000 (xs ++ ys) = val1000 xs + 1000 ^ Z.of_nat (length xs) * val1000 ys.
Proof.
  induction xs as [|x xs IH]; cbn [val1000 app length].
  - change (Z.of_nat 0) with 0. rewrite Z.pow_0_r. lia.
  - rewrite IH, pow1000_succ. ring.
Qed.

Lemma val1000_bounds (l : list Z) :
  SubDigits l -> 0 <= val1000 l < 1000 ^ Z.of_nat (length l).
Proof.
  induction l as [|d l IH]; intros H.
  - cbn. lia.
  - apply SubDigits_cons in H. destruct H as [Hd Hl]. specialize (IH Hl).
    cbn [val1000 length]. rewrite pow1000_succ. lia.
Qed.

Lemma val1000_repeat0 (n : nat) : val1000 (repeat 0 n) = 0.
Proof. induction n as [|n IH]; cbn [repeat val1000]; [reflexivity | rewrite IH; reflexivity]. Qed.

Lemma BASE_cube : BASE = 1000 * 1000 * 1000.
Proof. reflexivity. Qed.

(** The digit split keeps the number. *)
Lemma prepare_spec (ds : list Z) :
  Digits ds ->
  SubDigits (prepare (mkUInt ds)) /\
  length (prepare (mkUInt ds)) = (3 * length ds)%nat /\
  val1000 (prepare (mkUInt ds)) = val ds.
Proof.
  unfold prepare. cbn [digits].
  induction ds as [|d ds IH]; intros HD.
  - cbn. repeat split. constructor.
  - apply Digits_cons in HD. destruct HD as [Hd Hds].
    destruct (IH Hds) as (H1 & H2 & H3). rewrite BASE_eq in Hd.
    cbn [flat_map app].
    assert (Z.quot d 1000 = d / 1000) as E1 by (apply Z.quot_div_nonneg; lia).
    assert (Z.quot d 1000000 = d / 1000000) as E2 by (apply Z.quot_div_nonneg; lia).
    assert (0 <= d / 1000) as Hq by (apply Z.div_pos; lia).
    assert (Z.rem d 1000 = d mod 1000) as E3 by (apply Z.rem_mod_nonneg; lia).
    assert (Z.rem (d / 1000) 1000 = (d / 1000) mod 1000) as E4
      by (apply Z.rem_mod_nonneg; lia).
    rewrite E1, E2, E3, E4.
    pose proof (Z.mod_pos_bound d 1000 ltac:(lia)).
    pose proof (Z.mod_pos_bound (d / 1000) 1000 ltac:(lia)).
    pose proof (Z.div_mod d 1000 ltac:(lia)).
    pose proof (Z.div_mod (d / 1000) 1000 ltac:(lia)).
    assert (d / 1000000 = d / 1000 / 1000) as E5.
    { rewrite Z.div_div by lia. reflexivity. }
    assert (0 <= d / 1000000 < 1000).
    { split; [apply Z.div_pos; lia | apply Z.div_lt_upper_bound; lia]. }
    split; [|split].
    + repeat (apply SubDigits_cons; split; [lia|]). exact H1.
    + cbn [length]. lia.
    + cbn [val1000 val]. rewrite H3, BASE_eq. lia.
Qed.

Lemma transform_length_spec (sa sb : Z) :
  1 <= sa -> 1 <= sb ->
  2 <= transform_length sa sb /\ sa + sb <= transform_length sa sb.
Proof.
  intros Ha Hb. unfold transform_length. cbv zeta.
  set (m := Z.max sa sb).
  destruct (double_until_spec (S (Z.to_nat (Z.log2 m))) 1 m 0)
    as (k & Hk & E & Hle & _); [reflexivity | lia | |].
  - rewrite Z.mul_1_l. apply Z.lt_le_incl, log2_fuel. lia.
  - rewrite E. assert (1 <= 2 ^ k) by (unfold m in Hle; lia).
    unfold m in Hle. lia.
Qed.

Lemma carry_tail_spec (fuel : nat) :
  forall carry, 0 <= carry < 2 ^ Z.of_nat fuel ->
  exists out, carry_tail fuel carry = Some out /\ SubDigits out /\
              val1000 out = carry.
Proof.
  induction fuel as [|fuel IH]; intros carry Hc.
  - change (2 ^ Z.of_nat 0) with 1 in Hc. assert (carry = 0) by lia. subst.
    exists []. repeat split. constructor.
  - cbn [carry_tail]. destruct (Z.gtb_spec carry 0) as [Hpos|Hz].
    + rewrite Z.add_0_l.
      assert (Z.quot carry 1000 = carry / 1000) as E
        by (apply Z.quot_div_nonneg; lia).
      rewrite E.
      pose proof (Z.div_mod carry 1000 ltac:(lia)) as Hdm.
      pose proof (Z.mod_pos_bound carry 1000 ltac:(lia)) as Hmb.
      rewrite assert_true by (apply Z.geb_le; lia). cbn [bind].
      destruct (IH (carry / 1000)) as (out & Eo & HD & Hv).
      { split; [apply Z.div_pos; lia|].
        rewrite Nat2Z.inj_succ, Z.pow_succ_r in Hc by lia.
        assert (0 < 2 ^ Z.of_nat fuel) by (apply Z.pow_pos_nonneg; lia).
        apply Z.div_lt_upper_bound; lia. }
      rewrite Eo. cbn [bind]. eexists. split; [reflexivity|].
      split; [apply SubDigits_cons; split; [lia | exact HD]|].
      cbn [val1000]. rewrite Hv. lia.
    + assert (carry = 0) by lia. subst. exists []. repeat split. constructor.
Qed.

(** The carry loop normalises non-negative coefficients to sub-digits and
    keeps the number. *)
Lemma carry_loop_spec (temp : list Z) :
  forall carry, Forall (fun c => 0 <= c) temp -> 0 <= carry ->
  exists out, carry_loop temp carry = Some out /\ SubDigits out /\
              val1000 out = val1000 temp + carry /\
              (length temp <= length out)%nat.
Proof.
  induction temp as [|t rest IH]; intros carry Hnn Hc.
  - cbn [carry_loop val1000 length].
    destruct (carry_tail_spec (S (Z.to_nat (Z.log2 carry))) carry)
      as (out & Eo & HD & Hv).
    { split; [assumption | apply log2_fuel; assumption]. }
    exists out. split; [exact Eo|]. split; [exact HD|]. split; lia.
  - inversion Hnn as [|? ? Ht Hrest]; subst.
    cbn [carry_loop].
    assert (Z.quot (t + carry) 1000 = (t + carry) / 1000) as E
      by (apply Z.quot_div_nonneg; lia).
    rewrite E.
    pose proof (Z.div_mod (t + carry) 1000 ltac:(lia)) as Hdm.
    pose proof (Z.mod_pos_bound (t + carry) 1000 ltac:(lia)) as Hmb.
    rewrite assert_true by (apply Z.geb_le; lia). cbn [bind].
    destruct (IH ((t + carry) / 1000) Hrest) as (out & Eo & HD & Hv & Hl).
    { apply Z.div_pos; lia. }
    rewrite Eo. cbn [bind]. eexists. split; [reflexivity|].
    split; [apply SubDigits_cons; split; [lia | exact HD]|].
    split; [|cbn [length]; lia].
    cbn [val1000]. rewrite Hv. lia.
Qed.

(** Sub-digits past the place [n] are zero when the number is below
    [1000^n]. *)
Lemma val1000_firstn (n : nat) (l : list Z) :
  SubDigits l -> val1000 l < 1000 ^ Z.of_nat n ->
  val1000 (firstn n l) = val1000 l.
Proof.
  intros HD Hv. rewrite <- (firstn_skipn n l) in HD, Hv.
  apply SubDigits_app in HD. destruct HD as [H1 H2].
  rewrite val1000_app in Hv.
  pose proof (val1000_bounds _ H1) as B1. pose proof (val1000_bounds _ H2) as B2.
  destruct (Nat.le_gt_cases n (length l)) as [Hle|Hgt].
  - rewrite firstn_length_le in Hv by assumption.
    assert (0 < 1000 ^ Z.of_nat n) by (apply Z.pow_pos_nonneg; lia).
    assert (val1000 (skipn n l) = 0) as Hz by nia.
    rewrite <- (firstn_skipn n l) at 2. rewrite val1000_app, Hz. lia.
  - rewrite firstn_all2 by lia. reflexivity.
Qed.

Lemma regroup_spec (k : nat) :
  forall l, (length l <= k)%nat -> SubDigits l ->
  Digits (regroup l) /\ val (regroup l) = val1000 l /\
  (l <> [] -> regroup l <> []).
Proof.
  pose proof BASE_eq as HB.
  induction k as [k IH] using lt_wf_ind. intros l Hl HD.
  destruct l as [|c [|b [|a rest]]].
  - cbn. repeat split; [constructor | congruence].
  - apply SubDigits_cons in HD. destruct HD as [Hc _].
    cbn [regroup val val1000]. repeat split; [|lia | discriminate].
    apply Digits_cons. split; [lia | constructor].
  - apply SubDigits_cons in HD. destruct HD as [Hc HD].
    apply SubDigits_cons in HD. destruct HD as [Hb _].
    cbn [regroup val val1000]. repeat split; [|lia | discriminate].
    apply Digits_cons. split; [lia | constructor].
  - apply SubDigits_cons in HD. destruct HD as [Hc HD].
    apply SubDigits_cons in HD. destruct HD as [Hb HD].
    apply SubDigits_cons in HD. destruct HD as [Ha HD].
    cbn [length] in Hl.
    destruct (IH (length rest) ltac:(lia) rest (Nat.le_refl _) HD) as (H1 & H2 & _).
    change (regroup (c :: b :: a :: rest))
      with ((c + 1000 * (b + 1000 * a)) :: regroup rest).
    repeat split; [|cbn [val val1000]; rewrite H2; lia | discriminate].
    apply Digits_cons. split; [lia | exact H1].
Qed.

Section SpectralFrame.
Context {rt : FloatRuntime}.
Hypothesis Hexact : transform_exact.

(** With an exact transform the padding, the carries and the regrouping
    of [fast_mult] deliver the digits of the product. *)
Lemma spectral_digits_exact (a b : UInt) : Inv a -> Inv b -> fast_ok a b.
Proof.
  intros Ha Hb. unfold fast_ok, spectral_digits. cbv zeta.
  destruct a as [xs], b as [ys]. unfold value. cbn [digits].
  pose proof (Inv_Digits _ Ha) as Hxs. pose proof (Inv_Digits _ Hb) as Hys.
  pose proof (Inv_size _ Ha) as Hsa. pose proof (Inv_size _ Hb) as Hsb.
  unfold size in Hsa, Hsb. cbn [digits] in *.
  destruct (prepare_spec xs Hxs) as (Hfa & Hla & Hva).
  destruct (prepare_spec ys Hys) as (Hfb & Hlb & Hvb).
  set (fa := prepare (mkUInt xs)) in *. set (fb := prepare (mkUInt ys)) in *.
  set (n := transform_length (Z.of_nat (length fa)) (Z.of_nat (length fb))).
  destruct (transform_length_spec (Z.of_nat (length fa)) (Z.of_nat (length fb)))
    as [Hn2 Hn]; [lia | lia |]. fold n in Hn2, Hn.
  destruct (Hexact fa fb n Hfa Hfb) as (Hlt & Hnn & Hvt); [lia|].
  set (temp := spectral_round (resize n fa) (resize n fb)) in *.
  destruct (carry_loop_spec temp 0 Hnn ltac:(lia)) as (out & Eo & HDo & Hvo & Hlo).
  rewrite Eo. cbn [bind].
  assert (val1000 out < 1000 ^ Z.of_nat (Z.to_nat n)) as Hsmall.
  { rewrite Hvo, Hvt, Z.add_0_r.
    pose proof (val1000_bounds fa Hfa) as Ba.
    pose proof (val1000_bounds fb Hfb) as Bb.
    assert (1000 ^ Z.of_nat (length fa) * 1000 ^ Z.of_nat (length fb)
            <= 1000 ^ Z.of_nat (Z.to_nat n)).
    { rewrite <- Z.pow_add_r by lia. apply Z.pow_le_mono_r; lia. }
    nia. }
  pose proof (val1000_firstn (Z.to_nat n) out HDo Hsmall) as Hfirst.
  assert (SubDigits (firstn (Z.to_nat n) out)) as HDf.
  { rewrite <- (firstn_skipn (Z.to_nat n) out) in HDo.
    apply SubDigits_app in HDo. tauto. }
  destruct (regroup_spec _ (firstn (Z.to_nat n) out) (Nat.le_refl _) HDf)
    as (HDr & Hvr & Hne).
  eexists. split; [reflexivity|]. split; [|split; [exact HDr|]].
  - apply Hne. intros E. apply (f_equal (@length Z)) in E.
    rewrite length_firstn in E. cbn [length] in E. lia.
  - rewrite Hvr, Hfirst, Hvo, Hvt, Hva, Hvb. lia.
Qed.

Lemma transform_exact_fft_exact : fft_exact.
Proof. intros a b Ha Hb _. apply spectral_digits_exact; assumption. Qed.

(** With an exact transform the two multipliers agree on all normalised
    operands. *)
Lemma fast_mult_slow_mult (a b : UInt) :
  Inv a -> Inv b -> fast_mult a b = slow_mult a b.
Proof.
  intros Ha Hb. unfold fast_mult, slow_mult.
  destruct (size b =? 1); [reflexivity|].
  destruct (fast_long_ok a b (spectral_digits_exact a b Ha Hb))
    as (r & Er & Hir & Hvr).
  destruct (slow_long_ok a b Ha Hb) as (r' & Er' & Hir' & Hvr').
  rewrite Er, Er'. f_equal. apply Inv_value_inj; trivial. lia.
Qed.
End SpectralFrame.

(** ** The exact runtime meets the assumptions *)

Lemma digits1000_spec (n : nat) :
  forall v, 0 <= v < 1000 ^ Z.of_nat n ->
  length (digits1000 n v) = n /\ SubDigits (digits1000 n v) /\
  val1000 (digits1000 n v) = v.
Proof.
  induction n as [|n IH]; intros v Hv.
  - change (1000 ^ Z.of_nat 0) with 1 in Hv. assert (v = 0) by lia. subst.
    repeat split. constructor.
  - cbn [digits1000].
    pose proof (Z.div_mod v 1000 ltac:(lia)) as Hdm.
    pose proof (Z.mod_pos_bound v 1000 ltac:(lia)) as Hmb.
    destruct (IH (v / 1000)) as (H1 & H2 & H3).
    { split; [apply Z.div_pos; lia|]. rewrite pow1000_succ in Hv.
      apply Z.div_lt_upper_bound; lia. }
    split; [cbn [length]; lia|].
    split; [apply SubDigits_cons; split; [lia | exact H2]|].
    cbn [val1000]. rewrite H3. lia.
Qed.

Lemma resize_spec (n : Z) (l : list Z) :
  Z.of_nat (length l) <= n ->
  length (resize n l) = Z.to_nat n /\ val1000 (resize n l) = val1000 l.
Proof.
  intros Hl. unfold resize. rewrite firstn_all2 by lia. split.
  - rewrite length_app, repeat_length. lia.
  - rewrite val1000_app, val1000_repeat0. lia.
Qed.

Lemma exact_runtime_transform_exact : transform_exact (rt := exact_runtime).
Proof.
  intros fa fb n Hfa Hfb Hn. cbn [spectral_round exact_runtime].
  rewrite Nat2Z.inj_add in Hn.
  destruct (resize_spec n fa ltac:(lia)) as [La Va].
  destruct (resize_spec n fb ltac:(lia)) as [Lb Vb].
  rewrite La, Va, Vb.
  pose proof (val1000_bounds fa Hfa) as Ba.
  pose proof (val1000_bounds fb Hfb) as Bb.
  destruct (digits1000_spec (Z.to_nat n) (val1000 fa * val1000 fb))
    as (H1 & H2 & H3).
  { split; [nia|].
    assert (1000 ^ Z.of_nat (length fa) * 1000 ^ Z.of_nat (length fb)
            <= 1000 ^ Z.of_nat (Z.to_nat n)).
    { rewrite <- Z.pow_add_r by lia. apply Z.pow_le_mono_r; lia. }
    nia. }
  split; [exact H1|]. split; [|exact H3].
  unfold SubDigits in H2. eapply Forall_impl; [|exact H2].
  cbn beta. intros c Hc. lia.
Qed.

Lemma exact_runtime_cost_sane : cost_sane (rt := exact_runtime).
Proof.
  intros pow Hp. cbn [spectral_cost exact_runtime].
  assert (1 <= Z.log2 pow).
  { change 1 with (Z.log2 2). apply Z.log2_le_mono. lia. }
  nia.
Qed.

(** ** Long division *)

Lemma val_split (k : nat) (ds : list Z) :
  val ds = val (firstn k ds) + BASE ^ Z.of_nat k * val (skipn k ds).
Proof.
  rewrite <- (firstn_skipn k ds) at 1. rewrite val_app.
  destruct (Nat.le_gt_cases k (length ds)) as [Hle|Hgt].
  - rewrite firstn_length_le by assumption. reflexivity.
  - rewrite skipn_all2 by lia. cbn [val]. lia.
Qed.

Lemma val_skipn_nth (k : nat) :
  forall ds, val (skipn k ds) = nth k ds 0 + BASE * val (skipn (S k) ds).
Proof.
  induction k as [|k IH]; intros [|d ds].
  - cbn. lia.
  - reflexivity.
  - cbn [skipn nth val]. lia.
  - change (skipn (S k) (d :: ds)) with (skipn k ds).
    change (skipn (S (S k)) (d :: ds)) with (skipn (S k) ds).
    change (nth (S k) (d :: ds) 0) with (nth k ds 0). apply IH.
Qed.

Lemma nth_Digits (k : nat) (ds : list Z) : Digits ds -> 0 <= nth k ds 0 < BASE.
Proof.
  intros HD. destruct (Nat.lt_ge_cases k (length ds)) as [Hlt|Hge].
  - unfold Digits in HD. rewrite Forall_forall in HD. apply HD.
    apply nth_In. exact Hlt.
  - rewrite nth_overflow by assumption. pose proof BASE_pos. lia.
Qed.

Lemma Digits_firstn (k : nat) (ds : list Z) : Digits ds -> Digits (firstn k ds).
Proof.
  intros HD. rewrite <- (firstn_skipn k ds) in HD.
  apply Digits_app in HD. tauto.
Qed.

Lemma Digits_skipn (k : nat) (ds : list Z) : Digits ds -> Digits (skipn k ds).
Proof.
  intros HD. rewrite <- (firstn_skipn k ds) in HD.
  apply Digits_app in HD. tauto.
Qed.

(** [size <= k ? 0 : digits[k]] is the digit of weight [BASE^k]. *)
Lemma guarded_nth (u : UInt) (k : Z) :
  0 <= k ->
  (if size u <=? k then 0 else nth (Z.to_nat k) (digits u) 0) =
  nth (Z.to_nat k) (digits u) 0.
Proof.
  intros Hk. destruct (Z.leb_spec (size u) k) as [Hle|]; [|reflexivity].
  symmetry. apply nth_overflow. unfold size in Hle. lia.
Qed.

(** The two leading digits of a partial remainder below [BASE^(n+1)]. *)
Lemma leading_digits (ds : list Z) (n : Z) :
  Digits ds -> 1 <= n -> val ds < BASE ^ (n + 1) ->
  exists low,
    0 <= low < BASE ^ (n - 1) /\
    val ds = low + BASE ^ (n - 1) *
             (nth (Z.to_nat (n - 1)) ds 0 + BASE * nth (Z.to_nat n) ds 0).
Proof.
  intros HD Hn Hv.
  exists (val (firstn (Z.to_nat (n - 1)) ds)).
  pose proof (val_bounds _ (Digits_firstn (Z.to_nat (n - 1)) ds HD)) as Hlow.
  assert (0 <= val (firstn (Z.to_nat (n - 1)) ds) < BASE ^ (n - 1)) as Hlow'.
  { split; [lia|]. destruct Hlow as [_ Hlow].
    eapply Z.lt_le_trans; [exact Hlow|].
    apply Z.pow_le_mono_r; [exact BASE_pos|].
    rewrite length_firstn. lia. }
  split; [exact Hlow'|].
  rewrite (val_split (Z.to_nat (n - 1)) ds) at 1.
  rewrite Z2Nat.id by lia. f_equal. f_equal.
  rewrite val_skipn_nth. f_equal.
  replace (S (Z.to_nat (n - 1))) with (Z.to_nat n) by lia.
  rewrite val_skipn_nth.
  pose proof (val_bounds _ (Digits_skipn (S (Z.to_nat n)) ds HD)) as [Hhi _].
  assert (val (skipn (S (Z.to_nat n)) ds) = 0) as ->; [|lia].
  destruct (Z.eq_dec (val (skipn (S (Z.to_nat n)) ds)) 0) as [|Hne]; trivial.
  exfalso.
  rewrite (val_split (S (Z.to_nat n)) ds) in Hv.
  pose proof (val_bounds _ (Digits_firstn (S (Z.to_nat n)) ds HD)) as [Hf _].
  rewrite Nat2Z.inj_succ, Z2Nat.id in Hv by lia.
  replace (Z.succ n) with (n + 1) in Hv by lia.
  assert (0 < BASE ^ (n + 1)) by (apply Z.pow_pos_nonneg; [exact BASE_pos | lia]).
  nia.
Qed.

(** The top digit of a normalised non-zero vector and the part below it. *)
Lemma top_digit (b : UInt) :
  Inv b -> 0 < value b ->
  exists blow, 0 <= blow < BASE ^ (size b - 1) /\ 1 <= back b < BASE /\
               value b = blow + BASE ^ (size b - 1) * back b.
Proof.
  intros Hb Hv. unfold back, value, size.
  destruct (exists_last (Inv_nonempty b Hb)) as (init & d & E).
  pose proof (Inv_Digits b Hb) as HD.
  destruct (Inv_top b Hb) as [Ht|Ht];
    [|unfold value in Hv; rewrite Ht in Hv; cbn in Hv; lia].
  unfold back in Ht. rewrite E in *. rewrite last_last in *.
  apply Digits_app in HD. destruct HD as [Hi Hd].
  apply Digits_cons in Hd. destruct Hd as [Hd _].
  exists (val init). rewrite val_snoc, length_app. cbn [length].
  replace (Z.of_nat (length init + 1) - 1) with (Z.of_nat (length init)) by lia.
  split; [apply val_bounds; exact Hi|]. split; [lia | reflexivity].
Qed.

(** The digit estimate of [div_mod] never falls below the true quotient
    digit. *)
Lemma estimate_upper (R vb bt blow s1 s2 low P : Z) :
  0 < P -> 0 <= low < P -> 0 <= blow < P -> 1 <= bt -> 0 <= s1 -> 0 <= s2 ->
  R = low + P * (s2 + BASE * s1) -> vb = blow + P * bt ->
  R / vb <= (BASE * s1 + s2) / bt.
Proof.
  intros HP Hlow Hblow Hbt Hs1 Hs2 HR Hvb.
  pose proof BASE_pos.
  assert (0 < vb) by nia.
  assert (0 <= R) by nia.
  pose proof (Z.mul_div_le R vb ltac:(lia)) as Hq.
  pose proof (Z.div_pos R vb ltac:(lia) ltac:(lia)) as Hq0.
  apply Z.div_le_lower_bound; [lia|].
  set (q := R / vb) in *.
  assert (q * bt * P <= q * vb) by nia.
  assert (q * bt * P < (BASE * s1 + s2 + 1) * P) by nia.
  assert (q * bt < BASE * s1 + s2 + 1) by nia.
  lia.
Qed.

Section LongDivision.
Context {rt : FloatRuntime}.
Variable dm : UInt -> UInt -> option (UInt * UInt).
Hypothesis Hsp : spectral_ok 2.

Variable b : UInt.
Hypothesis Hb : Inv b.
Hypothesis Hbpos : 0 < value b.

Lemma correct_loop_ok (R dh : Z) (temp r : UInt) :
  Inv temp -> value temp = value b * dh ->
  Inv r -> value r = R -> 0 <= R -> R / value b <= dh < 2 ^ 64 ->
  exists r',
    while (correct_cond temp) (correct_body b) 64 (r, dh)
    = Some (r', R / value b) /\
    Inv r' /\ value r' = R + (dh - R / value b) * value b.
Proof.
  intros Ht Htv Hr Hrv HR Hdh.
  pose proof (Z.div_pos R (value b) ltac:(lia) ltac:(lia)) as Hq0.
  pose proof (Z.mul_div_le R (value b) ltac:(lia)) as Hq1.
  pose proof (Z.mul_succ_div_gt R (value b) ltac:(lia)) as Hq2.
  assert (forall s, correct_inv b R dh s -> correct_cond temp s = true ->
          exists s', correct_body b s = Some s' /\ correct_inv b R dh s' /\
                     0 <= snd s' - R / value b < snd s - R / value b)
    as Hstep.
  { intros [r0 d0] (Hi0 & Hv0 & Hd0) Hc. cbn [fst snd] in *.
    unfold correct_cond in Hc. cbn [fst] in Hc.
    rewrite op_lt_value in Hc by assumption. apply Z.ltb_lt in Hc.
    rewrite Hv0, Htv in Hc.
    assert (R / value b < d0) as Hlt.
    { destruct (Z_lt_le_dec (R / value b) d0); [assumption | exfalso; nia]. }
    unfold correct_body. cbn [fst snd].
    destruct (plus_assign_ok r0 b Hi0 Hb) as (r1 & Hr1 & Hi1 & Hv1).
    rewrite Hr1. cbn [bind]. eexists. split; [reflexivity|].
    split; [|cbn [snd]; lia].
    unfold correct_inv. cbn [fst snd].
    split; [exact Hi1|]. split; [|lia]. rewrite Hv1, Hv0. ring. }
  destruct (while_total (UInt * Z) (correct_cond temp) (correct_body b)
              (correct_inv b R dh) (fun st => snd st - R / value b) Hstep
              64%nat (r, dh))
    as ([r' d'] & Hw & (Hi & Hv & Hd) & Hc).
  - unfold correct_inv. cbn [fst snd].
    split; [exact Hr|]. split; [|lia]. rewrite Hrv. ring.
  - cbn [snd]. change (Z.of_nat 64) with 64. lia.
  - cbn [fst snd] in *. unfold correct_cond in Hc. cbn [fst] in Hc.
    rewrite op_lt_value in Hc by assumption. apply Z.ltb_ge in Hc.
    rewrite Hv, Htv in Hc.
    assert (d' = R / value b) as -> by nia.
    exists r'. split; [exact Hw|]. split; [exact Hi | exact Hv].
Qed.

(** The main loop: [q'] and [r'] are the quotient digits and the
    remainder of the number that the state and the digits left denote. *)
Lemma div_loop_ok (msf : list Z) :
  forall q r, Digits msf -> Digits q -> Inv r -> value r < value b ->
  exists q' r',
    div_loop b msf q r = Some (q', r') /\
    Digits q' /\ length q' = (length msf + length q)%nat /\
    Inv r' /\ value r' < value b /\
    val q' * value b + value r' =
    (val q * value b + value r) * BASE ^ Z.of_nat (length msf) + val (rev msf).
Proof.
  pose proof BASE_eq as HB.
  induction msf as [|ai rest IH]; intros q r Hm Hq Hr Hrv.
  - cbn [div_loop]. exists q, r. split; [reflexivity|].
    split; [assumption|]. split; [reflexivity|]. split; [assumption|].
    split; [assumption|]. cbn. lia.
  - apply Digits_cons in Hm. destruct Hm as [Hai Hrest].
    pose proof (value_nonneg r Hr) as Hr0.
    cbn [div_loop].
    (* r *= BASE *)
    destruct (times_assign_int_ok 2 r BASE Hsp Hr ltac:(lia))
      as (r1 & E1 & Hi1 & Hv1); [rewrite HB; lia|].
    rewrite E1. cbn [bind].
    (* r += a.digits[i] *)
    destruct (plus_assign_int_ok r1 ai Hi1 ltac:(lia)) as (r2 & E2 & Hi2 & Hv2).
    rewrite E2. cbn [bind].
    set (R := value r * BASE + ai).
    assert (value r2 = R) as HR by (unfold R; lia).
    assert (0 <= R < value b * BASE) as HRb by (unfold R; nia).
    (* the leading digits *)
    pose proof (Inv_size b Hb) as Hn.
    rewrite !guarded_nth by lia.
    destruct (top_digit b Hb Hbpos) as (blow & Hblow & Hbt & Hbv).
    assert (0 < BASE ^ (size b - 1)) as HP
      by (apply Z.pow_pos_nonneg; lia).
    assert (BASE ^ (size b + 1) = BASE ^ (size b - 1) * BASE * BASE) as HP2.
    { replace (size b + 1) with (size b - 1 + 1 + 1) by lia.
      rewrite !Z.pow_add_r, Z.pow_1_r by lia. reflexivity. }
    destruct (leading_digits (digits r2) (size b) (Inv_Digits r2 Hi2) Hn)
      as (low & Hlow & Hsplit).
    { fold (value r2). rewrite HR, HP2. nia. }
    fold (value r2) in Hsplit. rewrite HR in Hsplit.
    set (s1 := nth (Z.to_nat (size b)) (digits r2) 0) in *.
    set (s2 := nth (Z.to_nat (size b - 1)) (digits r2) 0) in *.
    pose proof (nth_Digits (Z.to_nat (size b)) _ (Inv_Digits r2 Hi2)) as Hs1.
    pose proof (nth_Digits (Z.to_nat (size b - 1)) _ (Inv_Digits r2 Hi2)) as Hs2.
    fold s1 in Hs1. fold s2 in Hs2.
    rewrite assert_true by (apply negb_true_iff, Z.eqb_neq; lia).
    cbn [bind].
    (* the estimate *)
    assert (Z.quot (1 * BASE * s1 + s2) (back b) = (BASE * s1 + s2) / back b)
      as Eq.
    { rewrite Z.mul_1_l. apply Z.quot_div_nonneg; nia. }
    rewrite Eq. set (dh := (BASE * s1 + s2) / back b).
    assert (R / value b <= dh) as Hest.
    { apply (estimate_upper R (value b) (back b) blow s1 s2 low
               (BASE ^ (size b - 1))); trivial; lia. }
    assert (0 <= dh < BASE * BASE) as Hdh.
    { unfold dh. split; [apply Z.div_pos; nia|].
      apply Z.div_lt_upper_bound; nia. }
    (* temp = b * d *)
    destruct (times_assign_int_ok 2 b dh Hsp Hb ltac:(lia))
      as (temp & E3 & Hi3 & Hv3).
    { change (BASE ^ 2) with (BASE * BASE). lia. }
    unfold op_times_int. rewrite E3. cbn [bind].
    (* while (r < temp) { r += b; --d; } *)
    destruct (correct_loop_ok R dh temp r2 Hi3 Hv3 Hi2 HR ltac:(lia))
      as (r3 & E4 & Hi4 & Hv4).
    { split; [assumption|]. rewrite HB in Hdh. lia. }
    rewrite E4. cbn [bind].
    (* r -= temp *)
    pose proof (Z.div_mod R (value b) ltac:(lia)) as Hdm.
    pose proof (Z.mod_pos_bound R (value b) ltac:(lia)) as Hmb.
    destruct (minus_assign_ok r3 temp Hi4 Hi3) as (r4 & E5 & Hi5 & Hv5).
    { rewrite Hv3, Hv4. nia. }
    rewrite E5. cbn [bind].
    assert (value r4 = R mod value b) as Hr4.
    { rewrite Hv5, Hv4, Hv3. nia. }
    assert (0 <= R / value b < BASE) as Hqd.
    { split; [apply Z.div_pos; lia | apply Z.div_lt_upper_bound; lia]. }
    destruct (IH (R / value b :: q) r4 Hrest) as (q' & r' & E6 & H6).
    { apply Digits_cons. split; assumption. }
    { exact Hi5. }
    { lia. }
    exists q', r'. split; [exact E6|].
    destruct H6 as (HDq & Hlq & Hir & Hrb & Hval).
    split; [exact HDq|]. split; [cbn [length] in *; lia|].
    split; [exact Hir|]. split; [exact Hrb|].
    rewrite Hval, val_rev_cons. cbn [val length]. rewrite BASE_pow_succ.
    rewrite Hr4. unfold R in *. nia.
Qed.
End LongDivision.

Section DivMod.
Context {rt : FloatRuntime}.
Hypothesis Hsp : spectral_ok 2.

(** The normalisation factor of a divisor of two digits or more. *)
Lemma norm_range (other : UInt) :
  Inv other -> size other <> 1 ->
  1 <= back other < BASE /\ 0 < value other /\
  1 <= Z.quot BASE (back other + 1) < BASE.
Proof.
  intros Ho Hs. pose proof BASE_eq as HB.
  assert (0 < value other) as Hpos.
  { pose proof (value_nonneg other Ho).
    destruct (Z.eq_dec (value other) 0) as [E|]; [|lia].
    apply value_zero in E; [|assumption]. unfold size in Hs.
    rewrite E in Hs. cbn in Hs. lia. }
  destruct (top_digit other Ho Hpos) as (_ & _ & Hbt & _).
  split; [assumption|]. split; [assumption|].
  rewrite Z.quot_div_nonneg by lia.
  split; [apply Z.div_le_lower_bound; lia | apply Z.div_lt_upper_bound; lia].
Qed.

Lemma div_mod_with_ok (dm : UInt -> UInt -> option (UInt * UInt))
      (a other : UInt) :
  Inv a -> Inv other -> 0 < value other ->
  exists q r,
    div_mod_with dm a other = Some (q, r) /\ Inv q /\ Inv r /\
    value q = value a / value other /\ value r = value a mod value other.
Proof.
  intros Ha Ho Hpos. pose proof BASE_eq as HB. unfold div_mod_with.
  destruct (Z.eqb_spec (size other) 1) as [Hs|Hs].
  - (* single-digit divisor *)
    destruct (size_one other Ho Hs) as (_ & Hd & Hv).
    set (d0 := nth 0 (digits other) 0) in *. rewrite Hv in *.
    destruct (div_assign_int_short dm a d0 Ha ltac:(lia)) as (q & Eq & Hiq & Hvq).
    rewrite Eq. cbn [bind].
    rewrite op_mod_int_ok by (trivial; lia). cbn [bind].
    pose proof (Z.mod_pos_bound (value a) d0 ltac:(lia)) as Hm.
    destruct (UInt_of_int_ok (value a mod d0) ltac:(lia)) as (r & Er & Hir & Hvr).
    rewrite Er. cbn [bind]. exists q, r. auto.
  - (* normalised long division *)
    destruct (norm_range other Ho Hs) as (Hbk & _ & Hnorm).
    rewrite assert_true by (apply negb_true_iff, Z.eqb_neq; lia).
    cbn [bind]. set (norm := Z.quot BASE (back other + 1)) in *.
    unfold op_times_int.
    destruct (times_assign_int_short a norm Ha ltac:(lia)) as (a' & Ea & Hia & Hva).
    destruct (times_assign_int_short other norm Ho ltac:(lia)) as (b & Eb & Hib & Hvb).
    rewrite Ea. cbn [bind]. rewrite Eb. cbn [bind].
    assert (0 < value b) as Hbpos by nia.
    destruct (div_loop_ok Hsp b Hib Hbpos (rev (digits a')) [] UInt0)
      as (q' & r' & El & HDq & Hlq & Hir & Hrb & Hval).
    { apply Digits_rev, Inv_Digits, Hia. }
    { constructor. }
    { exact Inv_UInt0. }
    { exact Hbpos. }
    rewrite El. cbn [bind].
    assert (val q' * value b + value r' = value a') as Hval'.
    { rewrite Hval, rev_involutive. unfold value at 2. cbn [val digits UInt0].
      unfold value. lia. }
    clear Hval. rename Hval' into Hval.
    destruct (normalize_ok q') as (q & Eq & Hiq & Hvq).
    { intros E. rewrite E in Hlq. rewrite length_rev in Hlq.
      apply Inv_nonempty in Hia. destruct (digits a'); [congruence | discriminate]. }
    { exact HDq. }
    rewrite Eq. cbn [bind].
    destruct (div_assign_int_short dm r' norm Hir ltac:(lia)) as (r & Er & Hirr & Hvr).
    rewrite Er. cbn [bind]. exists q, r.
    split; [reflexivity|]. split; [exact Hiq|]. split; [exact Hirr|].
    pose proof (value_nonneg r' Hir) as Hr0.
    assert (val q' = value a' / value b /\ value r' = value a' mod value b)
      as [Hq1 Hr1].
    { split.
      - apply Z.div_unique with (value r'); [lia|]. lia.
      - apply Z.mod_unique with (val q'); [lia|]. lia. }
    split.
    + rewrite Hvq, Hq1, Hva, Hvb. apply Z.div_mul_cancel_r; lia.
    + rewrite Hvr, Hr1, Hva, Hvb.
      rewrite Z.mul_mod_distr_r by lia. apply Z.div_mul. lia.
Qed.

Lemma div_mod_at_ok (depth : nat) (a other : UInt) :
  Inv a -> Inv other -> 0 < value other ->
  exists q r,
    div_mod_at depth a other = Some (q, r) /\ Inv q /\ Inv r /\
    value q = value a / value other /\ value r = value a mod value other.
Proof. destruct depth; cbn [div_mod_at]; apply div_mod_with_ok. Qed.

(** [div_mod] returns the quotient and the remainder. *)
Lemma div_mod_ok (a other : UInt) :
  Inv a -> Inv other -> 0 < value other ->
  exists q r,
    div_mod a other = Some (q, r) /\ Inv q /\ Inv r /\
    value q = value a / value other /\ value r = value a mod value other.
Proof. apply div_mod_at_ok. Qed.

Lemma op_mod_ok (a other : UInt) :
  Inv a -> Inv other -> 0 < value other ->
  exists r, op_mod a other = Some r /\ Inv r /\
            value r = value a mod value other.
Proof.
  intros Ha Ho Hpos. unfold op_mod.
  destruct (div_mod_ok a other Ha Ho Hpos) as (q & r & E & _ & Hi & _ & Hv).
  rewrite E. cbn [bind]. eauto.
Qed.

Lemma op_div_ok (a other : UInt) :
  Inv a -> Inv other -> 0 < value other ->
  exists q, op_div a other = Some q /\ Inv q /\
            value q = value a / value other.
Proof.
  intros Ha Ho Hpos. unfold op_div.
  destruct (div_mod_ok a other Ha Ho Hpos) as (q & r & E & Hi & _ & Hv & _).
  rewrite E. cbn [bind]. eauto.
Qed.

(** ** gcd *)

Lemma gcd_cond_value (st : UInt * UInt) :
  Inv (snd st) -> gcd_cond st = negb (value (snd st) =? 0).
Proof.
  intros H. unfold gcd_cond. rewrite op_ne_value by (trivial; exact Inv_UInt0).
  reflexivity.
Qed.

Lemma gcd_step (g : Z) (s : UInt * UInt) :
  gcd_inv g s -> gcd_cond s = true ->
  exists s', gcd_body s = Some s' /\ gcd_inv g s' /\
             0 <= value (snd s') < value (snd s).
Proof.
  destruct s as [a b]. intros (Ha & Hb & Hg) Hc. cbn [fst snd] in *.
  rewrite gcd_cond_value in Hc by assumption. cbn [snd] in Hc.
  apply negb_true_iff, Z.eqb_neq in Hc.
  pose proof (value_nonneg b Hb) as Hb0.
  unfold gcd_body. cbn [fst snd].
  destruct (op_mod_ok a b Ha Hb ltac:(lia)) as (r & Er & Hir & Hvr).
  rewrite Er. cbn [bind]. eexists. split; [reflexivity|].
  pose proof (Z.mod_pos_bound (value a) (value b) ltac:(lia)) as Hm.
  split; [|cbn [snd]; lia].
  unfold gcd_inv. cbn [fst snd]. split; [exact Hb|]. split; [exact Hir|].
  rewrite Hvr, <- Hg.
  rewrite (Z.gcd_comm (value b)), Z.gcd_mod by lia. apply Z.gcd_comm.
Qed.

Lemma pow2_bound (b : UInt) :
  Inv b -> value b < 2 ^ Z.of_nat (30 * length (digits b) + 1).
Proof.
  intros Hb. pose proof (value_upper b Hb) as Hu. unfold size in Hu.
  eapply Z.lt_le_trans; [exact Hu|].
  rewrite Nat2Z.inj_add, Nat2Z.inj_mul.
  rewrite Z.pow_add_r, Z.pow_mul_r by lia.
  change (2 ^ Z.of_nat 30) with 1073741824. change (2 ^ Z.of_nat 1) with 2.
  assert (BASE ^ Z.of_nat (length (digits b))
          <= 1073741824 ^ Z.of_nat (length (digits b))).
  { apply Z.pow_le_mono_l. rewrite BASE_eq. lia. }
  assert (0 < 1073741824 ^ Z.of_nat (length (digits b)))
    by (apply Z.pow_pos_nonneg; lia).
  lia.
Qed.

(** [gcd] terminates and returns the greatest common divisor. *)
Lemma gcd_ok (a b : UInt) :
  Inv a -> Inv b ->
  exists g, gcd a b = Some g /\ Inv g /\ value g = Z.gcd (value a) (value b).
Proof.
  intros Ha Hb. unfold gcd.
  destruct (while_total (UInt * UInt) gcd_cond gcd_body
              (gcd_inv (Z.gcd (value a) (value b)))
              (fun st => value (snd st))
              (gcd_step (Z.gcd (value a) (value b)))
              (30 * length (digits b) + 1)%nat (a, b))
    as ([a' b'] & Hw & (Hia & Hib & Hg) & Hc).
  - unfold gcd_inv. cbn [fst snd]. auto.
  - cbn [snd]. split; [apply value_nonneg; exact Hb | apply pow2_bound; exact Hb].
  - cbn [fst snd] in *. rewrite Hw. cbn [bind].
    exists a'. split; [reflexivity|]. split; [exact Hia|].
    rewrite gcd_cond_value in Hc by assumption. cbn [snd] in Hc.
    apply negb_false_iff, Z.eqb_eq in Hc. rewrite Hc in Hg.
    rewrite Z.gcd_0_r in Hg. pose proof (value_nonneg a' Hia). lia.
Qed.
End DivMod.

(** ** Exponentiation *)

Lemma pow_split (a n : Z) :
  0 <= n -> a ^ n = a ^ (n mod 2) * (a * a) ^ (n / 2).
Proof.
  intros Hn. pose proof (Z.div_mod n 2 ltac:(lia)) as Hdm.
  pose proof (Z.mod_pos_bound n 2 ltac:(lia)) as Hm.
  pose proof (Z.div_pos n 2 ltac:(lia) ltac:(lia)) as Hq.
  rewrite Hdm at 1. rewrite Z.pow_add_r, Z.pow_twice_r by lia.
  rewrite <- Z.pow_mul_l. ring.
Qed.

Lemma pow_step_mod (r a n m : Z) :
  0 <= n -> 0 < m ->
  (r * a ^ (n mod 2) * ((a * a) mod m) ^ (n / 2)) mod m = (r * a ^ n) mod m.
Proof.
  intros Hn Hm. rewrite (pow_split a n Hn).
  rewrite Z.mul_assoc.
  rewrite (Z.mul_mod (r * a ^ (n mod 2)) (((a * a) mod m) ^ (n / 2))) by lia.
  rewrite Z.mod_pow_l.
  rewrite <- Z.mul_mod by lia. reflexivity.
Qed.

Lemma run_ext (St : Type) (cond : St -> bool) (body : St -> option St)
      (s s' : St) :
  cond s = cond s' -> body s = body s' -> cond s = true ->
  forall n, run cond body n s = run cond body n s'.
Proof.
  intros Hc Hb Ht n. induction n as [|n IH].
  - cbn [run]. rewrite <- Hc, <- Hb, Ht. reflexivity.
  - cbn [run]. rewrite IH. reflexivity.
Qed.

Section Power.
Context {rt : FloatRuntime}.

Lemma fft_exact_sound : fft_exact -> spectral_sound.
Proof. intros H k. apply fft_exact_spectral_ok. exact H. Qed.

Hypothesis Hall : spectral_sound.

Lemma times_assign_ok (a b : UInt) :
  Inv a -> Inv b ->
  exists r, times_assign a b = Some r /\ Inv r /\ value r = value a * value b.
Proof.
  intros Ha Hb. unfold times_assign, op_times.
  apply (mult_ok (size b) a b (Hall (size b)) Ha Hb). lia.
Qed.

Lemma pow_step (modulus : option Z) (T : Z) (s : UInt * UInt * Z) :
  modulus_ok modulus ->
  pow_inv modulus T s -> pow_cond s = true ->
  exists s', pow_body modulus s = Some s' /\ pow_inv modulus T s' /\
             0 <= snd s' < snd s.
Proof.
  destruct s as [[res a] n]. intros Hm (Hres & Ha & Hn & Hv) Hc.
  unfold pow_cond in Hc. cbn [snd] in *. apply Z.gtb_lt in Hc.
  pose proof (Z.div_mod n 2 ltac:(lia)) as Hdm.
  pose proof (Z.mod_pos_bound n 2 ltac:(lia)) as Hmb.
  pose proof (Z.div_pos n 2 ltac:(lia) ltac:(lia)) as Hq.
  assert (Z.rem n 2 = n mod 2) as Er by (apply Z.rem_mod_nonneg; lia).
  assert (Z.quot n 2 = n / 2) as Eq by (apply Z.quot_div_nonneg; lia).
  unfold pow_body. rewrite Er, Eq.
  (* res *= a when the bit is set *)
  assert (exists res',
            (if negb (n mod 2 =? 0) then times_assign res a else Some res)
            = Some res' /\ Inv res' /\
            value res' = value res * value a ^ (n mod 2))
    as (res' & E1 & Hi1 & Hv1).
  { destruct (Z.eqb_spec (n mod 2) 0) as [E|E]; cbn [negb].
    - exists res. rewrite E, Z.pow_0_r. split; [reflexivity|].
      split; [assumption | lia].
    - assert (n mod 2 = 1) as -> by lia. rewrite Z.pow_1_r.
      apply times_assign_ok; assumption. }
  rewrite E1. cbn [bind].
  (* a *= a *)
  destruct (times_assign_ok a a Ha Ha) as (a2 & E2 & Hi2 & Hv2).
  rewrite E2. cbn [bind].
  destruct modulus as [m|]; cbn [modulus_ok] in Hm.
  - (* a %= mod *)
    destruct (UInt_of_int_ok m ltac:(lia)) as (mu & Emu & Himu & Hvmu).
    rewrite Emu. cbn [bind].
    destruct (op_mod_ok (Hall 2) a2 mu Hi2 Himu ltac:(lia))
      as (a3 & E3 & Hi3 & Hv3).
    rewrite E3. cbn [bind]. eexists. split; [reflexivity|].
    split; [|cbn [snd]; lia].
    unfold pow_inv. split; [exact Hi1|]. split; [exact Hi3|]. split; [lia|].
    rewrite Hv1, Hv3, Hv2, Hvmu, <- Hv. apply pow_step_mod; lia.
  - eexists. split; [reflexivity|]. split; [|cbn [snd]; lia].
    unfold pow_inv. split; [exact Hi1|]. split; [exact Hi2|]. split; [lia|].
    rewrite Hv1, Hv2, <- Hv. rewrite (pow_split (value a) n Hn). ring.
Qed.

Lemma pow_loop_ok (modulus : option Z) (res a : UInt) (n : Z) :
  modulus_ok modulus -> Inv res -> Inv a -> 0 <= n ->
  exists res' a',
    while pow_cond (pow_body modulus) (S (Z.to_nat (Z.log2 n))) (res, a, n)
    = Some (res', a', 0) /\
    pow_inv modulus (value res * value a ^ n) (res', a', 0).
Proof.
  intros Hm Hres Ha Hn.
  destruct (while_total (UInt * UInt * Z) pow_cond (pow_body modulus)
              (pow_inv modulus (value res * value a ^ n))
              (fun st => snd st)
              (fun s => pow_step modulus _ s Hm)
              (S (Z.to_nat (Z.log2 n))) (res, a, n))
    as ([[res' a'] n'] & Hw & Hinv & Hc).
  - unfold pow_inv. split; [assumption|]. split; [assumption|].
    split; [assumption|]. destruct modulus; reflexivity.
  - cbn [snd]. split; [assumption | apply log2_fuel; assumption].
  - assert (n' = 0) as ->.
    { unfold pow_cond in Hc. cbn [snd] in Hc.
      destruct Hinv as (_ & _ & Hn' & _).
      destruct (Z.gtb_spec n' 0); [discriminate | lia]. }
    exists res', a'. split; [exact Hw | exact Hinv].
Qed.

Lemma UInt_of_int_1 : UInt_of_int 1 = Some (mkUInt [1]).
Proof. reflexivity. Qed.

(** [pow(a, n, mod)] with a modulus returns a value congruent to [a^n]. *)
Lemma pow_mod_ok (a : UInt) (n m : Z) :
  Inv a -> 0 <= n -> 0 < m ->
  exists r, pow a n m = Some r /\ Inv r /\
            value r mod m = value a ^ n mod m.
Proof.
  intros Ha Hn Hm. unfold pow. rewrite UInt_of_int_1. cbn [bind].
  destruct (Z.eqb_spec m (-1)) as [|_]; [lia|].
  destruct (pow_loop_ok (Some m) (mkUInt [1]) a n Hm) as (r & a' & Hw & Hinv);
    trivial.
  { apply wf_Inv. reflexivity. }
  rewrite Hw. cbn [bind fst]. exists r.
  destruct Hinv as (Hir & _ & _ & Hv).
  split; [reflexivity|]. split; [exact Hir|].
  rewrite Z.pow_0_r, Z.mul_1_r in Hv. rewrite Hv.
  f_equal. unfold value. cbn [val digits]. lia.
Qed.

(** [pow(a, n, -1)], the branch without a modulus, returns [a^n]. *)
Lemma pow_exact_ok (a : UInt) (n : Z) :
  Inv a -> 0 <= n ->
  exists r, pow a n (-1) = Some r /\ Inv r /\ value r = value a ^ n.
Proof.
  intros Ha Hn. unfold pow. rewrite UInt_of_int_1. cbn [bind].
  change (-1 =? -1) with true. cbv iota.
  destruct (pow_loop_ok None (mkUInt [1]) a n Logic.I) as (r & a' & Hw & Hinv);
    trivial.
  { apply wf_Inv. reflexivity. }
  rewrite Hw. cbn [bind fst]. exists r.
  destruct Hinv as (Hir & _ & _ & Hv).
  split; [reflexivity|]. split; [exact Hir|].
  rewrite Z.pow_0_r, Z.mul_1_r in Hv. rewrite Hv.
  unfold value. cbn [val digits]. lia.
Qed.

(** The body of the loop on a state and on the state with the base
    reduced beforehand, when the exponent is even: the same next state. *)
Lemma pow_body_even (m : Z) (res a a' : UInt) (n : Z) :
  Inv a -> Inv a' -> 0 < m -> value a' = value a mod m ->
  0 < n -> n mod 2 = 0 ->
  pow_body (Some m) (res, a, n) = pow_body (Some m) (res, a', n) /\
  pow_body (Some m) (res, a, n) <> None.
Proof.
  intros Ha Ha' Hm Hv Hn Hev.
  assert (Z.rem n 2 = 0) as Er by (rewrite Z.rem_mod_nonneg; lia).
  unfold pow_body. rewrite Er. cbn [Z.eqb negb bind].
  destruct (times_assign_ok a a Ha Ha) as (a2 & E2 & Hi2 & Hv2).
  destruct (times_assign_ok a' a' Ha' Ha') as (b2 & F2 & Hj2 & Hw2).
  rewrite E2, F2. cbn [bind].
  destruct (UInt_of_int_ok m ltac:(lia)) as (mu & Emu & Himu & Hvmu).
  rewrite Emu. cbn [bind].
  destruct (op_mod_ok (Hall 2) a2 mu Hi2 Himu ltac:(lia)) as (a3 & E3 & Hi3 & Hv3).
  destruct (op_mod_ok (Hall 2) b2 mu Hj2 Himu ltac:(lia)) as (b3 & F3 & Hj3 & Hw3).
  rewrite E3, F3. cbn [bind].
  assert (a3 = b3) as ->.
  { apply Inv_value_inj; trivial.
    rewrite Hv3, Hw3, Hv2, Hw2, Hv, Hvmu.
    rewrite <- Z.mul_mod by lia. reflexivity. }
  split; [reflexivity | discriminate].
Qed.

(** For an even exponent [pow] does not see whether the base was reduced
    beforehand. *)
Lemma pow_even_prereduced (a a' : UInt) (n m : Z) :
  Inv a -> Inv a' -> 0 < m -> value a' = value a mod m ->
  0 <= n -> n mod 2 = 0 ->
  pow a n m = pow a' n m.
Proof.
  intros Ha Ha' Hm Hv Hn Hev. unfold pow. rewrite UInt_of_int_1. cbn [bind].
  destruct (Z.eqb_spec m (-1)) as [|_]; [lia|].
  destruct (Z.eq_dec n 0) as [->|Hn0]; [reflexivity|].
  destruct (pow_body_even m (mkUInt [1]) a a' n) as [Hb _]; trivial; [lia|].
  unfold while.
  rewrite (run_ext _ pow_cond (pow_body (Some m))
             (mkUInt [1], a, n) (mkUInt [1], a', n)); trivial.
  unfold pow_cond. cbn [snd]. apply Z.gtb_lt. lia.
Qed.

(** With exponent 1 the accumulator takes the base as it is. *)
Lemma pow_one (a : UInt) (m : Z) :
  Inv a -> 0 < m -> pow a 1 m = Some a.
Proof.
  intros Ha Hm. unfold pow. rewrite UInt_of_int_1. cbn [bind].
  destruct (Z.eqb_spec m (-1)) as [|_]; [lia|].
  change (S (Z.to_nat (Z.log2 1))) with 1%nat.
  unfold while. cbn [run]. unfold pow_cond at 1. cbn [snd].
  change (1 >? 0) with true. cbv iota.
  unfold pow_body at 1. change (Z.rem 1 2 =? 0) with false. cbn [negb].
  destruct (times_assign_ok (mkUInt [1]) a) as (r & E1 & Hi1 & Hv1);
    [apply wf_Inv; reflexivity | exact Ha |].
  assert (r = a) as ->.
  { apply Inv_value_inj; trivial. rewrite Hv1. unfold value at 1.
    cbn [val digits]. lia. }
  rewrite E1. cbn [bind].
  destruct (times_assign_ok a a Ha Ha) as (a2 & E2 & Hi2 & Hv2).
  rewrite E2. cbn [bind].
  destruct (UInt_of_int_ok m ltac:(lia)) as (mu & Emu & Himu & Hvmu).
  rewrite Emu. cbn [bind].
  destruct (op_mod_ok (Hall 2) a2 mu Hi2 Himu ltac:(lia)) as (a3 & E3 & Hi3 & Hv3).
  rewrite E3. cbn [bind]. change (Z.quot 1 2) with 0.
  unfold pow_cond. cbn [snd]. change (0 >? 0) with false. cbv iota.
  cbn [bind fst]. reflexivity.
Qed.
End Power.

(** ** Textual codec *)

Lemma is_digit_range (c : ascii) :
  is_digit c = true -> (48 <= nat_of_ascii c <= 57)%nat.
Proof.
  unfold is_digit. intros H. apply andb_true_iff in H.
  destruct H as [H1 H2]. apply Nat.leb_le in H1, H2. lia.
Qed.

Lemma digit_value_range (c : ascii) : is_digit c = true -> 0 <= digit_value c <= 9.
Proof. intros H. apply is_digit_range in H. unfold digit_value. lia. Qed.

Lemma digit_char_value (c : ascii) :
  is_digit c = true -> digit_char (digit_value c) = c.
Proof.
  intros H. apply is_digit_range in H. unfold digit_char, digit_value.
  replace (Z.to_nat (48 + (Z.of_nat (nat_of_ascii c) - 48)))
    with (nat_of_ascii c) by lia.
  apply ascii_nat_embedding.
Qed.

Lemma all_digits_cons (c : ascii) (s : text) :
  all_digits (c :: s) <-> is_digit c = true /\ all_digits s.
Proof. unfold all_digits. cbn [forallb]. apply andb_true_iff. Qed.

Lemma all_digits_app (s t : text) :
  all_digits (s ++ t) <-> all_digits s /\ all_digits t.
Proof. unfold all_digits. rewrite forallb_app. apply andb_true_iff. Qed.

Lemma all_digits_firstn (n : nat) (s : text) : all_digits s -> all_digits (firstn n s).
Proof.
  intros H. rewrite <- (firstn_skipn n s) in H. apply all_digits_app in H. tauto.
Qed.

Lemma all_digits_skipn (n : nat) (s : text) : all_digits s -> all_digits (skipn n s).
Proof.
  intros H. rewrite <- (firstn_skipn n s) in H. apply all_digits_app in H. tauto.
Qed.

Lemma read_digits_acc (s : text) :
  forall acc, all_digits s ->
  read_digits s acc = acc * 10 ^ Z.of_nat (length s) + dec s.
Proof.
  unfold dec. induction s as [|c s IH]; intros acc H.
  - cbn. lia.
  - apply all_digits_cons in H. destruct H as [Hc Hs].
    cbn [read_digits length]. rewrite Hc.
    rewrite (IH (acc * 10 + digit_value c) Hs), (IH (0 * 10 + digit_value c) Hs).
    rewrite Nat2Z.inj_succ, Z.pow_succ_r by lia. ring.
Qed.

Lemma dec_cons (c : ascii) (s : text) :
  all_digits (c :: s) ->
  dec (c :: s) = digit_value c * 10 ^ Z.of_nat (length s) + dec s.
Proof.
  intros H. apply all_digits_cons in H. destruct H as [Hc Hs].
  unfold dec at 1. cbn [read_digits]. rewrite Hc.
  rewrite read_digits_acc by assumption. lia.
Qed.

Lemma dec_snoc (s : text) (c : ascii) :
  all_digits (s ++ [c]) -> dec (s ++ [c]) = dec s * 10 + digit_value c.
Proof.
  induction s as [|x s IH]; intros H.
  - cbn [app] in *. rewrite dec_cons by assumption. cbn. unfold dec. cbn. lia.
  - cbn [app] in *. pose proof H as H'.
    apply all_digits_cons in H'. destruct H' as [Hx Hs].
    rewrite dec_cons by assumption. rewrite IH by assumption.
    rewrite dec_cons.
    + rewrite length_app. cbn [length].
      rewrite Nat2Z.inj_add, Z.pow_add_r by lia. change (10 ^ Z.of_nat 1) with 10.
      ring.
    + apply all_digits_cons. apply all_digits_app in Hs. tauto.
Qed.

Lemma dec_bounds (s : text) :
  all_digits s -> 0 <= dec s < 10 ^ Z.of_nat (length s).
Proof.
  induction s as [|c s IH]; intros H.
  - cbn. lia.
  - rewrite dec_cons by assumption.
    apply all_digits_cons in H. destruct H as [Hc Hs].
    pose proof (digit_value_range c Hc). specialize (IH Hs).
    cbn [length]. rewrite Nat2Z.inj_succ, Z.pow_succ_r by lia. nia.
Qed.

Lemma dec_lower (c : ascii) (s : text) :
  all_digits (c :: s) -> nat_of_ascii c <> 48%nat ->
  10 ^ Z.of_nat (length s) <= dec (c :: s).
Proof.
  intros H Hc. rewrite dec_cons by assumption.
  apply all_digits_cons in H. destruct H as [Hd Hs].
  pose proof (dec_bounds s Hs). apply is_digit_range in Hd.
  unfold digit_value.
  assert (0 < 10 ^ Z.of_nat (length s)) by (apply Z.pow_pos_nonneg; lia).
  nia.
Qed.

Lemma print_digits_S (fuel : nat) (n : Z) (acc : text) :
  print_digits (S fuel) n acc =
  if Z.quot n 10 =? 0 then digit_char (Z.rem n 10) :: acc
  else print_digits fuel (Z.quot n 10) (digit_char (Z.rem n 10) :: acc).
Proof. reflexivity. Qed.

Lemma canonical_init (s : text) (c : ascii) :
  canonical (s ++ [c]) -> s <> [] -> canonical s /\ 0 < dec s.
Proof.
  intros (Hd & _ & Hz) Hne. apply all_digits_app in Hd. destruct Hd as [Hs Hc].
  destruct s as [|x s]; [congruence|].
  assert (nat_of_ascii x <> 48%nat) as Hx.
  { cbn [app no_leading_zero] in Hz. destruct (s ++ [c]) eqn:E.
    - destruct s; discriminate.
    - apply negb_true_iff, Nat.eqb_neq in Hz. exact Hz. }
  split.
  - split; [exact Hs|]. split; [discriminate|].
    cbn [no_leading_zero]. destruct s; [reflexivity|].
    apply negb_true_iff, Nat.eqb_neq. exact Hx.
  - pose proof (dec_lower x s Hs Hx).
    assert (0 < 10 ^ Z.of_nat (length s)) by (apply Z.pow_pos_nonneg; lia).
    lia.
Qed.

(** Printing the number a canonical digit string denotes gives the string
    back. *)
Lemma print_digits_canonical (s : text) :
  forall fuel acc, canonical s -> dec s < 2 ^ Z.of_nat (S fuel) ->
  print_digits (S fuel) (dec s) acc = s ++ acc.
Proof.
  induction s as [|c s IH] using rev_ind; intros fuel acc Hcan Hf.
  - destruct Hcan as (_ & H & _). congruence.
  - pose proof Hcan as (Hd & _ & _).
    pose proof Hd as Hd'. apply all_digits_app in Hd'. destruct Hd' as [Hs Hc].
    apply all_digits_cons in Hc. destruct Hc as [Hc _].
    pose proof (digit_value_range c Hc) as Hr.
    pose proof (dec_bounds s Hs) as Hb.
    rewrite dec_snoc in * by assumption.
    rewrite print_digits_S.
    assert (Z.quot (dec s * 10 + digit_value c) 10 = dec s) as ->.
    { rewrite Z.quot_div_nonneg by lia. symmetry.
      apply Z.div_unique with (digit_value c); lia. }
    assert (Z.rem (dec s * 10 + digit_value c) 10 = digit_value c) as ->.
    { rewrite Z.rem_mod_nonneg by lia. symmetry.
      apply Z.mod_unique with (dec s); lia. }
    rewrite digit_char_value by assumption.
    destruct s as [|x s'] eqn:E.
    + reflexivity.
    + rewrite <- E in *.
      destruct (canonical_init s c Hcan) as [Hcs Hpos]; [subst; discriminate|].
      destruct (Z.eqb_spec (dec s) 0); [lia|].
      rewrite Nat2Z.inj_succ, Z.pow_succ_r in Hf by lia.
      destruct fuel as [|fuel].
      { change (2 ^ Z.of_nat 0) with 1 in Hf. lia. }
      rewrite IH; trivial.
      * rewrite <- app_assoc. reflexivity.
      * lia.
Qed.

Lemma print_int_canonical (s : text) : canonical s -> print_int (dec s) = s.
Proof.
  intros H. pose proof H as (Hd & _ & _). pose proof (dec_bounds s Hd) as Hb.
  unfold print_int. destruct (Z.ltb_spec (dec s) 0); [lia|].
  rewrite print_digits_canonical; [apply app_nil_r | assumption|].
  apply log2_fuel. lia.
Qed.

(** Printing with [setw(length s)] and [setfill('0')] gives any digit
    string back, leading zeros included. *)
Lemma print_padded_digits (s : text) :
  all_digits s -> s <> [] -> print_padded (length s) (dec s) = s.
Proof.
  induction s as [|c s IH]; intros Hd Hne; [congruence|].
  destruct s as [|x s'] eqn:E.
  - unfold print_padded. rewrite print_int_canonical.
    + reflexivity.
    + split; [exact Hd|]. split; [discriminate | reflexivity].
  - rewrite <- E in *. pose proof Hd as Hd'.
    apply all_digits_cons in Hd'. destruct Hd' as [Hc Hs].
    destruct (Nat.eq_dec (nat_of_ascii c) 48) as [Hz|Hnz].
    + assert (dec (c :: s) = dec s) as ->.
      { rewrite dec_cons by assumption. unfold digit_value. rewrite Hz. lia. }
      assert (c = ascii_of_nat 48) as ->.
      { rewrite <- Hz. symmetry. apply ascii_nat_embedding. }
      specialize (IH Hs ltac:(subst; discriminate)).
      unfold print_padded in *.
      assert (length (print_int (dec s)) <= length s)%nat as Hl.
      { rewrite <- IH at 2. rewrite length_app. lia. }
      cbn [length].
      replace (S (length s) - length (print_int (dec s)))%nat
        with (S (length s - length (print_int (dec s)))) by lia.
      cbn [repeat app]. f_equal. exact IH.
    + unfold print_padded. rewrite print_int_canonical.
      * rewrite Nat.sub_diag. reflexivity.
      * split; [exact Hd|]. split; [discriminate|].
        rewrite E. cbn [no_leading_zero].
        apply negb_true_iff, Nat.eqb_neq. exact Hnz.
Qed.

(** [stoi] on a non-empty string of at most nine decimal digits. *)
Lemma stoi_digits (s : text) :
  all_digits s -> s <> [] -> (length s <= 9)%nat -> stoi s = Some (dec s).
Proof.
  intros Hd Hne Hl. pose proof (dec_bounds s Hd) as Hb.
  destruct s as [|c t]; [congruence|].
  pose proof Hd as Hd'. apply all_digits_cons in Hd'. destruct Hd' as [Hc _].
  pose proof (is_digit_range c Hc) as Hr.
  unfold stoi. cbn [skip_space].
  assert (is_space c = false) as ->.
  { unfold is_space. apply orb_false_iff. split.
    - apply Nat.eqb_neq. lia.
    - apply andb_false_iff. right. apply Nat.leb_gt. lia. }
  assert ((nat_of_ascii c =? 45)%nat = false) as -> by (apply Nat.eqb_neq; lia).
  assert ((nat_of_ascii c =? 43)%nat = false) as -> by (apply Nat.eqb_neq; lia).
  rewrite Hc. fold (dec (c :: t)).
  assert (10 ^ Z.of_nat (length (c :: t)) <= 10 ^ 9)
    by (apply Z.pow_le_mono_r; lia).
  rewrite assert_true; [reflexivity|].
  apply andb_true_iff. split; apply Z.leb_le; lia.
Qed.

Lemma substr_length (s : text) (pos len : nat) :
  (pos + len <= length s)%nat -> length (substr s pos len) = len.
Proof.
  intros H. unfold substr. rewrite length_firstn, length_skipn. lia.
Qed.

Lemma chunk_step (s : text) (j : nat) :
  (S j * WIDTH <= length s)%nat ->
  skipn (length s - S j * WIDTH) s =
  substr s (length s - S j * WIDTH) WIDTH ++ skipn (length s - j * WIDTH) s.
Proof.
  intros H. unfold substr.
  rewrite <- (firstn_skipn WIDTH (skipn (length s - S j * WIDTH) s)) at 1.
  f_equal. rewrite skipn_skipn. f_equal. unfold WIDTH in *. lia.
Qed.

Lemma dec_digit (s : text) :
  all_digits s -> (length s <= 9)%nat -> 0 <= dec s < BASE.
Proof.
  intros Hd Hl. pose proof (dec_bounds s Hd) as Hb.
  assert (10 ^ Z.of_nat (length s) <= 10 ^ 9) by (apply Z.pow_le_mono_r; lia).
  rewrite BASE_eq. lia.
Qed.

(** The groups loop: the digits it pushes, printed with padding from the
    last one back, are the characters it consumed. *)
Lemma string_groups_spec (s : text) (count : nat) :
  forall j, ((j + count) * WIDTH <= length s)%nat -> all_digits s ->
  exists ds,
    string_groups s count (S j) = Some ds /\ length ds = count /\ Digits ds /\
    flat_map (print_padded WIDTH) (rev ds) ++ skipn (length s - j * WIDTH) s
    = skipn (length s - (j + count) * WIDTH) s /\
    (count <> 0%nat ->
     last ds 0 = dec (substr s (length s - (j + count) * WIDTH) WIDTH)).
Proof.
  induction count as [|count IH]; intros j Hl Hd.
  - exists []. cbn [string_groups length rev flat_map app].
    rewrite Nat.add_0_r. repeat split; [constructor | congruence].
  - cbn [string_groups].
    set (chunk := substr s (length s - S j * WIDTH) WIDTH).
    assert (length chunk = WIDTH) as Hcl.
    { apply substr_length. unfold WIDTH in *. lia. }
    assert (all_digits chunk) as Hcd.
    { apply all_digits_firstn, all_digits_skipn, Hd. }
    rewrite stoi_digits; trivial.
    2:{ intros E. rewrite E in Hcl. discriminate. }
    2:{ rewrite Hcl. unfold WIDTH. lia. }
    cbn [bind].
    destruct (IH (S j)) as (rest & Er & Hlr & HDr & Hfm & Hlast);
      [unfold WIDTH in *; lia | exact Hd |].
    rewrite Er. cbn [bind]. exists (dec chunk :: rest).
    split; [reflexivity|]. split; [cbn [length]; lia|].
    split; [apply Digits_cons; split; [apply dec_digit; trivial;
                                         rewrite Hcl; unfold WIDTH; lia
                                       | exact HDr]|].
    split.
    + cbn [rev]. rewrite flat_map_app. cbn [flat_map]. rewrite app_nil_r.
      rewrite <- app_assoc.
      replace (print_padded WIDTH (dec chunk)) with chunk.
      2:{ rewrite <- Hcl at 1. symmetry. apply print_padded_digits; trivial.
          intros E. rewrite E in Hcl. discriminate. }
      unfold chunk. rewrite <- chunk_step by (unfold WIDTH in *; lia).
      rewrite Hfm. f_equal. lia.
    + intros _. destruct count as [|count].
      * destruct rest; [|discriminate]. cbn [last].
        unfold chunk. do 2 f_equal. lia.
      * destruct rest as [|r rest]; [discriminate|].
        change (last (dec chunk :: r :: rest) 0) with (last (r :: rest) 0).
        rewrite Hlast by discriminate. do 2 f_equal. lia.
Qed.

Lemma valid_decimal_spec (s : text) :
  valid_decimal s = true <-> s <> [] /\ all_digits s.
Proof.
  unfold valid_decimal, all_digits. destruct s.
  - split; [discriminate | intros [H _]; congruence].
  - split; [intros H; split; [discriminate | exact H] | tauto].
Qed.

Lemma canonical_prefix (s : text) (n : nat) :
  canonical s -> (1 <= n)%nat -> canonical (firstn n s).
Proof.
  intros (Hd & Hne & Hz) Hn. split; [apply all_digits_firstn, Hd|].
  destruct s as [|c s]; [congruence|]. destruct n as [|n]; [lia|].
  cbn [firstn]. split; [discriminate|].
  cbn [no_leading_zero]. destruct (firstn n s) eqn:E; [reflexivity|].
  destruct s; [destruct n; discriminate|]. exact Hz.
Qed.

Lemma canonical_nonzero (s : text) :
  canonical s -> (2 <= length s)%nat -> 0 < dec s.
Proof.
  intros (Hd & Hne & Hz) Hl. destruct s as [|c [|x s]]; cbn [length] in Hl; try lia.
  cbn [no_leading_zero] in Hz. apply negb_true_iff, Nat.eqb_neq in Hz.
  pose proof (dec_lower c (x :: s) Hd Hz).
  assert (0 < 10 ^ Z.of_nat (length (x :: s))) by (apply Z.pow_pos_nonneg; lia).
  lia.
Qed.

(** Parsing a valid decimal string without leading zeros and formatting
    the result gives the string back. *)
Lemma format_parse (s : text) :
  valid_decimal s = true -> no_leading_zero s = true ->
  exists u, parse s = Some u /\ Inv u /\ format u = Some s.
Proof.
  intros Hv Hz. apply valid_decimal_spec in Hv. destruct Hv as [Hne Hd].
  assert (canonical s) as Hcan by (split; [|split]; assumption).
  assert (0 < length s)%nat as Hlen by (destruct s; [congruence | cbn; lia]).
  pose proof (Nat.div_mod_eq (length s) WIDTH) as Hdm.
  pose proof (Nat.mod_upper_bound (length s) WIDTH ltac:(discriminate)) as Hmb.
  unfold parse, UInt_of_string.
  destruct (string_groups_spec s (length s / WIDTH) 0) as (ds & Eg & Hl & HD & Hfm & Hlast);
    [lia | exact Hd |].
  rewrite Eg. cbn [bind].
  rewrite Nat.sub_0_r, skipn_all, app_nil_r in Hfm.
  replace (length s - (0 + length s / WIDTH) * WIDTH)%nat
    with (length s mod WIDTH)%nat in * by lia.
  destruct (Nat.eqb_spec (length s mod WIDTH) 0) as [Hm|Hm]; cbn [negb].
  - (* the length is a multiple of WIDTH *)
    cbn [bind]. rewrite app_nil_r.
    assert (length s / WIDTH <> 0)%nat as Hn by lia.
    specialize (Hlast Hn). rewrite Hm in *. cbn [skipn] in Hfm.
    set (chunk := substr s 0 WIDTH) in *.
    assert (canonical chunk) as Hcc.
    { apply canonical_prefix; [exact Hcan | unfold WIDTH; lia]. }
    assert (length chunk = WIDTH) as Hcl.
    { apply substr_length. unfold WIDTH in *. lia. }
    pose proof (canonical_nonzero chunk Hcc ltac:(rewrite Hcl; unfold WIDTH; lia)).
    assert (Inv (mkUInt ds)) as Hi.
    { apply Inv_intro; [|exact HD | left; lia].
      intros E. rewrite E in Hl. cbn [length] in Hl. lia. }
    rewrite normalize_id by exact Hi.
    exists (mkUInt ds). split; [reflexivity|]. split; [exact Hi|].
    unfold format. cbn [digits].
    destruct (rev ds) as [|top rest] eqn:Er.
    { apply (f_equal (@length Z)) in Er. rewrite length_rev in Er.
      cbn in Er. lia. }
    assert (top = dec chunk) as ->.
    { rewrite <- Hlast, <- hd_rev_last, Er. reflexivity. }
    rewrite print_int_canonical by exact Hcc.
    assert (print_padded WIDTH (dec chunk) = chunk) as Hpp.
    { rewrite <- Hcl at 1. apply print_padded_digits; apply Hcc. }
    cbn [flat_map] in Hfm. rewrite Hpp in Hfm. rewrite Hfm. reflexivity.
  - (* a shorter most-significant group *)
    set (top := substr s 0 (length s mod WIDTH)).
    assert (canonical top) as Hct.
    { apply canonical_prefix; [exact Hcan | lia]. }
    assert (length top = length s mod WIDTH)%nat as Htl.
    { apply substr_length. lia. }
    rewrite stoi_digits; [| apply Hct | apply Hct | unfold WIDTH in *; lia].
    cbn [bind].
    assert (Inv (mkUInt (ds ++ [dec top]))) as Hi.
    { apply Inv_intro.
      - intros E. apply app_eq_nil in E. destruct E; discriminate.
      - apply Digits_app. split; [exact HD|].
        apply Digits_cons. split; [|constructor].
        apply dec_digit; [apply Hct | unfold WIDTH in *; lia].
      - rewrite last_last, length_app. cbn [length].
        destruct (Nat.eq_dec (length s) 1) as [E1|E1].
        + right. assert (length s / WIDTH = 0)%nat as E0.
          { rewrite E1. reflexivity. }
          lia.
        + left. assert (0 < dec top); [|lia].
          destruct s as [|c [|x s]]; cbn [length] in *; try lia.
          destruct Hcan as (_ & _ & Hz').
          cbn [no_leading_zero] in Hz'.
          apply negb_true_iff, Nat.eqb_neq in Hz'.
          unfold top, substr. cbn [skipn].
          destruct (S (S (length s)) mod WIDTH)%nat as [|k]; [congruence|].
          cbn [firstn].
          pose proof (dec_lower c (firstn k (x :: s))) as Hlow.
          assert (all_digits (c :: firstn k (x :: s))) as Hda.
          { apply (all_digits_firstn (S k) (c :: x :: s)). exact Hd. }
          specialize (Hlow Hda Hz').
          assert (0 < 10 ^ Z.of_nat (length (firstn k (x :: s))))
            by (apply Z.pow_pos_nonneg; lia).
          lia. }
    rewrite normalize_id by exact Hi.
    exists (mkUInt (ds ++ [dec top])). split; [reflexivity|]. split; [exact Hi|].
    unfold format. cbn [digits]. rewrite rev_app_distr. cbn [rev app].
    rewrite Hfm, print_int_canonical by exact Hct.
    unfold top, substr. cbn [skipn]. rewrite firstn_skipn. reflexivity.
Qed.

(** ** Whatever an operation returns is normalised

    These lemmas ask nothing of the operands: the [normalize()] that ends
    every operation asserts the digit range and trims the vector. *)

Lemma normalize_Inv (u v : UInt) : normalize u = Some v -> Inv v.
Proof. intros H. apply normalize_Some in H. tauto. Qed.

Lemma UInt_of_int_Inv (n : Z) (u : UInt) : UInt_of_int n = Some u -> Inv u.
Proof. intros H. apply UInt_of_int_Some in H. tauto. Qed.

Lemma UInt_of_vec_Inv (ds : list Z) (u : UInt) : UInt_of_vec ds = Some u -> Inv u.
Proof. apply normalize_Inv. Qed.

Lemma UInt_of_string_Inv (s : text) (u : UInt) : UInt_of_string s = Some u -> Inv u.
Proof.
  unfold UInt_of_string. intros H. inv_bind H. apply normalize_Inv in H. exact H.
Qed.

Lemma plus_long_Inv (a b r : UInt) : plus_long a b = Some r -> Inv r.
Proof. apply normalize_Inv. Qed.

Lemma plus_assign_int_Inv (a : UInt) (num : Z) (r : UInt) :
  plus_assign_int a num = Some r -> Inv r.
Proof.
  unfold plus_assign_int. intros H. inv_bind H.
  destruct (num >=? BASE).
  - inv_bind H. apply plus_long_Inv in H. exact H.
  - apply normalize_Inv in H. exact H.
Qed.

Lemma plus_assign_Inv (a b r : UInt) : plus_assign a b = Some r -> Inv r.
Proof.
  unfold plus_assign. destruct (size b =? 1);
    [apply plus_assign_int_Inv | apply plus_long_Inv].
Qed.

Lemma minus_long_Inv (a b r : UInt) : minus_long a b = Some r -> Inv r.
Proof.
  unfold minus_long. intros H. inv_bind H.
  destruct (minus_loop (digits a) (digits b) 0) as [ds rem].
  inv_bind H. apply normalize_Inv in H. exact H.
Qed.

Lemma minus_assign_int_Inv (a : UInt) (num : Z) (r : UInt) :
  minus_assign_int a num = Some r -> Inv r.
Proof.
  unfold minus_assign_int. intros H. inv_bind H.
  destruct (num >=? BASE).
  - inv_bind H. apply minus_long_Inv in H. exact H.
  - destruct (minus_int_loop (digits a) (- num)) as [ds rem].
    inv_bind H. apply normalize_Inv in H. exact H.
Qed.

Lemma minus_assign_Inv (a b r : UInt) : minus_assign a b = Some r -> Inv r.
Proof.
  unfold minus_assign. destruct (size b =? 1);
    [apply minus_assign_int_Inv | apply minus_long_Inv].
Qed.

Lemma slow_long_Inv (a b r : UInt) : slow_long a b = Some r -> Inv r.
Proof.
  unfold slow_long. intros H. inv_bind H. apply UInt_of_vec_Inv in H. exact H.
Qed.

Section ReturnsNormalised.
Context {rt : FloatRuntime}.

Lemma fast_long_Inv (a b r : UInt) : fast_long a b = Some r -> Inv r.
Proof.
  unfold fast_long. intros H. inv_bind H. apply UInt_of_vec_Inv in H. exact H.
Qed.

Lemma mult_long_Inv (a b r : UInt) : mult_long a b = Some r -> Inv r.
Proof.
  unfold mult_long. destruct (use_fast a b);
    [apply fast_long_Inv | apply slow_long_Inv].
Qed.

Lemma times_assign_int_Inv (a : UInt) (num : Z) (r : UInt) :
  times_assign_int a num = Some r -> Inv r.
Proof.
  unfold times_assign_int. intros H. inv_bind H.
  destruct (num >=? BASE).
  - inv_bind H. apply mult_long_Inv in H. exact H.
  - apply normalize_Inv in H. exact H.
Qed.

Lemma slow_mult_Inv (a b r : UInt) : slow_mult a b = Some r -> Inv r.
Proof.
  unfold slow_mult, op_times_int. destruct (size b =? 1);
    [apply times_assign_int_Inv | apply slow_long_Inv].
Qed.

Lemma fast_mult_Inv (a b r : UInt) : fast_mult a b = Some r -> Inv r.
Proof.
  unfold fast_mult, op_times_int. destruct (size b =? 1);
    [apply times_assign_int_Inv | apply fast_long_Inv].
Qed.

Lemma mult_Inv (a b r : UInt) : mult a b = Some r -> Inv r.
Proof.
  unfold mult. destruct (use_fast a b);
    [apply fast_mult_Inv | apply slow_mult_Inv].
Qed.

Lemma div_assign_int_with_Inv dm (a : UInt) (num : Z) (q : UInt) :
  returns_Inv dm -> div_assign_int_with dm a num = Some q -> Inv q.
Proof.
  intros Hdm. unfold div_assign_int_with. intros H. inv_bind H.
  destruct (num >=? BASE).
  - inv_bind H. destruct x1 as [q' r']. injection H as <-.
    apply Hdm in Hx1. tauto.
  - apply normalize_Inv in H. exact H.
Qed.

Lemma div_mod_with_Inv dm : returns_Inv dm -> returns_Inv (div_mod_with dm).
Proof.
  intros Hdm a b q r. unfold div_mod_with.
  destruct (size b =? 1); intros H; inv_bind H.
  - injection H as <- <-. split.
    + eapply div_assign_int_with_Inv; eauto.
    + eapply UInt_of_int_Inv; eauto.
  - destruct x2 as [q' r']. inv_bind H. injection H as <- <-. split.
    + eapply normalize_Inv; eauto.
    + eapply div_assign_int_with_Inv; eauto.
Qed.

Lemma div_mod_at_Inv (depth : nat) : returns_Inv (div_mod_at depth).
Proof.
  induction depth as [|depth IH]; cbn [div_mod_at]; apply div_mod_with_Inv.
  - intros a b q r H. discriminate.
  - exact IH.
Qed.

Lemma div_mod_Inv (a b q r : UInt) : div_mod a b = Some (q, r) -> Inv q /\ Inv r.
Proof. apply div_mod_at_Inv. Qed.

Lemma op_div_Inv (a b q : UInt) : op_div a b = Some q -> Inv q.
Proof.
  unfold op_div. intros H. inv_bind H. destruct x as [q' r'].
  injection H as <-. apply div_mod_Inv in Hx. tauto.
Qed.

Lemma op_mod_Inv (a b r : UInt) : op_mod a b = Some r -> Inv r.
Proof.
  unfold op_mod. intros H. inv_bind H. destruct x as [q' r'].
  injection H as <-. apply div_mod_Inv in Hx. tauto.
Qed.

Lemma div_assign_int_Inv (a : UInt) (num : Z) (q : UInt) :
  div_assign_int a num = Some q -> Inv q.
Proof. apply div_assign_int_with_Inv. exact (div_mod_at_Inv 1). Qed.

Lemma pow_Inv (a : UInt) (n m : Z) (r : UInt) : pow a n m = Some r -> Inv r.
Proof.
  unfold pow. intros H. inv_bind H. destruct x0 as [[res a'] n'].
  injection H as <-. cbn [fst].
  apply UInt_of_int_Inv in Hx.
  apply (while_partial (UInt * UInt * Z) pow_cond
           (pow_body (if m =? -1 then None else Some m))
           (fun st => Inv (fst (fst st)))) in Hx0.
  - cbn [fst] in Hx0. tauto.
  - intros [[r1 a1] n1] [[r2 a2] n2] Hi _ Hb. cbn [fst] in *.
    unfold pow_body in Hb. inv_bind Hb. injection Hb as <- _ _.
    destruct (negb (Z.rem n1 2 =? 0)).
    + apply mult_Inv in Hx1. exact Hx1.
    + injection Hx1 as <-. exact Hi.
  - exact Hx.
Qed.

Lemma gcd_Inv (a b g : UInt) : Inv a -> Inv b -> gcd a b = Some g -> Inv g.
Proof.
  intros Ha Hb. unfold gcd. intros H. inv_bind H. destruct x as [a' b'].
  injection H as <-.
  apply (while_partial (UInt * UInt) gcd_cond gcd_body
           (fun st => Inv (fst st) /\ Inv (snd st))) in Hx.
  - cbn [fst] in Hx. tauto.
  - intros [a1 b1] [a2 b2] [Hi1 Hi2] _ Hbd. cbn [fst snd] in *.
    unfold gcd_body in Hbd. cbn [fst snd] in Hbd. inv_bind Hbd.
    injection Hbd as <- <-. split; [exact Hi2|].
    apply op_mod_Inv in Hx0. exact Hx0.
  - cbn [fst snd]. auto.
Qed.
End ReturnsNormalised.

(** ** The nesting of the division operators *)

Lemma bind_ext {A B : Type} (m : option A) (f g : A -> option B) :
  (forall a, f a = g a) -> bind m f = bind m g.
Proof. intros H. destruct m; cbn [bind]; [apply H | reflexivity]. Qed.

Lemma back_range (u : UInt) : Inv u -> 0 <= back u < BASE.
Proof.
  intros Hu. unfold back.
  destruct (exists_last (Inv_nonempty u Hu)) as (init & d & E).
  pose proof (Inv_Digits u Hu) as HD. rewrite E in *. rewrite last_last.
  apply Digits_app in HD. destruct HD as [_ HD]. apply Digits_cons in HD. tauto.
Qed.

Lemma escalated_of_int (num : Z) (o : UInt) :
  UInt_of_int num = Some o -> BASE <= num -> escalated o.
Proof.
  intros Ho Hn. destruct (UInt_of_int_large num o Ho Hn) as [Hs Hb].
  apply UInt_of_int_Inv in Ho. pose proof (back_range o Ho).
  split; lia.
Qed.

Section Nesting.
Context {rt : FloatRuntime}.

Lemma div_assign_int_with_short (dm1 dm2 : UInt -> UInt -> option (UInt * UInt))
      (a : UInt) (num : Z) :
  num < BASE -> div_assign_int_with dm1 a num = div_assign_int_with dm2 a num.
Proof.
  intros Hn. unfold div_assign_int_with. apply bind_ext. intros _.
  destruct (Z.geb_spec num BASE); [lia | reflexivity].
Qed.

Lemma div_assign_int_with_ext (dm1 dm2 : UInt -> UInt -> option (UInt * UInt))
      (a : UInt) (num : Z) :
  (forall x o, escalated o -> dm1 x o = dm2 x o) ->
  div_assign_int_with dm1 a num = div_assign_int_with dm2 a num.
Proof.
  intros H. unfold div_assign_int_with. apply bind_ext. intros _.
  destruct (Z.geb_spec num BASE) as [Hge|]; [|reflexivity].
  destruct (UInt_of_int num) as [o|] eqn:Ho; [|reflexivity]. cbn [bind].
  rewrite (H a o); [reflexivity|]. eapply escalated_of_int; eauto.
Qed.

(** On an escalated divisor [div_mod] takes the long path with a [norm]
    below [BASE], and so makes no nested call. *)
Lemma div_mod_with_escalated (dm1 dm2 : UInt -> UInt -> option (UInt * UInt))
      (x o : UInt) :
  escalated o -> div_mod_with dm1 x o = div_mod_with dm2 x o.
Proof.
  intros [Hs Hb]. unfold div_mod_with.
  destruct (Z.eqb_spec (size o) 1); [contradiction|].
  apply bind_ext. intros _. apply bind_ext. intros a'.
  apply bind_ext. intros b. apply bind_ext. intros [q r].
  apply bind_ext. intros q'.
  rewrite (div_assign_int_with_short dm1 dm2); [reflexivity|].
  rewrite Z.quot_div_nonneg by (pose proof BASE_pos; lia).
  apply Z.div_lt_upper_bound; [lia|]. rewrite BASE_eq in *. nia.
Qed.

Lemma div_mod_with_ext (dm1 dm2 : UInt -> UInt -> option (UInt * UInt))
      (a b : UInt) :
  (forall x o, escalated o -> dm1 x o = dm2 x o) ->
  div_mod_with dm1 a b = div_mod_with dm2 a b.
Proof.
  intros H. unfold div_mod_with. destruct (size b =? 1).
  - rewrite (div_assign_int_with_ext dm1 dm2 a _ H). reflexivity.
  - apply bind_ext. intros _. apply bind_ext. intros a'.
    apply bind_ext. intros b'. apply bind_ext. intros [q r].
    apply bind_ext. intros q'.
    rewrite (div_assign_int_with_ext dm1 dm2 r _ H). reflexivity.
Qed.

(** One level of nesting is all [div_mod] ever uses: deeper nestings
    compute the same function. *)
Lemma div_mod_at_stable (depth : nat) (a b : UInt) :
  div_mod_at (S depth) a b = div_mod a b.
Proof.
  unfold div_mod. destruct depth as [|depth]; [reflexivity|].
  change (div_mod_at (S (S depth)) a b)
    with (div_mod_with (div_mod_at (S depth)) a b).
  change (div_mod_at 1 a b) with (div_mod_with (div_mod_at 0) a b).
  apply div_mod_with_ext. intros x o Ho.
  change (div_mod_at (S depth) x o)
    with (div_mod_with (div_mod_at depth) x o).
  change (div_mod_at 0 x o) with (div_mod_with (fun _ _ => None) x o).
  apply div_mod_with_escalated. exact Ho.
Qed.

(** The escalation of [operator/=(int64_t)], as the source writes it:
    [return *this /= UInt(num)], that is [*this = *this / UInt(num)]. *)
Lemma div_assign_int_escalates (a : UInt) (num : Z) :
  BASE <= num ->
  div_assign_int a num = do o <- UInt_of_int num; op_div a o.
Proof.
  intros Hn. unfold div_assign_int, div_assign_int_with, op_div.
  rewrite assert_true by (apply Z.gtb_lt; pose proof BASE_pos; lia).
  cbn [bind]. destruct (Z.geb_spec num BASE); [reflexivity | lia].
Qed.
End Nesting.

(** ** Every operation returns on operands that meet its precondition *)

Lemma UInt_of_string_ok (s : text) :
  valid_decimal s = true -> exists u, UInt_of_string s = Some u /\ Inv u.
Proof.
  intros Hv. apply valid_decimal_spec in Hv. destruct Hv as [Hne Hd].
  assert (0 < length s)%nat as Hlen by (destruct s; [congruence | cbn; lia]).
  pose proof (Nat.div_mod_eq (length s) WIDTH) as Hdm.
  pose proof (Nat.mod_upper_bound (length s) WIDTH ltac:(discriminate)) as Hmb.
  unfold UInt_of_string.
  destruct (string_groups_spec s (length s / WIDTH) 0) as (ds & Eg & Hl & HD & _);
    [lia | exact Hd |].
  rewrite Eg. cbn [bind].
  assert (exists top,
            (if negb (length s mod WIDTH =? 0)%nat
             then do d <- stoi (substr s 0 (length s mod WIDTH)); Some [d]
             else Some []) = Some top /\ Digits top /\ ds ++ top <> [])
    as (top & Et & HDt & Hne').
  { destruct (Nat.eqb_spec (length s mod WIDTH) 0) as [Hm|Hm]; cbn [negb].
    - exists []. split; [reflexivity|]. split; [constructor|].
      rewrite app_nil_r. intros E. rewrite E in Hl. cbn [length] in Hl. lia.
    - set (chunk := substr s 0 (length s mod WIDTH)).
      assert (length chunk = length s mod WIDTH)%nat as Hcl
        by (apply substr_length; lia).
      assert (all_digits chunk) as Hcd
        by (apply all_digits_firstn, all_digits_skipn, Hd).
      rewrite stoi_digits; trivial.
      + cbn [bind]. exists [dec chunk]. split; [reflexivity|]. split.
        * apply Digits_cons. split; [|constructor].
          apply dec_digit; [exact Hcd | unfold WIDTH in *; lia].
        * intros E. apply app_eq_nil in E. destruct E; discriminate.
      + intros E. rewrite E in Hcl. cbn [length] in Hcl. lia.
      + unfold WIDTH in *. lia. }
  rewrite Et. cbn [bind].
  destruct (normalize_ok (ds ++ top) Hne') as (u & Hu & Hi & _).
  { apply Digits_app. split; assumption. }
  eauto.
Qed.

Section Totality.
Context {rt : FloatRuntime}.
Hypothesis Hexact : transform_exact.

Lemma transform_exact_sound : spectral_sound.
Proof. apply fft_exact_sound, transform_exact_fft_exact. exact Hexact. Qed.

Lemma times_assign_int_total (a : UInt) (num : Z) :
  Inv a -> 0 <= num ->
  exists r, times_assign_int a num = Some r /\ Inv r /\ value r = value a * num.
Proof.
  intros Ha Hn.
  destruct (UInt_of_int_ok num Hn) as (o & Ho & Hoi & Hov).
  pose proof (value_upper o Hoi) as Hu. pose proof (Inv_size o Hoi) as Hs.
  apply (times_assign_int_ok (Z.max 2 (size o)) a num); trivial; try lia;
    try apply transform_exact_sound.
  split; [assumption|]. rewrite <- Hov.
  eapply Z.lt_le_trans; [exact Hu|].
  apply Z.pow_le_mono_r; [exact BASE_pos | lia].
Qed.

Lemma slow_mult_ok (a b : UInt) :
  Inv a -> Inv b ->
  exists r, slow_mult a b = Some r /\ Inv r /\ value r = value a * value b.
Proof.
  intros Ha Hb. unfold slow_mult, op_times_int.
  destruct (Z.eqb_spec (size b) 1) as [Hs|Hs].
  - destruct (size_one b Hb Hs) as (_ & Hd & Hv). rewrite Hv.
    apply times_assign_int_short; assumption.
  - apply slow_long_ok; assumption.
Qed.

Lemma fast_mult_ok (a b : UInt) :
  Inv a -> Inv b ->
  exists r, fast_mult a b = Some r /\ Inv r /\ value r = value a * value b.
Proof.
  intros Ha Hb. unfold fast_mult, op_times_int.
  pose proof (Inv_size b Hb).
  destruct (Z.eqb_spec (size b) 1) as [Hs|Hs].
  - destruct (size_one b Hb Hs) as (_ & Hd & Hv). rewrite Hv.
    apply times_assign_int_short; assumption.
  - apply fast_long_ok. apply (transform_exact_fft_exact Hexact); trivial. lia.
Qed.

Lemma div_assign_int_ok (a : UInt) (num : Z) :
  Inv a -> 0 < num ->
  exists q, div_assign_int a num = Some q /\ Inv q /\ value q = value a / num.
Proof.
  intros Ha Hn. destruct (Z_lt_le_dec num BASE) as [Hlt|Hge].
  - apply div_assign_int_short; [assumption | lia].
  - rewrite div_assign_int_escalates by assumption.
    destruct (UInt_of_int_ok num ltac:(lia)) as (o & Ho & Hoi & Hov).
    rewrite Ho. cbn [bind]. rewrite <- Hov.
    apply (op_div_ok (transform_exact_sound 2)); trivial. lia.
Qed.

Lemma perform_total (op : operation) :
  requires op -> exists r, perform op = Some r /\ Inv r.
Proof.
  destruct op; cbn [requires perform]; intros H.
  - destruct (UInt_of_int_ok number H) as (u & ? & ? & _). eauto.
  - apply UInt_of_string_ok. exact H.
  - destruct H as [Hne HD]. destruct (normalize_ok ds Hne HD) as (u & ? & ? & _).
    eauto.
  - destruct H as [Ha Hn].
    destruct (plus_assign_int_ok a num Ha Hn) as (r & ? & ? & _). eauto.
  - destruct H as [Ha Hb].
    destruct (plus_assign_ok a b Ha Hb) as (r & ? & ? & _). eauto.
  - destruct H as [Ha Hn].
    destruct (minus_assign_int_ok a num Ha Hn) as (r & ? & ? & _). eauto.
  - destruct H as (Ha & Hb & Hle).
    destruct (minus_assign_ok a b Ha Hb Hle) as (r & ? & ? & _). eauto.
  - destruct H as [Ha Hn].
    destruct (times_assign_int_total a num Ha Hn) as (r & ? & ? & _). eauto.
  - destruct H as [Ha Hb].
    destruct (times_assign_ok transform_exact_sound a b Ha Hb) as (r & ? & ? & _). eauto.
  - destruct H as [Ha Hn].
    destruct (div_assign_int_ok a num Ha Hn) as (r & ? & ? & _). eauto.
  - destruct H as (Ha & Hb & Hpos).
    destruct (op_div_ok (transform_exact_sound 2) a b Ha Hb Hpos) as (r & ? & ? & _). eauto.
  - destruct H as (Ha & Hb & Hpos).
    destruct (op_mod_ok (transform_exact_sound 2) a b Ha Hb Hpos) as (r & ? & ? & _). eauto.
  - destruct H as [Ha Hb].
    destruct (slow_mult_ok a b Ha Hb) as (r & ? & ? & _). eauto.
  - destruct H as [Ha Hb].
    destruct (fast_mult_ok a b Ha Hb) as (r & ? & ? & _). eauto.
  - destruct H as [Ha Hb].
    destruct (times_assign_ok transform_exact_sound a b Ha Hb) as (r & ? & ? & _). eauto.
  - destruct H as [Ha Hn]. unfold int_op_plus, op_times_int.
    destruct (times_assign_int_total x s Ha Hn) as (r & ? & ? & _). eauto.
  - destruct H as [Ha Hn]. unfold int_op_times, op_times_int.
    destruct (times_assign_int_total x s Ha Hn) as (r & ? & ? & _). eauto.
  - destruct H as (Ha & Hn & [->|Hm]).
    + destruct (pow_exact_ok transform_exact_sound a n Ha Hn) as (r & ? & ? & _). eauto.
    + destruct (pow_mod_ok transform_exact_sound a n modulus Ha Hn Hm) as (r & ? & ? & _). eauto.
  - destruct H as [Ha Hb].
    destruct (gcd_ok (transform_exact_sound 2) a b Ha Hb) as (r & ? & ? & _). eauto.
Qed.

Lemma perform_Inv (op : operation) (r : UInt) :
  operands_kept op -> perform op = Some r -> Inv r.
Proof.
  destruct op; cbn [operands_kept perform]; intros Hk H.
  - eapply UInt_of_int_Inv; exact H.
  - eapply UInt_of_string_Inv; exact H.
  - eapply UInt_of_vec_Inv; exact H.
  - eapply plus_assign_int_Inv; exact H.
  - eapply plus_assign_Inv; exact H.
  - eapply minus_assign_int_Inv; exact H.
  - eapply minus_assign_Inv; exact H.
  - eapply times_assign_int_Inv; exact H.
  - eapply mult_Inv; exact H.
  - eapply div_assign_int_Inv; exact H.
  - eapply op_div_Inv; exact H.
  - eapply op_mod_Inv; exact H.
  - eapply slow_mult_Inv; exact H.
  - eapply fast_mult_Inv; exact H.
  - eapply mult_Inv; exact H.
  - eapply times_assign_int_Inv; exact H.
  - eapply times_assign_int_Inv; exact H.
  - eapply pow_Inv; exact H.
  - destruct Hk as [Ha Hb]. exact (gcd_Inv a b r Ha Hb H).
Qed.
End Totality.

Lemma exact_runtime_sound : spectral_sound (rt := exact_runtime).
Proof. apply transform_exact_sound. exact exact_runtime_transform_exact. Qed.

(** * The properties of the specification *)

(** C1.  Division identity: for every [a] and every [b > 0], [div_mod]
    returns a pair [(q, r)] with [q * b + r = a] and [r < b], on the
    single-digit fast path and on the normalised long division alike.  The
    runtime is only asked for a sane cost estimate: the divider then never
    takes the spectral multiplier. *)
Theorem div_mod_identity {rt : FloatRuntime} (a b : UInt) :
  cost_sane -> Inv a -> Inv b -> 0 < value b ->
  exists q r,
    div_mod a b = Some (q, r) /\ Inv q /\ Inv r /\
    value q * value b + value r = value a /\
    value r < value b /\ op_lt r b = true.
Proof.
  intros Hc Ha Hb Hpos.
  pose proof (spectral_ok_mono 15 2 ltac:(lia) (cost_sane_spectral_ok Hc)) as Hsp.
  destruct (div_mod_ok Hsp a b Ha Hb Hpos) as (q & r & E & Hq & Hr & Hvq & Hvr).
  exists q, r. split; [exact E|]. split; [exact Hq|]. split; [exact Hr|].
  pose proof (Z.div_mod (value a) (value b) ltac:(lia)) as Hdm.
  pose proof (Z.mod_pos_bound (value a) (value b) Hpos) as Hmb.
  split; [rewrite Hvq, Hvr; lia|]. split; [lia|].
  rewrite op_lt_value by assumption. apply Z.ltb_lt. lia.
Qed.

Lemma div_mod_identity_witness :
  exists q r,
    div_mod (rt := exact_runtime) (mkUInt [0; 0; 100]) (mkUInt [7]) = Some (q, r) /\
    Inv q /\ Inv r /\
    value q * value (mkUInt [7]) + value r = value (mkUInt [0; 0; 100]) /\
    value r < value (mkUInt [7]) /\ op_lt r (mkUInt [7]) = true.
Proof.
  apply (div_mod_identity (rt := exact_runtime)).
  - exact exact_runtime_cost_sane.
  - apply wf_Inv. reflexivity.
  - apply wf_Inv. reflexivity.
  - reflexivity.
Defined.


(** The loop body of [pow] on a single-digit base: both multipliers take
    their scalar shortcut, whatever the selector says. *)
Lemma pow_body_single {rt : FloatRuntime} (res a : UInt) (n m : Z) :
  size a = 1 ->
  pow_body (Some m) (res, a, n) =
  do res <- (if negb (Z.rem n 2 =? 0)
             then op_times_int res (nth 0 (digits a) 0)
             else Some res);
  do a <- op_times_int a (nth 0 (digits a) 0);
  do a <- (do mu <- UInt_of_int m; op_mod a mu);
  Some (res, a, Z.quot n 2).
Proof.
  intros Hs. unfold pow_body, times_assign, op_times.
  rewrite !mult_single by exact Hs. reflexivity.
Qed.

(** The same two values on every runtime. *)
Lemma pow_single_digit_any_runtime {rt : FloatRuntime} :
  pow (mkUInt [5]) 1 3 = Some (mkUInt [5]) /\
  pow (mkUInt [2]) 1 3 = Some (mkUInt [2]).
Proof.
  split; unfold pow, while;
    change (UInt_of_int 1) with (Some (mkUInt [1])); cbn [bind Z.eqb];
    cbv beta iota; cbn [run Z.log2 Z.to_nat Pos.to_nat Pos.iter_op];
    unfold pow_cond at 1; cbn [snd Z.gtb Z.compare];
    rewrite pow_body_single by reflexivity;
    vm_compute; reflexivity.
Qed.

(** C4.  The code at [s = 2], [x = 3]: [s + x] is the product 6, [x + s]
    is the sum 5 (on every runtime: the operands are single digits). *)
Theorem int_plus_multiplies {rt : FloatRuntime} :
  int_op_plus 2 (mkUInt [3]) = Some (mkUInt [6]) /\
  op_plus_int (mkUInt [3]) 2 = Some (mkUInt [5]).
Proof. split; reflexivity. Qed.

(** [int64_t + UInt] is [int64_t * UInt]: the two operators have one
    body. *)
Lemma int_op_plus_is_times {rt : FloatRuntime} (s : Z) (x : UInt) :
  int_op_plus s x = int_op_times s x.
Proof. reflexivity. Qed.

Lemma int_op_plus_value {rt : FloatRuntime} (s : Z) (x : UInt) :
  Inv x -> 0 <= s < BASE ->
  exists r, int_op_plus s x = Some r /\ Inv r /\ value r = value x * s.
Proof. intros Hx Hs. apply times_assign_int_short; assumption. Qed.

(** C5.  Representation invariant: whatever a constructor or an arithmetic
    operation returns is non-empty, has every digit in [[0, BASE)] and has
    no most-significant zero unless it is the single digit 0; and each of
    them does return on operands that meet its precondition (the spectral
    multiplier when its transform is exact). *)
Theorem representation_invariant {rt : FloatRuntime} (op : operation) :
  (forall r, operands_kept op -> perform op = Some r ->
             Inv r /\ wf r = true /\ (value r = 0 <-> digits r = [0])) /\
  (transform_exact -> requires op -> exists r, perform op = Some r /\ Inv r).
Proof.
  split.
  - intros r Hk H. pose proof (perform_Inv op r Hk H) as Hi.
    split; [exact Hi|]. split; [apply wf_Inv; exact Hi|].
    apply value_zero. exact Hi.
  - intros Hexact Hreq. apply perform_total; assumption.
Qed.

Lemma representation_invariant_witness :
  Inv (mkUInt [0; 1]) /\ wf (mkUInt [0; 1]) = true /\
  (value (mkUInt [0; 1]) = 0 <-> digits (mkUInt [0; 1]) = [0]).
Proof.
  apply (proj1 (representation_invariant (rt := exact_runtime)
                  (PlusAssignInt (mkUInt [999999999]) 1))).
  - exact I.
  - reflexivity.
Defined.

(** C6.  Decimal round trip: for every valid decimal string [s] without
    leading zeros, formatting the parsed value gives [s] back. *)
Theorem format_parse_roundtrip (s : text) :
  valid_decimal s = true -> no_leading_zero s = true ->
  exists u, parse s = Some u /\ Inv u /\ format u = Some s.
Proof. apply format_parse. Qed.

Lemma format_parse_roundtrip_witness :
  exists u,
    parse Scenario.quintillion = Some u /\
    Inv u /\
    format u = Some Scenario.quintillion.
Proof.
  apply (format_parse_roundtrip Scenario.quintillion).
  - reflexivity.
  - reflexivity.
Defined.

(** C7.  Comparator consistency: on normalised values [compare] is
    negative, zero or positive exactly as the numbers compare, the six
    derived operators are the six numeric comparisons, [==] is equality of
    representations, and [<=] is a total order. *)
Theorem compare_consistent (a b c : UInt) :
  Inv a -> Inv b -> Inv c ->
  (compare a b < 0 <-> value a < value b) /\
  (compare a b = 0 <-> value a = value b) /\
  (compare a b > 0 <-> value a > value b) /\
  op_lt a b = (value a <? value b) /\
  op_gt a b = (value a >? value b) /\
  op_le a b = (value a <=? value b) /\
  op_ge a b = (value a >=? value b) /\
  op_eq a b = (value a =? value b) /\
  op_ne a b = negb (value a =? value b) /\
  (op_eq a b = true <-> a = b) /\
  op_le a a = true /\
  (op_le a b = true -> op_le b a = true -> a = b) /\
  (op_le a b = true -> op_le b c = true -> op_le a c = true) /\
  (op_le a b = true \/ op_le b a = true).
Proof.
  intros Ha Hb Hc.
  assert (forall x y, Inv x -> Inv y ->
            op_le x y = (value x <=? value y)) as Hle.
  { intros x y Hx Hy. unfold op_le. rewrite compare_value by assumption.
    destruct (Z.compare_spec (value x) (value y));
      destruct (Z.leb_spec (value x) (value y)); cbn; try reflexivity; lia. }
  rewrite !Hle by assumption. unfold op_lt, op_gt, op_ge, op_eq, op_ne.
  rewrite compare_value by assumption.
  split; [apply sign_of_lt|]. split; [apply sign_of_eq|].
  split; [apply sign_of_gt|].
  assert (a = b <-> value a = value b) as Heq.
  { split; [intros ->; reflexivity | apply Inv_value_inj; assumption]. }
  destruct (Z.compare_spec (value a) (value b)) as [E|E|E];
    destruct (Z.ltb_spec (value a) (value b));
    destruct (Z.gtb_spec (value a) (value b));
    destruct (Z.leb_spec (value a) (value b));
    destruct (Z.geb_spec (value a) (value b));
    destruct (Z.eqb_spec (value a) (value b));
    destruct (Z.leb_spec (value b) (value a));
    destruct (Z.leb_spec (value b) (value c));
    destruct (Z.leb_spec (value a) (value c));
    destruct (Z.leb_spec (value a) (value a));
    cbn [sign_of Z.ltb Z.gtb Z.geb Z.eqb Z.leb Z.compare negb]; try lia;
    repeat split; try reflexivity; try tauto; try discriminate; try lia;
    try (intros; apply Heq; lia).
Qed.

Lemma compare_consistent_witness :
  (compare (mkUInt [5]) (mkUInt [0; 1]) < 0
   <-> value (mkUInt [5]) < value (mkUInt [0; 1])) /\
  op_lt (mkUInt [5]) (mkUInt [0; 1]) = true.
Proof.
  pose proof (compare_consistent (mkUInt [5]) (mkUInt [0; 1]) (mkUInt [7])) as H.
  destruct H as (H1 & _ & _ & H4 & _).
  - apply wf_Inv. reflexivity.
  - apply wf_Inv. reflexivity.
  - apply wf_Inv. reflexivity.
  - split; [exact H1 | reflexivity].
Defined.

(** C9.  gcd: on normalised operands the Euclidean loop terminates and
    returns the greatest common divisor; [gcd(a, 0)] is [a], and for
    [b > 0] the step replaces [(a, b)] by [(b, a mod b)], whose second
    component is below [b], and [gcd(a, b) = gcd(b, a mod b)]. *)
Theorem gcd_euclid {rt : FloatRuntime} (a b : UInt) :
  cost_sane -> Inv a -> Inv b ->
  exists g,
    gcd a b = Some g /\ Inv g /\ value g = Z.gcd (value a) (value b) /\
    (value b = 0 -> g = a) /\
    (0 < value b ->
     exists r, gcd_body (a, b) = Some (b, r) /\
               value r = value a mod value b /\ value r < value b /\
               gcd b r = Some g).
Proof.
  intros Hc Ha Hb.
  pose proof (spectral_ok_mono 15 2 ltac:(lia) (cost_sane_spectral_ok Hc)) as Hsp.
  destruct (gcd_ok Hsp a b Ha Hb) as (g & Eg & Hig & Hvg).
  exists g. split; [exact Eg|]. split; [exact Hig|]. split; [exact Hvg|].
  pose proof (value_nonneg a Ha) as Ha0.
  split.
  - intros Hz. apply Inv_value_inj; trivial.
    rewrite Hvg, Hz, Z.gcd_0_r. lia.
  - intros Hpos.
    destruct (op_mod_ok Hsp a b Ha Hb Hpos) as (r & Er & Hir & Hvr).
    exists r. unfold gcd_body. cbn [fst snd]. rewrite Er. cbn [bind].
    split; [reflexivity|]. split; [exact Hvr|].
    pose proof (Z.mod_pos_bound (value a) (value b) Hpos) as Hmb.
    split; [lia|].
    destruct (gcd_ok Hsp b r Hb Hir) as (g' & Eg' & Hig' & Hvg').
    rewrite Eg'. f_equal. apply Inv_value_inj; trivial.
    rewrite Hvg, Hvg', Hvr.
    rewrite (Z.gcd_comm (value b)), Z.gcd_mod by lia. apply Z.gcd_comm.
Qed.

Lemma gcd_euclid_witness :
  exists g,
    gcd (rt := exact_runtime) (mkUInt [48]) (mkUInt [18]) = Some g /\ Inv g /\
    value g = Z.gcd (value (mkUInt [48])) (value (mkUInt [18])) /\
    (value (mkUInt [18]) = 0 -> g = mkUInt [48]) /\
    (0 < value (mkUInt [18]) ->
     exists r, gcd_body (rt := exact_runtime) (mkUInt [48], mkUInt [18])
               = Some (mkUInt [18], r) /\
               value r = value (mkUInt [48]) mod value (mkUInt [18]) /\
               value r < value (mkUInt [18]) /\
               gcd (rt := exact_runtime) (mkUInt [18]) r = Some g).
Proof.
  apply (gcd_euclid (rt := exact_runtime)).
  - exact exact_runtime_cost_sane.
  - apply wf_Inv. reflexivity.
  - apply wf_Inv. reflexivity.
Defined.

(** * Further properties of the engine *)

(** ** Constructors and the normaliser *)

Lemma Digits_repeat_app (k : nat) (ds : list Z) :
  Digits ds -> Digits (repeat 0 k ++ ds).
Proof.
  intros H. apply Digits_app. split; [apply Digits_repeat0 | exact H].
Qed.

Lemma normalize_shape (u v : UInt) :
  normalize u = Some v ->
  digits u <> [] /\ Digits (digits u) /\
  exists k, digits u = digits v ++ repeat 0 k.
Proof.
  unfold normalize. destruct (digits u) as [|d t] eqn:E; [discriminate|].
  intros H. inv_bind H. injection H as <-. cbn [digits].
  apply assert_Some, forallb_digit_ok in Hx.
  destruct (pop_zeros_suffix (rev (d :: t))) as (k & Hk).
  assert (d :: t = rev (pop_zeros (rev (d :: t))) ++ repeat 0 k) as Hs.
  { rewrite <- (rev_involutive (d :: t)) at 1. rewrite Hk at 1.
    rewrite rev_app_distr. f_equal.
    clear. induction k as [|k IH]; [reflexivity|].
    cbn [repeat rev]. rewrite IH. clear.
    induction k as [|k IH]; [reflexivity|]. cbn [repeat app]. f_equal. exact IH. }
  split; [discriminate|]. split; [|exists k; exact Hs].
  rewrite Hs. apply Digits_app. split; [exact Hx | apply Digits_repeat0].
Qed.

(** X1.  [UInt(int64_t number)] rejects a negative number and otherwise
    builds the normalised representation of [number]: a single digit
    below [BASE], two digits or more from [BASE] on. *)
Theorem of_int_represents (number : Z) :
  (number < 0 -> UInt_of_int number = None) /\
  (0 <= number ->
   exists u, UInt_of_int number = Some u /\ Inv u /\ value u = number /\
             (number < BASE -> u = mkUInt [number]) /\
             (BASE <= number -> 2 <= size u)).
Proof.
  split.
  - intros H. unfold UInt_of_int.
    destruct (Z.geb_spec number 0); [lia | reflexivity].
  - intros H. destruct (UInt_of_int_ok number H) as (u & E & Hi & Hv).
    exists u. split; [exact E|]. split; [exact Hi|]. split; [exact Hv|]. split.
    + intros Hlt. rewrite UInt_of_int_small in E by lia. congruence.
    + intros Hge. apply (UInt_of_int_large number u E Hge).
Qed.

Lemma of_int_represents_witness :
  UInt_of_int (-5) = None /\
  exists u, UInt_of_int 1234567890123 = Some u /\ Inv u /\
            value u = 1234567890123 /\
            (1234567890123 < BASE -> u = mkUInt [1234567890123]) /\
            (BASE <= 1234567890123 -> 2 <= size u).
Proof.
  split.
  - apply (proj1 (of_int_represents (-5))). lia.
  - apply (proj2 (of_int_represents 1234567890123)). lia.
Defined.

(** X2.  [UInt(const std::vector<int64_t>&)] returns exactly on a
    non-empty vector whose digits all lie in [[0, BASE)]; the result is
    normalised, denotes the same number, is the input without its
    most-significant zeros, and normalising it again changes nothing. *)
Theorem of_vec_normalises (ds : list Z) :
  ((exists u, UInt_of_vec ds = Some u) <-> ds <> [] /\ Digits ds) /\
  (forall u, UInt_of_vec ds = Some u ->
             Inv u /\ value u = val ds /\ normalize u = Some u /\
             exists k, ds = digits u ++ repeat 0 k).
Proof.
  split.
  - split.
    + intros (u & H). apply normalize_shape in H. cbn [digits] in H. tauto.
    + intros (Hne & HD). destruct (normalize_ok ds Hne HD) as (u & E & _).
      exists u. exact E.
  - intros u H. destruct (UInt_of_vec_Some ds u H) as (Hi & Hv).
    split; [exact Hi|]. split; [exact Hv|]. split; [apply normalize_id, Hi|].
    apply normalize_shape in H. cbn [digits] in H. tauto.
Qed.

Lemma of_vec_normalises_witness :
  exists u, UInt_of_vec [7; 0; 5; 0; 0] = Some u /\
            Inv u /\ value u = val [7; 0; 5; 0; 0] /\ normalize u = Some u /\
            exists k, [7; 0; 5; 0; 0] = digits u ++ repeat 0 k.
Proof.
  exists (mkUInt [7; 0; 5]). split; [reflexivity|].
  apply (proj2 (of_vec_normalises [7; 0; 5; 0; 0])). reflexivity.
Defined.

(** ** Additive operators *)

(** X3.  Addition.  [a + b] always returns, normalised, the sum; the
    operator is commutative and [UInt(0)] is neutral, as values of type
    [UInt].  [a + num] for a scalar fails its assertion on a negative
    [num] and otherwise returns the sum, on the digit loop below [BASE]
    and through [UInt(num)] from [BASE] on. *)
Theorem plus_sum (a b : UInt) (num : Z) :
  Inv a -> Inv b ->
  (exists r, op_plus a b = Some r /\ Inv r /\ value r = value a + value b /\
             op_plus b a = Some r /\ op_plus a UInt0 = Some a) /\
  (num < 0 -> op_plus_int a num = None) /\
  (0 <= num ->
   exists r, op_plus_int a num = Some r /\ Inv r /\ value r = value a + num).
Proof.
  intros Ha Hb. split; [|split].
  - unfold op_plus.
    destruct (plus_assign_ok a b Ha Hb) as (r & E & Hi & Hv).
    destruct (plus_assign_ok b a Hb Ha) as (r' & E' & Hi' & Hv').
    destruct (plus_assign_ok a UInt0 Ha Inv_UInt0) as (z & Ez & Hiz & Hvz).
    exists r. split; [exact E|]. split; [exact Hi|]. split; [exact Hv|]. split.
    + rewrite E'. f_equal. apply Inv_value_inj; trivial. lia.
    + rewrite Ez. f_equal. apply Inv_value_inj; trivial.
      rewrite Hvz. unfold value, UInt0. cbn [val digits]. lia.
  - intros H. unfold op_plus_int, plus_assign_int.
    destruct (Z.geb_spec num 0); [lia | reflexivity].
  - intros H. apply plus_assign_int_ok; assumption.
Qed.

Lemma plus_sum_witness :
  (exists r, op_plus (mkUInt [999999999; 999999999]) (mkUInt [1]) = Some r /\
             Inv r /\
             value r = value (mkUInt [999999999; 999999999])
                       + value (mkUInt [1]) /\
             op_plus (mkUInt [1]) (mkUInt [999999999; 999999999]) = Some r /\
             op_plus (mkUInt [999999999; 999999999]) UInt0
             = Some (mkUInt [999999999; 999999999])) /\
  op_plus_int (mkUInt [999999999; 999999999]) (-1) = None /\
  (exists r, op_plus_int (mkUInt [999999999; 999999999]) 3000000000 = Some r /\
             Inv r /\
             value r = value (mkUInt [999999999; 999999999]) + 3000000000).
Proof.
  pose proof (plus_sum (mkUInt [999999999; 999999999]) (mkUInt [1]) (-1)
                ltac:(apply wf_Inv; reflexivity)
                ltac:(apply wf_Inv; reflexivity)) as H1.
  pose proof (plus_sum (mkUInt [999999999; 999999999]) (mkUInt [1]) 3000000000
                ltac:(apply wf_Inv; reflexivity)
                ltac:(apply wf_Inv; reflexivity)) as H2.
  split; [exact (proj1 H1)|]. split.
  - apply (proj1 (proj2 H1)). lia.
  - apply (proj2 (proj2 H2)). lia.
Defined.

Lemma minus_long_underflow (a b : UInt) :
  Inv a -> Inv b -> value a < value b -> minus_long a b = None.
Proof.
  intros Ha Hb Hlt. unfold minus_long.
  destruct (Z.geb_spec (size a) (size b)) as [Hs|Hs]; [|reflexivity].
  cbn [assert bind].
  pose proof (minus_loop_spec (digits a) (digits b) 0
                (Inv_Digits a Ha) (Inv_Digits b Hb) ltac:(lia)) as H.
  destruct (minus_loop (digits a) (digits b) 0) as [ds rem].
  destruct H as (HD & Hl & Hr & Hv).
  rewrite firstn_all2 in Hv by (unfold size in Hs; lia).
  pose proof (val_bounds ds HD) as Hb1.
  pose proof (BASE_pow_pos (length (digits a))) as Hp.
  unfold value in Hlt.
  destruct (Z.eqb_spec rem 0) as [->|Hne]; [lia | reflexivity].
Qed.

Lemma minus_assign_int_underflow (a : UInt) (num : Z) :
  Inv a -> value a < num -> minus_assign_int a num = None.
Proof.
  intros Ha Hlt. pose proof (value_nonneg a Ha) as Hnn.
  destruct (Z_lt_le_dec num BASE) as [Hs|Hl].
  - unfold minus_assign_int.
    rewrite assert_true by (apply Z.geb_le; lia). cbn [bind].
    destruct (Z.geb_spec num BASE) as [|_]; [lia|].
    pose proof (minus_int_loop_spec (digits a) (- num)
                  (Inv_Digits a Ha) ltac:(lia)) as H.
    destruct (minus_int_loop (digits a) (- num)) as [ds rem].
    destruct H as (HD & Hlen & Hr & Hv).
    pose proof (val_bounds ds HD) as Hb1.
    pose proof (BASE_pow_pos (length (digits a))) as Hp.
    unfold value in Hlt.
    destruct (Z.eqb_spec rem 0) as [->|Hne]; [lia | reflexivity].
  - rewrite minus_assign_int_escalates by assumption.
    destruct (UInt_of_int_ok num ltac:(lia)) as (o & Ho & Hoi & Hov).
    rewrite Ho. cbn [bind]. unfold minus_assign.
    destruct (UInt_of_int_large num o Ho Hl) as (Hsz & _).
    destruct (Z.eqb_spec (size o) 1) as [|_]; [lia|].
    apply minus_long_underflow; trivial. lia.
Qed.

Lemma minus_assign_underflow (a b : UInt) :
  Inv a -> Inv b -> value a < value b -> minus_assign a b = None.
Proof.
  intros Ha Hb Hlt. unfold minus_assign.
  destruct (Z.eqb_spec (size b) 1) as [Hs|Hs].
  - destruct (size_one b Hb Hs) as (_ & Hd & Hv).
    apply minus_assign_int_underflow; [assumption | lia].
  - apply minus_long_underflow; assumption.
Qed.

(** X4.  Subtraction.  [a - b] returns the difference when [b <= a],
    and otherwise fails one of the assertions of [operator-=]: there is
    no wrap-around and no negative result.  [a - num] for a scalar
    returns the difference when [0 <= num <= a] and fails an assertion
    on a negative [num] and on a [num] above [a]. *)
Theorem minus_difference (a b : UInt) (num : Z) :
  Inv a -> Inv b ->
  (value b <= value a ->
   exists r, op_minus a b = Some r /\ Inv r /\ value r = value a - value b) /\
  (value a < value b -> op_minus a b = None) /\
  (0 <= num <= value a ->
   exists r, op_minus_int a num = Some r /\ Inv r /\ value r = value a - num) /\
  (num < 0 \/ value a < num -> op_minus_int a num = None).
Proof.
  intros Ha Hb. unfold op_minus, op_minus_int. split; [|split; [|split]].
  - apply minus_assign_ok; assumption.
  - apply minus_assign_underflow; assumption.
  - apply minus_assign_int_ok; assumption.
  - intros [H|H].
    + unfold minus_assign_int.
      destruct (Z.geb_spec num 0); [lia | reflexivity].
    + apply minus_assign_int_underflow; assumption.
Qed.

Lemma minus_difference_witness :
  (exists r, op_minus (mkUInt [0; 1]) (mkUInt [1]) = Some r /\ Inv r /\
             value r = value (mkUInt [0; 1]) - value (mkUInt [1])) /\
  op_minus (mkUInt [1]) (mkUInt [0; 1]) = None /\
  (exists r, op_minus_int (mkUInt [0; 1]) 1 = Some r /\ Inv r /\
             value r = value (mkUInt [0; 1]) - 1) /\
  op_minus_int (mkUInt [5]) 6 = None.
Proof.
  pose proof (minus_difference (mkUInt [0; 1]) (mkUInt [1]) 1
                ltac:(apply wf_Inv; reflexivity)
                ltac:(apply wf_Inv; reflexivity)) as H1.
  pose proof (minus_difference (mkUInt [1]) (mkUInt [0; 1]) 0
                ltac:(apply wf_Inv; reflexivity)
                ltac:(apply wf_Inv; reflexivity)) as H2.
  pose proof (minus_difference (mkUInt [5]) (mkUInt [1]) 6
                ltac:(apply wf_Inv; reflexivity)
                ltac:(apply wf_Inv; reflexivity)) as H3.
  split; [|split; [|split]].
  - apply (proj1 H1). vm_compute. discriminate.
  - apply (proj1 (proj2 H2)). reflexivity.
  - apply (proj1 (proj2 (proj2 H1))). vm_compute. split; discriminate.
  - apply (proj2 (proj2 (proj2 H3))). right. reflexivity.
Defined.

(** X5.  Subtraction undoes addition: [(a + b) - b] is [a] and
    [(a + b) - a] is [b], as values of type [UInt]. *)
Theorem plus_minus_roundtrip (a b : UInt) :
  Inv a -> Inv b ->
  exists s, op_plus a b = Some s /\
            op_minus s b = Some a /\ op_minus s a = Some b.
Proof.
  intros Ha Hb. unfold op_plus, op_minus.
  destruct (plus_assign_ok a b Ha Hb) as (s & E & Hi & Hv).
  pose proof (value_nonneg a Ha). pose proof (value_nonneg b Hb).
  exists s. split; [exact E|]. split.
  - destruct (minus_assign_ok s b Hi Hb ltac:(lia)) as (r & Er & Hir & Hvr).
    rewrite Er. f_equal. apply Inv_value_inj; trivial. lia.
  - destruct (minus_assign_ok s a Hi Ha ltac:(lia)) as (r & Er & Hir & Hvr).
    rewrite Er. f_equal. apply Inv_value_inj; trivial. lia.
Qed.

Lemma plus_minus_roundtrip_witness :
  exists s, op_plus (mkUInt [999999999; 7]) (mkUInt [1; 999999999]) = Some s /\
            op_minus s (mkUInt [1; 999999999]) = Some (mkUInt [999999999; 7]) /\
            op_minus s (mkUInt [999999999; 7]) = Some (mkUInt [1; 999999999]).
Proof.
  apply plus_minus_roundtrip; apply wf_Inv; reflexivity.
Defined.

(** ** Multipliers *)

Lemma INT64_MAX_digits : INT64_MAX < BASE ^ 15.
Proof. vm_compute. reflexivity. Qed.

Lemma cost_sane_short {rt : FloatRuntime} (k : Z) :
  cost_sane -> k <= 15 -> spectral_ok k.
Proof.
  intros Hc Hk. apply (spectral_ok_mono 15 k Hk), cost_sane_spectral_ok, Hc.
Qed.

(** X6.  [a * num] for a scalar: a negative [num] fails the assertion; a
    [num] below [BASE] runs the digit loop and returns the product
    whatever the floating-point runtime does; from [BASE] on the operator
    goes through [UInt(num)] and the selector, and returns the product as
    soon as the cost estimate is sane. *)
Theorem times_int_product {rt : FloatRuntime} (a : UInt) (num : Z) :
  Inv a ->
  (num < 0 -> op_times_int a num = None) /\
  (0 <= num < BASE ->
   exists r, op_times_int a num = Some r /\ Inv r /\ value r = value a * num) /\
  (cost_sane -> 0 <= num <= INT64_MAX ->
   exists r, op_times_int a num = Some r /\ Inv r /\ value r = value a * num).
Proof.
  intros Ha. unfold op_times_int. split; [|split].
  - intros H. unfold times_assign_int.
    destruct (Z.geb_spec num 0); [lia | reflexivity].
  - intros H. apply times_assign_int_short; assumption.
  - intros Hc H. pose proof INT64_MAX_digits.
    apply (times_assign_int_ok 15); trivial; try lia.
    apply cost_sane_short; [exact Hc | lia].
Qed.

Lemma times_int_product_witness :
  op_times_int (rt := exact_runtime) (mkUInt [5]) (-2) = None /\
  (exists r, op_times_int (rt := exact_runtime) (mkUInt [999999999; 1]) 999999999
             = Some r /\ Inv r /\
             value r = value (mkUInt [999999999; 1]) * 999999999) /\
  (exists r, op_times_int (rt := exact_runtime) (mkUInt [999999999; 1])
               5000000000 = Some r /\ Inv r /\
             value r = value (mkUInt [999999999; 1]) * 5000000000).
Proof.
  split; [|split].
  - apply (proj1 (times_int_product (rt := exact_runtime) (mkUInt [5]) (-2)
                    ltac:(apply wf_Inv; reflexivity))). lia.
  - apply (proj1 (proj2 (times_int_product (rt := exact_runtime)
                           (mkUInt [999999999; 1]) 999999999
                           ltac:(apply wf_Inv; reflexivity)))).
    unfold BASE. lia.
  - apply (proj2 (proj2 (times_int_product (rt := exact_runtime)
                           (mkUInt [999999999; 1]) 5000000000
                           ltac:(apply wf_Inv; reflexivity)))).
    + exact exact_runtime_cost_sane.
    + unfold INT64_MAX. lia.
Defined.

Lemma slow_mult_value {rt : FloatRuntime} (a b : UInt) :
  Inv a -> Inv b ->
  exists r, slow_mult a b = Some r /\ Inv r /\ value r = value a * value b.
Proof.
  intros Ha Hb. unfold slow_mult, op_times_int.
  destruct (Z.eqb_spec (size b) 1) as [Hs|Hs].
  - destruct (size_one b Hb Hs) as (_ & Hd & Hv). rewrite Hv.
    apply times_assign_int_short; assumption.
  - apply slow_long_ok; assumption.
Qed.

(** X7.  The schoolbook multiplier [slow_mult] always returns the product,
    normalised, and is commutative; nothing of it depends on the
    floating-point runtime. *)
Theorem slow_mult_product {rt : FloatRuntime} (a b : UInt) :
  Inv a -> Inv b ->
  exists r, slow_mult a b = Some r /\ Inv r /\ value r = value a * value b /\
            slow_mult b a = Some r.
Proof.
  intros Ha Hb.
  destruct (slow_mult_value a b Ha Hb) as (r & E & Hi & Hv).
  destruct (slow_mult_value b a Hb Ha) as (r' & E' & Hi' & Hv').
  exists r. split; [exact E|]. split; [exact Hi|]. split; [exact Hv|].
  rewrite E'. f_equal. apply Inv_value_inj; trivial. lia.
Qed.

Lemma slow_mult_product_witness :
  exists r, slow_mult (rt := exact_runtime)
              (mkUInt [999999999; 999999999]) (mkUInt [999999999; 2; 3])
            = Some r /\ Inv r /\
            value r = value (mkUInt [999999999; 999999999])
                      * value (mkUInt [999999999; 2; 3]) /\
            slow_mult (rt := exact_runtime)
              (mkUInt [999999999; 2; 3]) (mkUInt [999999999; 999999999])
            = Some r.
Proof.
  apply (slow_mult_product (rt := exact_runtime)); apply wf_Inv; reflexivity.
Defined.

(** X8.  The integer frame of [fast_mult] (the split of every digit into
    three sub-digits of radix 1000, the padded length, the carry loop and
    the regrouping by three): whenever the rounded inverse transform
    returns non-negative coefficients of the product without wrap-around,
    [fast_mult] returns the product, normalised, and so the same [UInt]
    as [slow_mult]. *)
Theorem fast_mult_frame {rt : FloatRuntime} (a b : UInt) :
  transform_exact -> Inv a -> Inv b ->
  exists r, fast_mult a b = Some r /\ Inv r /\ value r = value a * value b /\
            slow_mult a b = Some r.
Proof.
  intros He Ha Hb.
  destruct (fast_mult_ok He a b Ha Hb) as (r & E & Hi & Hv).
  exists r. split; [exact E|]. split; [exact Hi|]. split; [exact Hv|].
  rewrite <- (fast_mult_slow_mult He a b Ha Hb). exact E.
Qed.

Lemma fast_mult_frame_witness :
  exists r, fast_mult (rt := exact_runtime)
              (mkUInt [999999999; 123456789]) (mkUInt [987654321; 999999999])
            = Some r /\ Inv r /\
            value r = value (mkUInt [999999999; 123456789])
                      * value (mkUInt [987654321; 999999999]) /\
            slow_mult (rt := exact_runtime)
              (mkUInt [999999999; 123456789]) (mkUInt [987654321; 999999999])
            = Some r.
Proof.
  apply (fast_mult_frame (rt := exact_runtime)).
  - exact exact_runtime_transform_exact.
  - apply wf_Inv. reflexivity.
  - apply wf_Inv. reflexivity.
Defined.

(** ** Scalar division and remainder *)

(** X9.  [a / num] for a scalar: [num <= 0] fails the assertion; a
    [num] below [BASE] runs the digit loop and returns the floor quotient
    whatever the runtime does; from [BASE] on the operator goes through
    [div_mod] and returns the floor quotient under a sane cost estimate. *)
Theorem div_int_quotient {rt : FloatRuntime} (a : UInt) (num : Z) :
  Inv a ->
  (num <= 0 -> op_div_int a num = None) /\
  (0 < num < BASE ->
   exists q, op_div_int a num = Some q /\ Inv q /\ value q = value a / num) /\
  (cost_sane -> 0 < num ->
   exists q, op_div_int a num = Some q /\ Inv q /\ value q = value a / num).
Proof.
  intros Ha. unfold op_div_int, div_assign_int. split; [|split].
  - intros H. unfold div_assign_int_with.
    destruct (Z.gtb_spec num 0); [lia | reflexivity].
  - intros H. apply div_assign_int_short; assumption.
  - intros Hc H. destruct (Z_lt_le_dec num BASE) as [Hlt|Hge].
    + apply div_assign_int_short; [assumption | lia].
    + fold (div_assign_int a num).
      rewrite div_assign_int_escalates by assumption.
      destruct (UInt_of_int_ok num ltac:(lia)) as (o & Ho & Hoi & Hov).
      rewrite Ho. cbn [bind]. rewrite <- Hov.
      apply (op_div_ok (cost_sane_short 2 Hc ltac:(lia))); trivial. lia.
Qed.

Lemma div_int_quotient_witness :
  op_div_int (rt := exact_runtime) (mkUInt [5]) 0 = None /\
  (exists q, op_div_int (rt := exact_runtime) (mkUInt [1; 0; 7]) 13 = Some q /\
             Inv q /\ value q = value (mkUInt [1; 0; 7]) / 13) /\
  (exists q, op_div_int (rt := exact_runtime) (mkUInt [1; 0; 7]) 3000000001
             = Some q /\ Inv q /\ value q = value (mkUInt [1; 0; 7]) / 3000000001).
Proof.
  split; [|split].
  - apply (proj1 (div_int_quotient (rt := exact_runtime) (mkUInt [5]) 0
                    ltac:(apply wf_Inv; reflexivity))). lia.
  - apply (proj1 (proj2 (div_int_quotient (rt := exact_runtime)
                           (mkUInt [1; 0; 7]) 13
                           ltac:(apply wf_Inv; reflexivity)))).
    unfold BASE. lia.
  - apply (proj2 (proj2 (div_int_quotient (rt := exact_runtime)
                           (mkUInt [1; 0; 7]) 3000000001
                           ltac:(apply wf_Inv; reflexivity)))).
    + exact exact_runtime_cost_sane.
    + lia.
Defined.

Lemma mod_int_loop_app (msf1 : list Z) (num : Z) :
  forall msf2 rem r,
  mod_int_loop (msf1 ++ msf2) num rem = Some r ->
  exists rem', mod_int_loop msf1 num rem = Some rem' /\
               mod_int_loop msf2 num rem' = Some r.
Proof.
  induction msf1 as [|d t IH]; intros msf2 rem r H.
  - exists rem. split; [reflexivity | exact H].
  - cbn [app mod_int_loop] in H |- *.
    destruct (assert (in_int64 (rem * BASE))); [|discriminate].
    cbn [bind] in H |- *.
    destruct (assert (in_int64 (rem * BASE + d))); [|discriminate].
    cbn [bind] in H |- *. apply IH. exact H.
Qed.

Lemma mod_int_loop_Some (msf : list Z) (num : Z) :
  forall rem r,
  Digits msf -> 0 < num -> 0 <= rem < num ->
  mod_int_loop msf num rem = Some r ->
  r = (rem * BASE ^ Z.of_nat (length msf) + val (rev msf)) mod num.
Proof.
  induction msf as [|d t IH]; intros rem r HD Hn Hr H.
  - cbn in H. injection H as <-. cbn [length rev val].
    rewrite Z.pow_0_r, Z.mul_1_r, Z.add_0_r. symmetry. apply Z.mod_small. exact Hr.
  - apply Digits_cons in HD. destruct HD as [Hd HD].
    cbn [mod_int_loop] in H. inv_bind H.
    pose proof BASE_pos as HB.
    assert (0 <= rem * BASE + d) as Hnn by nia.
    rewrite Z.rem_mod_nonneg in H by lia.
    apply IH in H; trivial; [|apply Z.mod_pos_bound; lia].
    rewrite H. cbn [length]. rewrite val_rev_cons, BASE_pow_succ.
    rewrite <- Z.add_mod_idemp_l by lia.
    rewrite Z.mul_mod_idemp_l by lia.
    rewrite Z.add_mod_idemp_l by lia.
    f_equal. ring.
Qed.

(** X10.  [a % num] for a scalar: [num <= 0] fails the assertion; up to
    [num = 9223372036] no intermediate [rem * BASE + digit] leaves the
    [int64_t] range and the remainder is returned; for a larger [num] the
    operator, where it returns, still returns the remainder. *)
Theorem mod_int_remainder (a : UInt) (num : Z) :
  Inv a ->
  (num <= 0 -> op_mod_int a num = None) /\
  (0 < num <= 9223372036 -> op_mod_int a num = Some (value a mod num)) /\
  (forall r, op_mod_int a num = Some r -> 0 < num /\ r = value a mod num).
Proof.
  intros Ha. split; [|split].
  - intros H. unfold op_mod_int.
    destruct (Z.gtb_spec num 0); [lia | reflexivity].
  - intros H. apply op_mod_int_ok; assumption.
  - intros r H. unfold op_mod_int in H. inv_bind H.
    apply assert_Some, Z.gtb_lt in Hx. split; [exact Hx|].
    apply mod_int_loop_Some in H; trivial; try lia.
    + rewrite H, rev_involutive. f_equal.
    + apply Digits_rev, Inv_Digits, Ha.
Qed.

Lemma mod_int_remainder_witness :
  op_mod_int (mkUInt [5]) 0 = None /\
  op_mod_int (mkUInt [1; 2; 3]) 9223372036
  = Some (value (mkUInt [1; 2; 3]) mod 9223372036) /\
  (forall r, op_mod_int (mkUInt [1; 2; 3]) 9223372037 = Some r ->
             0 < 9223372037 /\ r = value (mkUInt [1; 2; 3]) mod 9223372037).
Proof.
  split; [|split].
  - apply (proj1 (mod_int_remainder (mkUInt [5]) 0
                    ltac:(apply wf_Inv; reflexivity))). lia.
  - apply (proj1 (proj2 (mod_int_remainder (mkUInt [1; 2; 3]) 9223372036
                           ltac:(apply wf_Inv; reflexivity)))). lia.
  - apply (proj2 (proj2 (mod_int_remainder (mkUInt [1; 2; 3]) 9223372037
                           ltac:(apply wf_Inv; reflexivity)))).
Defined.

(** X11.  The bound 9223372036 on the modulus of [a % num] is tight: for
    every [int64_t] modulus above it there is a normalised operand on
    which [a % num] computes [rem * BASE + digit] outside the [int64_t]
    range. *)
Theorem mod_int_overflows (num : Z) :
  9223372036 < num <= INT64_MAX ->
  exists a, Inv a /\ op_mod_int a num = None.
Proof.
  intros Hn.
  destruct (UInt_of_int_ok (num - 1) ltac:(lia)) as (u & Eu & Hu & Hv).
  exists (mkUInt (999999999 :: digits u)).
  assert (digits u <> [0]) as Hnz.
  { intros E. apply (value_zero u Hu) in E. lia. }
  split.
  - apply Inv_intro; [discriminate | |].
    + apply Digits_cons. split; [unfold BASE; lia | apply Inv_Digits, Hu].
    + left. destruct (Inv_top u Hu) as [Hb|Hb]; [|contradiction].
      unfold back in Hb. destruct (digits u) as [|d t] eqn:E.
      * apply Inv_nonempty in Hu. contradiction.
      * exact Hb.
  - unfold op_mod_int. rewrite assert_true by (apply Z.gtb_lt; lia).
    cbn [bind digits rev].
    destruct (mod_int_loop (rev (digits u) ++ [999999999]) num 0) as [r|] eqn:E;
      [|reflexivity].
    exfalso. apply mod_int_loop_app in E. destruct E as (rem' & E1 & E2).
    apply mod_int_loop_Some in E1; try lia;
      [|apply Digits_rev, Inv_Digits, Hu].
    rewrite rev_involutive, Z.mul_0_l, Z.add_0_l in E1.
    fold (value u) in E1. rewrite Hv, Z.mod_small in E1 by lia. subst rem'.
    cbn [mod_int_loop] in E2. inv_bind E2.
    apply assert_Some in Hx0. unfold in_int64 in Hx0.
    apply andb_true_iff in Hx0. destruct Hx0 as [_ Hhi].
    apply Z.leb_le in Hhi. unfold INT64_MAX, BASE in *. lia.
Qed.

Lemma mod_int_overflows_witness :
  exists a, Inv a /\ op_mod_int a 9223372037 = None.
Proof.
  apply (mod_int_overflows 9223372037). unfold INT64_MAX. lia.
Defined.

(** ** Division by zero *)

(** X12.  A zero divisor makes [div_mod], [/] and [%] fail (the assertion
    [num > 0] of the scalar division), for a [UInt] divisor and for a
    scalar one. *)
Theorem division_by_zero {rt : FloatRuntime} (a b : UInt) :
  Inv b -> value b = 0 ->
  div_mod a b = None /\ op_div a b = None /\ op_mod a b = None /\
  op_div_int a 0 = None /\ op_mod_int a 0 = None.
Proof.
  intros Hb Hz. apply (value_zero b Hb) in Hz.
  assert (div_mod a b = None) as E.
  { unfold div_mod, div_mod_at, div_mod_with, size. rewrite Hz. reflexivity. }
  unfold op_div, op_mod. rewrite E. repeat split; reflexivity.
Qed.

Lemma division_by_zero_witness :
  div_mod (rt := exact_runtime) (mkUInt [7; 7]) UInt0 = None /\
  op_div (rt := exact_runtime) (mkUInt [7; 7]) UInt0 = None /\
  op_mod (rt := exact_runtime) (mkUInt [7; 7]) UInt0 = None /\
  op_div_int (rt := exact_runtime) (mkUInt [7; 7]) 0 = None /\
  op_mod_int (mkUInt [7; 7]) 0 = None.
Proof.
  apply (division_by_zero (rt := exact_runtime)).
  - exact Inv_UInt0.
  - reflexivity.
Defined.

(** X13.  Division undoes multiplication.  For a divisor [b > 0] of at
    most 15 digits and a sane cost estimate, [a * b] is the product (on
    the schoolbook path), [(a * b) / b] is [a] again and [(a * b) % b]
    is [UInt(0)], as values of type [UInt]. *)
Theorem times_div_roundtrip {rt : FloatRuntime} (a b : UInt) :
  cost_sane -> Inv a -> Inv b -> size b <= 15 -> 0 < value b ->
  exists r, op_times a b = Some r /\ Inv r /\ value r = value a * value b /\
            slow_mult a b = Some r /\
            op_div r b = Some a /\ op_mod r b = Some UInt0.
Proof.
  intros Hc Ha Hb Hs Hpos.
  pose proof (cost_sane_short 2 Hc ltac:(lia)) as H2.
  pose proof (Inv_size a Ha). pose proof (Inv_size b Hb).
  destruct (slow_mult_value a b Ha Hb) as (r & E & Hi & Hv).
  exists r. unfold op_times, mult.
  rewrite (use_fast_small a b Hc) by (trivial; lia).
  split; [exact E|]. split; [exact Hi|]. split; [exact Hv|]. split; [exact E|].
  split.
  - destruct (op_div_ok H2 r b Hi Hb Hpos) as (q & Eq & Hqi & Hqv).
    rewrite Eq. f_equal. apply Inv_value_inj; trivial.
    rewrite Hqv, Hv. apply Z.div_mul. lia.
  - destruct (op_mod_ok H2 r b Hi Hb Hpos) as (m & Em & Hmi & Hmv).
    rewrite Em. f_equal. apply Inv_value_inj; [exact Hmi | exact Inv_UInt0 |].
    rewrite Hmv, Hv. change (value UInt0) with 0. apply Z.mod_mul. lia.
Qed.

Lemma times_div_roundtrip_witness :
  exists r, op_times (rt := exact_runtime) (mkUInt [1; 2; 3]) (mkUInt [4; 5])
            = Some r /\ Inv r /\
            value r = value (mkUInt [1; 2; 3]) * value (mkUInt [4; 5]) /\
            slow_mult (rt := exact_runtime) (mkUInt [1; 2; 3]) (mkUInt [4; 5])
            = Some r /\
            op_div (rt := exact_runtime) r (mkUInt [4; 5])
            = Some (mkUInt [1; 2; 3]) /\
            op_mod (rt := exact_runtime) r (mkUInt [4; 5]) = Some UInt0.
Proof.
  apply (times_div_roundtrip (rt := exact_runtime)).
  - exact exact_runtime_cost_sane.
  - apply wf_Inv. reflexivity.
  - apply wf_Inv. reflexivity.
  - vm_compute. discriminate.
  - reflexivity.
Defined.

(** ** Exponentiation *)

Lemma run_done (St : Type) (cond : St -> bool) (body : St -> option St)
      (s : St) :
  cond s = false -> forall n, run cond body n s = Done s.
Proof.
  intros Hc n. induction n as [|n IH]; cbn [run].
  - rewrite Hc. reflexivity.
  - rewrite IH. reflexivity.
Qed.

(** X14.  [pow(a, n, -1)], the branch without a modulus, returns the
    power [a ^ n] wherever the multiplier is right on the operands the
    selector sends to the spectral path. *)
Theorem pow_exact_power {rt : FloatRuntime} (a : UInt) (n : Z) :
  spectral_sound -> Inv a -> 0 <= n ->
  exists r, pow a n (-1) = Some r /\ Inv r /\ value r = value a ^ n.
Proof.
  intros Hs Ha Hn. apply pow_exact_ok; assumption.
Qed.

Lemma pow_exact_power_witness :
  exists r, pow (rt := exact_runtime) (mkUInt [999999999; 3]) 5 (-1) = Some r /\
            Inv r /\ value r = value (mkUInt [999999999; 3]) ^ 5.
Proof.
  apply (pow_exact_power (rt := exact_runtime)).
  - exact exact_runtime_sound.
  - apply wf_Inv. reflexivity.
  - lia.
Defined.

(** X15.  For an exponent [n <= 0] the loop of [pow] does not run and the
    result is [UInt(1)] for every base and every modulus: also for
    [mod = 1], where [a ^ 0 mod 1] is 0, and for a negative exponent. *)
Theorem pow_nonpositive_exponent {rt : FloatRuntime} (a : UInt) (n m : Z) :
  n <= 0 -> pow a n m = Some (mkUInt [1]).
Proof.
  intros Hn. unfold pow. rewrite UInt_of_int_1. cbn [bind].
  unfold while. rewrite run_done; [reflexivity|].
  unfold pow_cond. cbn [snd]. destruct (Z.gtb_spec n 0); [lia | reflexivity].
Qed.

Lemma pow_nonpositive_exponent_witness :
  pow (rt := exact_runtime) (mkUInt [5; 7]) 0 1 = Some (mkUInt [1]).
Proof.
  apply (pow_nonpositive_exponent (rt := exact_runtime)). lia.
Defined.

(** ** The decimal codec, by value *)

Lemma read_digits_app (x y : text) :
  forall acc, all_digits x ->
  read_digits (x ++ y) acc = read_digits y (read_digits x acc).
Proof.
  induction x as [|c x IH]; intros acc H; [reflexivity|].
  apply all_digits_cons in H. destruct H as [Hc Hx].
  cbn [app read_digits]. rewrite Hc. apply IH. exact Hx.
Qed.

Lemma dec_app (x y : text) :
  all_digits x -> all_digits y ->
  dec (x ++ y) = dec x * 10 ^ Z.of_nat (length y) + dec y.
Proof.
  intros Hx Hy. unfold dec at 1. rewrite read_digits_app by exact Hx.
  fold (dec x). apply read_digits_acc. exact Hy.
Qed.

Lemma BASE_pow10 : BASE = 10 ^ Z.of_nat WIDTH.
Proof. reflexivity. Qed.

(** The groups loop, by value: the digits it pushes are the base-[BASE]
    digits of the characters it consumed. *)
Lemma string_groups_value (s : text) (count : nat) :
  forall j ds, ((j + count) * WIDTH <= length s)%nat -> all_digits s ->
  string_groups s count (S j) = Some ds ->
  dec (skipn (length s - (j + count) * WIDTH) s)
  = val ds * 10 ^ Z.of_nat (j * WIDTH) + dec (skipn (length s - j * WIDTH) s).
Proof.
  induction count as [|count IH]; intros j ds Hl Hd H.
  - cbn in H. injection H as <-. rewrite Nat.add_0_r. cbn [val]. lia.
  - cbn [string_groups] in H.
    set (chunk := substr s (length s - S j * WIDTH) WIDTH) in *.
    assert (length chunk = WIDTH) as Hcl.
    { apply substr_length. unfold WIDTH in *. lia. }
    assert (all_digits chunk) as Hcd.
    { apply all_digits_firstn, all_digits_skipn, Hd. }
    rewrite stoi_digits in H; trivial.
    2:{ intros E. rewrite E in Hcl. discriminate. }
    2:{ rewrite Hcl. unfold WIDTH. lia. }
    cbn [bind] in H. inv_bind H. injection H as <-.
    apply IH in Hx; [|unfold WIDTH in *; lia | exact Hd].
    replace (j + S count)%nat with (S j + count)%nat by lia.
    rewrite Hx. rewrite (chunk_step s j) by (unfold WIDTH in *; lia).
    fold chunk. rewrite dec_app; [|exact Hcd | apply all_digits_skipn, Hd].
    rewrite length_skipn.
    replace (length s - (length s - j * WIDTH))%nat with (j * WIDTH)%nat
      by (unfold WIDTH in *; lia).
    cbn [val]. rewrite BASE_pow10.
    replace (Z.of_nat (S j * WIDTH)) with (Z.of_nat WIDTH + Z.of_nat (j * WIDTH))
      by lia.
    rewrite Z.pow_add_r by lia. ring.
Qed.

Lemma parse_dec (s : text) :
  valid_decimal s = true ->
  exists u, parse s = Some u /\ Inv u /\ value u = dec s.
Proof.
  intros Hv. destruct (UInt_of_string_ok s Hv) as (u & E & Hi).
  exists u. split; [exact E|]. split; [exact Hi|].
  apply valid_decimal_spec in Hv. destruct Hv as [Hne Hd].
  pose proof (Nat.div_mod_eq (length s) WIDTH) as Hdm.
  pose proof (Nat.mod_upper_bound (length s) WIDTH ltac:(discriminate)) as Hmb.
  unfold UInt_of_string in E. inv_bind E.
  rename x into ds. rename x0 into top.
  apply normalize_Some in E. destruct E as (_ & -> & _).
  unfold value. cbn [digits]. rewrite val_app.
  destruct (string_groups_spec s (length s / WIDTH) 0) as (ds' & Eg & Hl & _);
    [lia | exact Hd |].
  rewrite Eg in Hx. injection Hx as ->.
  pose proof (string_groups_value s (length s / WIDTH) 0 ds
                ltac:(lia) Hd Eg) as Hval.
  rewrite Nat.sub_0_r, skipn_all in Hval.
  change (dec []) with 0 in Hval. cbn [Nat.mul] in Hval.
  rewrite Z.pow_0_r, Z.mul_1_r, Z.add_0_r in Hval.
  replace (length s - (0 + length s / WIDTH) * WIDTH)%nat
    with (length s mod WIDTH)%nat in Hval by lia.
  rewrite <- Hval, Hl.
  destruct (Nat.eqb_spec (length s mod WIDTH) 0) as [Hm|Hm]; cbn [negb] in Hx0.
  - injection Hx0 as <-. rewrite Hm. cbn [skipn val]. lia.
  - set (chunk := substr s 0 (length s mod WIDTH)) in *.
    assert (length chunk = length s mod WIDTH)%nat as Hcl
      by (apply substr_length; lia).
    assert (all_digits chunk) as Hcd
      by (apply all_digits_firstn, all_digits_skipn, Hd).
    rewrite stoi_digits in Hx0; trivial.
    2:{ intros E. rewrite E in Hcl. cbn [length] in Hcl. lia. }
    2:{ unfold WIDTH in *. lia. }
    cbn [bind] in Hx0. injection Hx0 as <-. cbn [val].
    assert (dec s = dec chunk * 10 ^ Z.of_nat (length s - length s mod WIDTH)
                    + dec (skipn (length s mod WIDTH) s)) as ->.
    { rewrite <- (firstn_skipn (length s mod WIDTH) s) at 1.
      change (firstn (length s mod WIDTH) s) with chunk.
      rewrite dec_app; [|exact Hcd | apply all_digits_skipn, Hd].
      rewrite length_skipn. reflexivity. }
    rewrite BASE_pow10, <- Z.pow_mul_r by lia.
    replace (Z.of_nat WIDTH * Z.of_nat (length s / WIDTH))
      with (Z.of_nat (length s - length s mod WIDTH)) by lia.
    ring.
Qed.

(** X16.  Reading a non-empty string of decimal digits, leading zeros
    allowed, returns the normalised [UInt] of the number the string
    denotes. *)
Theorem parse_value (s : text) :
  valid_decimal s = true ->
  exists u, parse s = Some u /\ Inv u /\ value u = dec s.
Proof. apply parse_dec. Qed.

Lemma parse_value_witness :
  exists u, parse Samples.leading_zeros = Some u /\ Inv u /\
            value u = dec Samples.leading_zeros.
Proof. apply parse_value. reflexivity. Defined.

Lemma digit_char_digit (d : Z) :
  0 <= d <= 9 ->
  is_digit (digit_char d) = true /\ digit_value (digit_char d) = d.
Proof.
  intros H. unfold is_digit, digit_value, digit_char.
  rewrite nat_ascii_embedding by lia. split; [|lia].
  apply andb_true_iff. split; apply Nat.leb_le; lia.
Qed.

Lemma canonical_head (c : ascii) (t : text) :
  canonical (c :: t) -> 0 < dec (c :: t) -> nat_of_ascii c <> 48%nat.
Proof.
  intros (Hd & _ & Hz) Hpos. destruct t as [|x t].
  - intros E. unfold dec in Hpos. cbn [read_digits] in Hpos.
    apply all_digits_cons in Hd. destruct Hd as [Hc _]. rewrite Hc in Hpos.
    unfold digit_value in Hpos. rewrite E in Hpos. cbn in Hpos. lia.
  - cbn [no_leading_zero] in Hz. apply negb_true_iff, Nat.eqb_neq in Hz. exact Hz.
Qed.

(** The digits printed for a non-negative number are its canonical
    decimal notation. *)
Lemma print_digits_dec (fuel : nat) :
  forall n acc, 0 <= n < 2 ^ Z.of_nat (S fuel) ->
  exists s, print_digits (S fuel) n acc = s ++ acc /\ canonical s /\ dec s = n.
Proof.
  induction fuel as [|fuel IH]; intros n acc Hn.
  - change (2 ^ Z.of_nat 1) with 2 in Hn. rewrite print_digits_S.
    rewrite Z.quot_small, Z.rem_small by lia. cbn [Z.eqb].
    destruct (digit_char_digit n ltac:(lia)) as [Hd Hv].
    exists [digit_char n]. split; [reflexivity|]. split.
    + split; [|split; [discriminate | reflexivity]].
      apply all_digits_cons. split; [exact Hd | reflexivity].
    + unfold dec. cbn [read_digits]. rewrite Hd, Hv. lia.
  - rewrite print_digits_S.
    rewrite Z.quot_div_nonneg, Z.rem_mod_nonneg by lia.
    pose proof (Z.div_mod n 10 ltac:(lia)) as Hdm.
    pose proof (Z.mod_pos_bound n 10 ltac:(lia)) as Hmb.
    pose proof (Z.div_pos n 10 ltac:(lia) ltac:(lia)) as Hq.
    destruct (digit_char_digit (n mod 10) ltac:(lia)) as [Hd Hv].
    destruct (Z.eqb_spec (n / 10) 0) as [E0|E0].
    + exists [digit_char (n mod 10)]. split; [reflexivity|]. split.
      * split; [|split; [discriminate | reflexivity]].
        apply all_digits_cons. split; [exact Hd | reflexivity].
      * unfold dec. cbn [read_digits]. rewrite Hd, Hv. lia.
    + destruct (IH (n / 10) (digit_char (n mod 10) :: acc)) as (s & E & Hc & Hv').
      { rewrite (Nat2Z.inj_succ (S fuel)), Z.pow_succ_r in Hn by lia. lia. }
      exists (s ++ [digit_char (n mod 10)]).
      split; [rewrite E, <- app_assoc; reflexivity|].
      assert (all_digits (s ++ [digit_char (n mod 10)])) as Hall.
      { apply all_digits_app. split; [apply Hc|].
        apply all_digits_cons. split; [exact Hd | reflexivity]. }
      split.
      * split; [exact Hall|]. split.
        { intros E'. apply app_eq_nil in E'. destruct E'; discriminate. }
        destruct s as [|c t]; [destruct Hc as (_ & Hne & _); congruence|].
        pose proof (canonical_head c t Hc ltac:(lia)) as Hh.
        cbn [app no_leading_zero].
        destruct (t ++ [digit_char (n mod 10)]) eqn:Et.
        { apply app_eq_nil in Et. destruct Et; discriminate. }
        apply negb_true_iff, Nat.eqb_neq. exact Hh.
      * rewrite dec_snoc by exact Hall. rewrite Hv', Hv. lia.
Qed.

Lemma print_int_dec (x : Z) :
  0 <= x -> canonical (print_int x) /\ dec (print_int x) = x.
Proof.
  intros Hx. unfold print_int. destruct (Z.ltb_spec x 0); [lia|].
  destruct (print_digits_dec (Z.to_nat (Z.log2 x)) x [])
    as (s & E & Hc & Hv); [split; [lia | apply log2_fuel; lia]|].
  rewrite E, app_nil_r. split; assumption.
Qed.

Lemma canonical_length (s : text) (k : nat) :
  canonical s -> dec s < 10 ^ Z.of_nat k -> (1 <= k)%nat -> (length s <= k)%nat.
Proof.
  intros Hc Hlt Hk. destruct s as [|c t]; [cbn; lia|].
  destruct (Z.eq_dec (dec (c :: t)) 0) as [E0|E0].
  - destruct t as [|x t]; [cbn; lia|].
    pose proof (canonical_nonzero (c :: x :: t) Hc ltac:(cbn [length]; lia)). lia.
  - pose proof (dec_bounds (c :: t) (proj1 Hc)).
    pose proof (canonical_head c t Hc ltac:(lia)) as Hh.
    pose proof (dec_lower c t (proj1 Hc) Hh) as Hlow.
    assert (Z.of_nat (length t) < Z.of_nat k); [|cbn [length]; lia].
    apply (Z.pow_lt_mono_r_iff 10); lia.
Qed.

Lemma all_digits_zeros (k : nat) : all_digits (repeat (ascii_of_nat 48) k).
Proof.
  induction k as [|k IH]; [reflexivity|].
  cbn [repeat]. apply all_digits_cons. split; [reflexivity | exact IH].
Qed.

Lemma dec_zeros (k : nat) (s : text) :
  all_digits s -> dec (repeat (ascii_of_nat 48) k ++ s) = dec s.
Proof.
  intros Hs. induction k as [|k IH]; [reflexivity|].
  cbn [repeat app]. rewrite dec_cons.
  - rewrite IH. change (digit_value (ascii_of_nat 48)) with 0. lia.
  - apply all_digits_cons. split; [reflexivity|].
    apply all_digits_app. split; [apply all_digits_zeros | exact Hs].
Qed.

Lemma print_padded_dec (x : Z) :
  0 <= x < BASE ->
  all_digits (print_padded WIDTH x) /\ length (print_padded WIDTH x) = WIDTH /\
  dec (print_padded WIDTH x) = x.
Proof.
  intros Hx. destruct (print_int_dec x ltac:(lia)) as [Hc Hv].
  pose proof (canonical_length (print_int x) WIDTH Hc) as Hl.
  rewrite Hv, <- BASE_pow10 in Hl. specialize (Hl ltac:(lia) ltac:(unfold WIDTH; lia)).
  unfold print_padded. split; [|split].
  - apply all_digits_app. split; [apply all_digits_zeros | apply Hc].
  - rewrite length_app, repeat_length. lia.
  - rewrite dec_zeros by apply Hc. exact Hv.
Qed.

(** The padded groups, most-significant first, denote the digits they
    print. *)
Lemma flat_map_padded (msf : list Z) :
  Digits msf ->
  all_digits (flat_map (print_padded WIDTH) msf) /\
  length (flat_map (print_padded WIDTH) msf) = (WIDTH * length msf)%nat /\
  dec (flat_map (print_padded WIDTH) msf) = val (rev msf).
Proof.
  induction msf as [|d t IH]; intros HD.
  - repeat split.
  - apply Digits_cons in HD. destruct HD as [Hd HD].
    destruct (IH HD) as (Ha & Hl & Hv).
    destruct (print_padded_dec d Hd) as (Hpa & Hpl & Hpv).
    cbn [flat_map]. split; [|split].
    + apply all_digits_app. split; assumption.
    + rewrite length_app, Hpl, Hl. cbn [length]. lia.
    + rewrite dec_app by assumption. rewrite Hpv, Hv, Hl, val_rev_cons.
      rewrite Nat2Z.inj_mul, Z.pow_mul_r, <- BASE_pow10 by lia. ring.
Qed.

Lemma format_dec (u : UInt) :
  Inv u ->
  exists s, format u = Some s /\ canonical s /\ dec s = value u.
Proof.
  intros Hu. unfold format.
  destruct (rev (digits u)) as [|top rest] eqn:Er.
  { apply (f_equal (@rev Z)) in Er. rewrite rev_involutive in Er.
    apply Inv_nonempty in Hu. cbn in Er. contradiction. }
  assert (digits u = rev rest ++ [top]) as Ed.
  { rewrite <- (rev_involutive (digits u)), Er. reflexivity. }
  pose proof (Inv_Digits u Hu) as HD. rewrite Ed in HD.
  apply Digits_app in HD. destruct HD as [HDr HDt].
  apply Digits_rev in HDr. rewrite rev_involutive in HDr.
  apply Digits_cons in HDt. destruct HDt as [Ht _].
  destruct (print_int_dec top ltac:(lia)) as [Hc Hv].
  destruct (flat_map_padded rest HDr) as (Ha & Hl & Hfv).
  eexists. split; [reflexivity|]. split.
  - split; [apply all_digits_app; split; [apply Hc | exact Ha]|]. split.
    + intros E. apply app_eq_nil in E. destruct E as [E _].
      destruct Hc as (_ & Hne & _). contradiction.
    + destruct (print_int top) as [|c t] eqn:Ep;
        [destruct Hc as (_ & Hne & _); congruence|].
      cbn [app no_leading_zero].
      destruct (t ++ flat_map (print_padded WIDTH) rest) as [|x r] eqn:Et;
        [reflexivity|].
      apply negb_true_iff, Nat.eqb_neq.
      destruct (Z.eq_dec top 0) as [E0|E0].
      * (* the number is zero: a single digit, nothing follows *)
        exfalso. destruct (Inv_top u Hu) as [Hb|Hb].
        -- unfold back in Hb. rewrite Ed, last_last in Hb. contradiction.
        -- rewrite Hb in Er. cbn in Er. injection Er as <- <-.
           cbn in Ep. injection Ep as <- <-. discriminate.
      * apply (canonical_head c t Hc). lia.
  - rewrite dec_app by (trivial; apply Hc).
    rewrite Hv, Hfv, Hl. unfold value. rewrite Ed, val_app, length_rev.
    cbn [val]. rewrite Nat2Z.inj_mul, Z.pow_mul_r, <- BASE_pow10 by lia. ring.
Qed.

(** X17.  Writing a normalised [UInt] gives the canonical decimal notation
    of its value (digits only, no leading zero), and reading that text
    gives the same [UInt] back. *)
Theorem format_then_parse (u : UInt) :
  Inv u ->
  exists s, format u = Some s /\
            valid_decimal s = true /\ no_leading_zero s = true /\
            dec s = value u /\ parse s = Some u.
Proof.
  intros Hu. destruct (format_dec u Hu) as (s & E & (Hd & Hne & Hz) & Hv).
  assert (valid_decimal s = true) as Hvd
    by (apply valid_decimal_spec; split; assumption).
  exists s. split; [exact E|]. split; [exact Hvd|]. split; [exact Hz|].
  split; [exact Hv|].
  destruct (parse_dec s Hvd) as (u' & E' & Hi' & Hv').
  rewrite E'. f_equal. apply Inv_value_inj; trivial. lia.
Qed.

Lemma format_then_parse_witness :
  exists s, format (mkUInt [5; 0; 120]) = Some s /\
            valid_decimal s = true /\ no_leading_zero s = true /\
            dec s = value (mkUInt [5; 0; 120]) /\
            parse s = Some (mkUInt [5; 0; 120]).
Proof. apply format_then_parse. apply wf_Inv. reflexivity. Defined.

(** ** What the reader rejects *)

Lemma substr_In (s : text) (pos len : nat) (c : ascii) :
  In c (substr s pos len) -> In c s.
Proof.
  unfold substr. intros H.
  rewrite <- (firstn_skipn pos s). apply in_or_app. right.
  rewrite <- (firstn_skipn len (skipn pos s)). apply in_or_app. left. exact H.
Qed.

Lemma skip_space_incl (s : text) : incl (skip_space s) s.
Proof.
  induction s as [|c t IH]; [apply incl_refl|].
  cbn [skip_space]. destruct (is_space c).
  - apply incl_tl. exact IH.
  - apply incl_refl.
Qed.

Lemma stoi_no_digit (t : text) :
  (forall c, In c t -> is_digit c = false) -> stoi t = None.
Proof.
  intros H. unfold stoi. pose proof (skip_space_incl t) as Hi.
  destruct (skip_space t) as [|c r]; [reflexivity|].
  assert (forall x, In x (c :: r) -> is_digit x = false) as Hr
    by (intros x Hx; apply H, Hi, Hx).
  assert (forall r', incl r' (c :: r) ->
          match r' with
          | [] => None
          | x :: _ => if is_digit x
                      then do _ <- assert ((-2147483648 <=? read_digits r' 0)
                                            && (read_digits r' 0 <=? 2147483647));
                           Some (read_digits r' 0)
                      else None
          end = (None : option Z)) as Hnone.
  { intros [|x r'] Hin; [reflexivity|].
    rewrite (Hr x) by (apply Hin; left; reflexivity). reflexivity. }
  destruct (nat_of_ascii c =? 45)%nat.
  - destruct r as [|x r']; [reflexivity|].
    rewrite (Hr x) by (right; left; reflexivity). reflexivity.
  - destruct (nat_of_ascii c =? 43)%nat.
    + destruct r as [|x r']; [reflexivity|].
      rewrite (Hr x) by (right; left; reflexivity). reflexivity.
    + rewrite (Hr c) by (left; reflexivity). reflexivity.
Qed.

(** X18.  A text without a decimal digit, the empty text included, is
    rejected by the reader: [std::stoi] throws on a group without a digit,
    and the empty text leaves an empty digit vector for [normalize]. *)
Theorem parse_rejects_digitless (s : text) :
  forallb (fun c => negb (is_digit c)) s = true -> parse s = None.
Proof.
  intros H. unfold parse, UInt_of_string.
  assert (forall pos len c, In c (substr s pos len) -> is_digit c = false) as Hs.
  { intros pos len c Hc. apply substr_In in Hc.
    rewrite forallb_forall in H. apply negb_true_iff, H, Hc. }
  destruct (length s / WIDTH)%nat as [|count] eqn:Ec.
  - cbn [string_groups bind app].
    destruct (Nat.eqb_spec (length s mod WIDTH) 0) as [Hm|Hm]; cbn [negb].
    + reflexivity.
    + rewrite stoi_no_digit by apply Hs. reflexivity.
  - cbn [string_groups]. rewrite stoi_no_digit by apply Hs. reflexivity.
Qed.

Lemma parse_rejects_digitless_witness :
  parse Samples.no_digits = None /\ parse [] = None.
Proof.
  split; apply parse_rejects_digitless; reflexivity.
Defined.

(** ** What the reader accepts beyond decimal digits *)

Lemma skip_space_app (pre r : text) :
  forallb is_space pre = true -> skip_space (pre ++ r) = skip_space r.
Proof.
  induction pre as [|c pre IH]; intros H; [reflexivity|].
  cbn [forallb] in H. apply andb_true_iff in H. destruct H as [Hc Hp].
  cbn [app skip_space]. rewrite Hc. apply IH. exact Hp.
Qed.

Lemma read_digits_stop (t suf : text) :
  all_digits t -> hd_error suf = None \/
                  (exists c, hd_error suf = Some c /\ is_digit c = false) ->
  read_digits (t ++ suf) 0 = dec t.
Proof.
  intros Ht Hs. rewrite read_digits_app by exact Ht. fold (dec t).
  destruct suf as [|c suf]; [reflexivity|].
  destruct Hs as [Hs|(c' & Hs & Hc)]; [discriminate|].
  cbn in Hs. injection Hs as ->. cbn [read_digits]. rewrite Hc. reflexivity.
Qed.

Lemma parse_short (s : text) :
  (0 < length s < 9)%nat ->
  parse s = do d <- stoi s; normalize (mkUInt [d]).
Proof.
  intros Hl. unfold parse, UInt_of_string.
  rewrite (Nat.div_small (length s) WIDTH) by (unfold WIDTH; lia).
  rewrite (Nat.mod_small (length s) WIDTH) by (unfold WIDTH; lia).
  cbn [string_groups bind].
  destruct (Nat.eqb_spec (length s) 0) as [|_]; [lia|]. cbn [negb].
  unfold substr. cbn [skipn]. rewrite firstn_all.
  destruct (stoi s); reflexivity.
Qed.

Lemma stoi_signed (neg : bool) (t suf : text) :
  valid_decimal t = true -> (length t <= 8)%nat ->
  hd_error suf = None \/
  (exists c, hd_error suf = Some c /\ is_digit c = false) ->
  (let v := read_digits (t ++ suf) 0 in
   let v := if neg then - v else v in
   match t ++ suf with
   | c :: _ =>
       if is_digit c
       then do _ <- assert ((-2147483648 <=? v) && (v <=? 2147483647)); Some v
       else None
   | [] => None
   end) = Some (if neg then - dec t else dec t).
Proof.
  intros Hv Hl Hs. apply valid_decimal_spec in Hv. destruct Hv as [Hne Hd].
  cbv zeta. rewrite (read_digits_stop t suf Hd Hs).
  destruct t as [|c t]; [congruence|]. cbn [app].
  pose proof Hd as Hd'. apply all_digits_cons in Hd'. destruct Hd' as [Hc _].
  rewrite Hc. pose proof (dec_bounds (c :: t) Hd) as Hb.
  assert (10 ^ Z.of_nat (length (c :: t)) <= 10 ^ 8)
    by (apply Z.pow_le_mono_r; lia).
  rewrite assert_true; [reflexivity|].
  apply andb_true_iff. split; [apply Z.leb_le | apply Z.leb_le];
    destruct neg; lia.
Qed.

Lemma digit_not_sign (c : ascii) :
  is_digit c = true ->
  is_space c = false /\ (nat_of_ascii c =? 45)%nat = false /\
  (nat_of_ascii c =? 43)%nat = false.
Proof.
  intros H. apply is_digit_range in H. unfold is_space.
  repeat split.
  - destruct (Nat.eqb_spec (nat_of_ascii c) 32); [lia|].
    destruct (Nat.leb_spec 9 (nat_of_ascii c));
      destruct (Nat.leb_spec (nat_of_ascii c) 13); try reflexivity; lia.
  - apply Nat.eqb_neq. lia.
  - apply Nat.eqb_neq. lia.
Qed.

Lemma stoi_lenient (pre t suf : text) :
  forallb is_space pre = true ->
  valid_decimal t = true -> (length t <= 8)%nat ->
  hd_error suf = None \/
  (exists c, hd_error suf = Some c /\ is_digit c = false) ->
  stoi (pre ++ t ++ suf) = Some (dec t) /\
  stoi (pre ++ ascii_of_nat 43 :: t ++ suf) = Some (dec t) /\
  stoi (pre ++ ascii_of_nat 45 :: t ++ suf) = Some (- dec t).
Proof.
  intros Hp Hv Hl Hs.
  pose proof (stoi_signed false t suf Hv Hl Hs) as Hpos.
  pose proof (stoi_signed true t suf Hv Hl Hs) as Hneg.
  cbv beta iota zeta in Hpos, Hneg.
  pose proof Hv as Hv'. apply valid_decimal_spec in Hv'. destruct Hv' as [Hne Hd].
  destruct t as [|c t]; [congruence|].
  pose proof Hd as Hd'. apply all_digits_cons in Hd'. destruct Hd' as [Hc _].
  destruct (digit_not_sign c Hc) as (Hsp & H45 & H43).
  unfold stoi. split; [|split].
  - rewrite (skip_space_app pre ((c :: t) ++ suf)) by exact Hp.
    cbn [app skip_space]. rewrite Hsp, H45, H43.
    cbv beta iota zeta. exact Hpos.
  - rewrite (skip_space_app pre (ascii_of_nat 43 :: (c :: t) ++ suf))
      by exact Hp.
    cbn [skip_space].
    change (is_space (ascii_of_nat 43)) with false. cbv iota.
    change (nat_of_ascii (ascii_of_nat 43) =? 45)%nat with false.
    change (nat_of_ascii (ascii_of_nat 43) =? 43)%nat with true.
    cbv beta iota zeta. exact Hpos.
  - rewrite (skip_space_app pre (ascii_of_nat 45 :: (c :: t) ++ suf))
      by exact Hp.
    cbn [skip_space].
    change (is_space (ascii_of_nat 45)) with false. cbv iota.
    change (nat_of_ascii (ascii_of_nat 45) =? 45)%nat with true.
    cbv beta iota zeta. exact Hneg.
Qed.

(** X19.  The reader is not a validator.  In a text short enough to be a
    single group for [std::stoi] also with a sign in front (7 characters
    at most) that holds a decimal number [t], leading white space, a
    sign [+] and anything after the digits are ignored: the result is
    that of reading [t] alone.  With a sign [-] the reading fails (the
    negative digit fails the assertion of [normalize]) unless the number
    is zero. *)
Theorem parse_lenient (pre t suf : text) :
  forallb is_space pre = true -> valid_decimal t = true ->
  hd_error suf = None \/
  (exists c, hd_error suf = Some c /\ is_digit c = false) ->
  (length (pre ++ t ++ suf) < 8)%nat ->
  exists u,
    parse t = Some u /\ value u = dec t /\
    parse (pre ++ t ++ suf) = Some u /\
    parse (pre ++ ascii_of_nat 43 :: t ++ suf) = Some u /\
    (0 < dec t -> parse (pre ++ ascii_of_nat 45 :: t ++ suf) = None) /\
    (dec t = 0 -> parse (pre ++ ascii_of_nat 45 :: t ++ suf) = Some u).
Proof.
  intros Hp Hv Hs Hl.
  rewrite !length_app in Hl.
  pose proof Hv as Hv'. apply valid_decimal_spec in Hv'. destruct Hv' as [Hne Hd].
  assert (0 < length t)%nat as Ht by (destruct t; [congruence | cbn; lia]).
  destruct (stoi_lenient pre t suf Hp Hv ltac:(lia) Hs) as (E1 & E2 & E3).
  destruct (parse_dec t Hv) as (u & Eu & Hu & Huv).
  assert (normalize (mkUInt [dec t]) = Some u) as En.
  { rewrite parse_short in Eu by lia.
    rewrite stoi_digits in Eu by (trivial; lia). exact Eu. }
  exists u. split; [exact Eu|]. split; [exact Huv|]. split; [|split; [|split]].
  - rewrite parse_short by (rewrite !length_app; lia).
    rewrite E1. exact En.
  - rewrite parse_short by (rewrite length_app; cbn [length];
                           rewrite length_app; lia).
    rewrite E2. exact En.
  - intros Hpos.
    rewrite parse_short by (rewrite length_app; cbn [length];
                           rewrite length_app; lia).
    rewrite E3. cbn [bind]. unfold normalize. cbn [digits rev app pop_zeros].
    cbn [forallb]. unfold digit_ok.
    destruct (Z.leb_spec 0 (- dec t)); [lia | reflexivity].
  - intros H0.
    rewrite parse_short by (rewrite length_app; cbn [length];
                           rewrite length_app; lia).
    rewrite E3. cbn [bind]. rewrite <- En, H0. reflexivity.
Qed.

Lemma parse_lenient_witness :
  exists u,
    parse Samples.twelve = Some u /\ value u = dec Samples.twelve /\
    parse (Samples.blanks ++ Samples.twelve ++ Samples.junk) = Some u /\
    parse (Samples.blanks ++ ascii_of_nat 43 :: Samples.twelve ++ Samples.junk)
    = Some u /\
    parse (Samples.blanks ++ ascii_of_nat 45 :: Samples.twelve ++ Samples.junk)
    = None.
Proof.
  destruct (parse_lenient Samples.blanks Samples.twelve Samples.junk)
    as (u & E & Hv & E1 & E2 & Hneg & _).
  - reflexivity.
  - reflexivity.
  - right. exists (ascii_of_nat 120). split; reflexivity.
  - vm_compute. lia.
  - exists u. split; [exact E|]. split; [exact Hv|]. split; [exact E1|].
    split; [exact E2|]. apply Hneg. reflexivity.
Defined.

(** * The encryption driver *)

(** ** Character codes *)

Lemma symbol_code_range (c : ascii) : 0 <= symbol_code c <= 64.
Proof.
  unfold symbol_code.
  repeat match goal with
         | |- context [if ?b then _ else _] => destruct b eqn:?
         end; try lia;
  repeat match goal with
         | H : (_ && _)%bool = true |- _ =>
             apply andb_true_iff in H; destruct H
         | H : (_ >=? _) = true |- _ => apply Z.geb_le in H
         | H : (_ <=? _) = true |- _ => apply Z.leb_le in H
         end; lia.
Qed.

Lemma symbol_code_inj (c1 c2 : ascii) :
  symbol_code c1 = symbol_code c2 -> symbol_code c1 < 64 -> c1 = c2.
Proof.
  intros He Hlt.
  assert (nat_of_ascii c1 = nat_of_ascii c2) as Hn.
  { revert He Hlt. unfold symbol_code.
    set (s1 := Z.of_nat (nat_of_ascii c1)). set (s2 := Z.of_nat (nat_of_ascii c2)).
    assert (s1 = s2 -> nat_of_ascii c1 = nat_of_ascii c2) as Hs
      by (unfold s1, s2; lia).
    intros He Hlt. apply Hs. clear Hs. revert He Hlt.
    destruct (Z.geb_spec s1 48), (Z.leb_spec s1 57), (Z.geb_spec s1 65),
      (Z.leb_spec s1 90), (Z.geb_spec s1 97), (Z.leb_spec s1 122),
      (Z.eqb_spec s1 32), (Z.eqb_spec s1 46); cbn [andb]; try lia;
    destruct (Z.geb_spec s2 48), (Z.leb_spec s2 57), (Z.geb_spec s2 65),
      (Z.leb_spec s2 90), (Z.geb_spec s2 97), (Z.leb_spec s2 122),
      (Z.eqb_spec s2 32), (Z.eqb_spec s2 46); cbn [andb]; lia. }
  rewrite <- (ascii_nat_embedding c1), <- (ascii_nat_embedding c2), Hn.
  reflexivity.
Qed.

(** X20.  Every character gets a code in [[0, 64]]; the codes below 64
    are those of the decimal digits (0-9), the capital letters (10-35),
    the small letters (36-61), the blank (62) and the full stop (63), and
    no two characters share one of them; every other character gets 64. *)
Theorem symbol_code_alphabet (c : ascii) :
  0 <= symbol_code c <= 64 /\
  (forall c', symbol_code c = symbol_code c' -> symbol_code c < 64 -> c = c') /\
  (symbol_code c < 64 <->
   is_digit c = true \/
   (65 <= nat_of_ascii c <= 90)%nat \/ (97 <= nat_of_ascii c <= 122)%nat \/
   nat_of_ascii c = 32%nat \/ nat_of_ascii c = 46%nat).
Proof.
  split; [apply symbol_code_range|]. split; [intros c'; apply symbol_code_inj|].
  unfold symbol_code, is_digit.
  set (s := Z.of_nat (nat_of_ascii c)).
  assert (s = Z.of_nat (nat_of_ascii c)) as Es by reflexivity.
  rewrite andb_true_iff, !Nat.leb_le.
  destruct (Z.geb_spec s 48), (Z.leb_spec s 57), (Z.geb_spec s 65),
    (Z.leb_spec s 90), (Z.geb_spec s 97), (Z.leb_spec s 122),
    (Z.eqb_spec s 32), (Z.eqb_spec s 46); cbn [andb]; lia.
Qed.

(** ** The message number *)

Lemma start_vector_range (input_msg : text) :
  Forall (fun v => 0 <= v <= 64) (start_vector input_msg).
Proof.
  unfold start_vector. apply Forall_forall. intros v Hv.
  apply in_map_iff in Hv. destruct Hv as (c & <- & _). apply symbol_code_range.
Qed.

Lemma encode_loop_ok {rt : FloatRuntime} (vs : list Z) :
  forall code place,
  Forall (fun v => 0 <= v <= 64) vs -> Inv code -> Inv place ->
  exists r, encode_loop vs code place = Some r /\ Inv r /\
            value r = value code + value place * code_value vs.
Proof.
  induction vs as [|v vs IH]; intros code place Hvs Hc Hp.
  - exists code. cbn [encode_loop code_value]. split; [reflexivity|].
    split; [exact Hc | lia].
  - apply Forall_cons_iff in Hvs. destruct Hvs as [Hv Hvs].
    cbn [encode_loop]. unfold int_op_times, op_times_int.
    destruct (times_assign_int_short place v Hp ltac:(unfold BASE; lia))
      as (t & Et & Hti & Htv).
    rewrite Et. cbn [bind].
    destruct (plus_assign_ok code t Hc Hti) as (c' & Ec & Hci & Hcv).
    rewrite Ec. cbn [bind].
    destruct (times_assign_int_short place 64 Hp ltac:(unfold BASE; lia))
      as (p' & Ep & Hpi & Hpv).
    rewrite Ep. cbn [bind].
    destruct (IH c' p' Hvs Hci Hpi) as (r & Er & Hri & Hrv).
    exists r. split; [exact Er|]. split; [exact Hri|].
    rewrite Hrv, Hcv, Htv, Hpv. cbn [code_value]. ring.
Qed.

Lemma Inv_one : Inv (mkUInt [1]).
Proof. apply wf_Inv. reflexivity. Qed.

Lemma encode_ok {rt : FloatRuntime} (input_msg : text) :
  exists code,
    encode_loop (start_vector input_msg) UInt0 (mkUInt [1]) = Some code /\
    Inv code /\ value code = code_value (start_vector input_msg).
Proof.
  destruct (encode_loop_ok (start_vector input_msg) UInt0 (mkUInt [1])
              (start_vector_range input_msg) Inv_UInt0 Inv_one)
    as (r & E & Hi & Hv).
  exists r. split; [exact E|]. split; [exact Hi|].
  rewrite Hv. unfold value, UInt0. cbn [val digits]. lia.
Qed.

(** X21.  The accumulation loop of [main] always returns, whatever the
    runtime: from [code_number = 0] and [current_place = 1] it leaves
    the normalised [UInt] of the sum of [c_i * 64 ^ i] over the character
    codes [c_i] of the message. *)
Theorem encode_message_number {rt : FloatRuntime} (input_msg : text) :
  exists code,
    encode_loop (start_vector input_msg) UInt0 (mkUInt [1]) = Some code /\
    Inv code /\ value code = code_value (start_vector input_msg) /\
    length (start_vector input_msg) = length input_msg /\
    0 <= value code < 65 ^ Z.of_nat (length input_msg).
Proof.
  destruct (encode_ok input_msg) as (code & E & Hi & Hv).
  exists code. split; [exact E|]. split; [exact Hi|]. split; [exact Hv|].
  split; [apply length_map|]. rewrite Hv.
  unfold start_vector. clear. induction input_msg as [|c s IH].
  - cbn. lia.
  - cbn [map code_value length]. pose proof (symbol_code_range c).
    rewrite Nat2Z.inj_succ, Z.pow_succ_r by lia. lia.
Qed.

Lemma code_value_alphabet (s : text) :
  in_alphabet s = true ->
  0 <= code_value (start_vector s) < 64 ^ Z.of_nat (length s).
Proof.
  unfold in_alphabet, start_vector. induction s as [|c s IH]; intros H.
  - cbn. lia.
  - cbn [forallb] in H. apply andb_true_iff in H. destruct H as [Hc Hs].
    apply Z.ltb_lt in Hc. specialize (IH Hs).
    cbn [map code_value length]. pose proof (symbol_code_range c).
    rewrite Nat2Z.inj_succ, Z.pow_succ_r by lia. lia.
Qed.

Lemma code_value_inj (s1 : text) :
  forall s2, length s1 = length s2 ->
  in_alphabet s1 = true -> in_alphabet s2 = true ->
  code_value (start_vector s1) = code_value (start_vector s2) -> s1 = s2.
Proof.
  induction s1 as [|c1 s1 IH]; intros [|c2 s2] Hl H1 H2 Hv;
    try discriminate; [reflexivity|].
  unfold in_alphabet in H1, H2. cbn [forallb] in H1, H2.
  apply andb_true_iff in H1, H2. destruct H1 as [Hc1 Hs1], H2 as [Hc2 Hs2].
  apply Z.ltb_lt in Hc1, Hc2.
  pose proof (symbol_code_range c1). pose proof (symbol_code_range c2).
  unfold start_vector in Hv. cbn [map code_value] in Hv.
  fold (start_vector s1) in Hv. fold (start_vector s2) in Hv.
  assert (code_value (start_vector s1) = code_value (start_vector s2)) as Ev.
  { destruct (Z.lt_trichotomy (code_value (start_vector s1))
                (code_value (start_vector s2))) as [Hlt|[He|Hgt]]; lia. }
  assert (symbol_code c1 = symbol_code c2) as Ec by lia.
  f_equal.
  - apply symbol_code_inj; assumption.
  - apply IH; trivial. cbn [length] in Hl. lia.
Qed.

Lemma code_value_app (xs ys : list Z) :
  code_value (xs ++ ys)
  = code_value xs + 64 ^ Z.of_nat (length xs) * code_value ys.
Proof.
  induction xs as [|x xs IH].
  - cbn [app code_value length]. change (Z.of_nat 0) with 0.
    rewrite Z.pow_0_r. lia.
  - cbn [app code_value length]. rewrite IH, Nat2Z.inj_succ, Z.pow_succ_r by lia.
    ring.
Qed.

(** X22.  What the message number tells about the message.  Two messages
    of the same length over the 64-character alphabet with the same
    number are the same message.  The length itself is lost: a message
    and the message followed by the character ['0'] (code 0) get the same
    number.  A character outside the alphabet (code 64) is taken for the
    pair ['0'], ['1']: it overflows into the next place. *)
Theorem message_number_decodable {rt : FloatRuntime} (m1 m2 : text) :
  (forall code,
     encode_loop (start_vector m1) UInt0 (mkUInt [1]) = Some code ->
     encode_loop (start_vector m2) UInt0 (mkUInt [1]) = Some code ->
     length m1 = length m2 ->
     in_alphabet m1 = true -> in_alphabet m2 = true -> m1 = m2) /\
  encode_loop (start_vector (m1 ++ [ascii_of_nat 48])) UInt0 (mkUInt [1])
  = encode_loop (start_vector m1) UInt0 (mkUInt [1]) /\
  (forall c, symbol_code c = 64 ->
     encode_loop (start_vector (c :: ascii_of_nat 48 :: m1)) UInt0 (mkUInt [1])
     = encode_loop (start_vector (ascii_of_nat 48 :: ascii_of_nat 49 :: m1))
         UInt0 (mkUInt [1])).
Proof.
  split; [|split].
  - intros code E1 E2 Hl H1 H2.
    destruct (encode_ok m1) as (c1 & F1 & _ & Hv1).
    destruct (encode_ok m2) as (c2 & F2 & _ & Hv2).
    apply code_value_inj; trivial. congruence.
  - destruct (encode_ok (m1 ++ [ascii_of_nat 48])) as (c1 & F1 & Hi1 & Hv1).
    destruct (encode_ok m1) as (c2 & F2 & Hi2 & Hv2).
    rewrite F1, F2. f_equal. apply Inv_value_inj; trivial.
    rewrite Hv1, Hv2. unfold start_vector. rewrite map_app, code_value_app.
    cbn [map code_value]. change (symbol_code (ascii_of_nat 48)) with 0.
    ring.
  - intros c Hc.
    destruct (encode_ok (c :: ascii_of_nat 48 :: m1)) as (c1 & F1 & Hi1 & Hv1).
    destruct (encode_ok (ascii_of_nat 48 :: ascii_of_nat 49 :: m1))
      as (c2 & F2 & Hi2 & Hv2).
    rewrite F1, F2. f_equal. apply Inv_value_inj; trivial.
    rewrite Hv1, Hv2. unfold start_vector. cbn [map code_value]. rewrite Hc.
    change (symbol_code (ascii_of_nat 48)) with 0.
    change (symbol_code (ascii_of_nat 49)) with 1. lia.
Qed.

(** ** The digits of radix [prime] *)

Lemma radix_value_snoc (p : Z) (ds : list Z) (d : Z) :
  radix_value p (ds ++ [d])
  = radix_value p ds + p ^ Z.of_nat (length ds) * d.
Proof.
  induction ds as [|x ds IH].
  - cbn [app radix_value length]. change (Z.of_nat 0) with 0.
    rewrite Z.pow_0_r. ring.
  - cbn [app radix_value length]. rewrite IH, Nat2Z.inj_succ, Z.pow_succ_r by lia.
    ring.
Qed.

Lemma radix_value_nonneg (p : Z) (ds : list Z) :
  0 <= p -> Forall (fun d => 0 <= d < p) ds -> 0 <= radix_value p ds.
Proof.
  intros Hp H. induction H as [|d ds Hd _ IH]; cbn [radix_value]; nia.
Qed.

Lemma op_gt_zero (a : UInt) : Inv a -> op_gt a UInt0 = (0 <? value a).
Proof.
  intros Ha. unfold op_gt. rewrite (compare_value a UInt0 Ha Inv_UInt0).
  change (value UInt0) with 0.
  destruct (Z.compare_spec (value a) 0) as [E|E|E]; cbn [sign_of];
    destruct (Z.ltb_spec 0 (value a)); try reflexivity; lia.
Qed.

Lemma div_assign_int_value {rt : FloatRuntime} (a : UInt) (num : Z) :
  spectral_ok 2 -> Inv a -> 0 < num ->
  exists q, div_assign_int a num = Some q /\ Inv q /\ value q = value a / num.
Proof.
  intros Hsp Ha Hn. destruct (Z_lt_le_dec num BASE) as [Hlt|Hge].
  - apply div_assign_int_short; [assumption | lia].
  - rewrite div_assign_int_escalates by assumption.
    destruct (UInt_of_int_ok num ltac:(lia)) as (o & Ho & Hoi & Hov).
    rewrite Ho. cbn [bind]. rewrite <- Hov.
    apply (op_div_ok Hsp); trivial. lia.
Qed.

Section Radix.
Context {rt : FloatRuntime}.
Hypothesis Hsp : spectral_ok 2.
Variable p : Z.
Hypothesis Hp : 2 <= p <= 9223372036.

Lemma radix_body_ok (ds : list Z) (code : UInt) :
  Inv code ->
  exists code',
    radix_body p (ds, code) = Some (ds ++ [value code mod p], code') /\
    Inv code' /\ value code' = value code / p.
Proof.
  intros Hc. unfold radix_body. cbn [fst snd].
  rewrite op_mod_int_ok by (trivial; lia). cbn [bind].
  destruct (div_assign_int_value code p Hsp Hc ltac:(lia)) as (q & E & Hq & Hv).
  rewrite E. cbn [bind]. exists q.
  split; [reflexivity|]. split; assumption.
Qed.

Lemma radix_step (V : Z) (ds : list Z) (code : UInt) :
  Inv code -> Forall (fun d => 0 <= d < p) ds ->
  radix_value p ds + p ^ Z.of_nat (length ds) * value code = V ->
  (ds <> [] -> 0 < value code) ->
  exists ds' code',
    radix_body p (ds, code) = Some (ds', code') /\
    Inv code' /\ ds' <> [] /\ Forall (fun d => 0 <= d < p) ds' /\
    radix_value p ds' + p ^ Z.of_nat (length ds') * value code' = V /\
    (0 < V -> 0 < value code' \/ last ds' 0 <> 0) /\
    (V = 0 -> ds' = [0]) /\
    value code' = value code / p.
Proof.
  intros Hc HF HV Hpos.
  destruct (radix_body_ok ds code Hc) as (code' & E & Hi & Hv).
  pose proof (value_nonneg code Hc) as Hnn.
  pose proof (Z.div_mod (value code) p ltac:(lia)) as Hdm.
  pose proof (Z.mod_pos_bound (value code) p ltac:(lia)) as Hmb.
  pose proof (Z.div_pos (value code) p ltac:(lia) ltac:(lia)) as Hq.
  pose proof (radix_value_nonneg p ds ltac:(lia) HF) as Hrn.
  assert (0 < p ^ Z.of_nat (length ds)) as Hpp
    by (apply Z.pow_pos_nonneg; lia).
  exists (ds ++ [value code mod p]), code'.
  split; [exact E|]. split; [exact Hi|]. split.
  { intros E'. apply app_eq_nil in E'. destruct E'; discriminate. }
  split.
  { apply Forall_app. split; [exact HF|]. constructor; [lia | constructor]. }
  split.
  { rewrite radix_value_snoc, length_app. cbn [length].
    rewrite Nat2Z.inj_add, Z.pow_add_r, Hv by lia.
    change (Z.of_nat 1) with 1. rewrite Z.pow_1_r. rewrite <- HV. nia. }
  split.
  { intros HVp. rewrite last_last, Hv.
    destruct (Z.eq_dec (value code / p) 0) as [E0|E0]; [right | left; lia].
    destruct ds as [|x ds0].
    - cbn [radix_value length] in HV. change (Z.of_nat 0) with 0 in HV.
      rewrite Z.pow_0_r in HV. lia.
    - specialize (Hpos ltac:(discriminate)). lia. }
  split; [|exact Hv].
  intros HV0. destruct ds as [|x ds0].
  - cbn [radix_value length] in HV. change (Z.of_nat 0) with 0 in HV.
    rewrite Z.pow_0_r in HV. assert (value code = 0) as -> by lia.
    reflexivity.
  - specialize (Hpos ltac:(discriminate)). nia.
Qed.

Lemma ready_code_ok (code : UInt) :
  Inv code ->
  exists ds,
    ready_code p code = Some ds /\ ds <> [] /\
    Forall (fun d => 0 <= d < p) ds /\ radix_value p ds = value code /\
    (0 < value code -> last ds 0 <> 0) /\ (value code = 0 -> ds = [0]).
Proof.
  intros Hc. unfold ready_code, ready_code_with.
  set (V := value code).
  destruct (radix_step V [] code Hc ltac:(constructor))
    as (ds1 & c1 & E1 & Hi1 & Hne1 & HF1 & HV1 & Hl1 & Hz1 & Hq1).
  { cbn [radix_value length]. change (Z.of_nat 0) with 0.
    rewrite Z.pow_0_r. unfold V. lia. }
  { congruence. }
  rewrite E1. cbn [bind].
  pose (I := fun st : list Z * UInt =>
               Inv (snd st) /\ fst st <> [] /\
               Forall (fun d => 0 <= d < p) (fst st) /\
               radix_value p (fst st)
               + p ^ Z.of_nat (length (fst st)) * value (snd st) = V /\
               (0 < V -> 0 < value (snd st) \/ last (fst st) 0 <> 0) /\
               (V = 0 -> fst st = [0])).
  assert (forall s, I s -> radix_cond s = true ->
          exists s', radix_body p s = Some s' /\ I s' /\
                     0 <= value (snd s') < value (snd s)) as Hstep.
  { intros [ds c] (Hi & Hne & HF & HV & _ & _) Hcond. cbn [fst snd] in *.
    unfold radix_cond in Hcond. cbn [snd] in Hcond.
    rewrite op_gt_zero in Hcond by exact Hi. apply Z.ltb_lt in Hcond.
    destruct (radix_step V ds c Hi HF HV ltac:(intros _; exact Hcond))
      as (ds' & c' & E & Hi' & Hne' & HF' & HV' & Hl' & Hz' & Hq').
    exists (ds', c'). split; [exact E|]. split.
    - unfold I. cbn [fst snd]. tauto.
    - cbn [snd]. rewrite Hq'. split; [apply Z.div_pos; lia|].
      apply Z.div_lt; lia. }
  destruct (while_total (list Z * UInt) radix_cond (radix_body p) I
              (fun st => value (snd st)) Hstep
              (30 * length (digits code) + 1) (ds1, c1))
    as ([ds c] & Ew & (Hi & Hne & HF & HV & Hl & Hz) & Hcond).
  { unfold I. cbn [fst snd]. tauto. }
  { cbn [snd]. split; [apply value_nonneg, Hi1|].
    rewrite Hq1. pose proof (pow2_bound code Hc).
    pose proof (value_nonneg code Hc).
    assert (value code / p <= value code); [|lia].
    apply Z.div_le_upper_bound; nia. }
  rewrite Ew. cbn [bind fst snd] in *. exists ds.
  unfold radix_cond in Hcond. cbn [snd] in Hcond.
  rewrite op_gt_zero in Hcond by exact Hi. apply Z.ltb_ge in Hcond.
  pose proof (value_nonneg c Hi).
  assert (value c = 0) as Hc0 by lia. rewrite Hc0 in HV.
  split; [reflexivity|]. split; [exact Hne|]. split; [exact HF|].
  split; [fold V; lia|]. split.
  - intros HVp. destruct (Hl HVp); [lia | assumption].
  - exact Hz.
Qed.
End Radix.


(** X23.  The digit loop of [main] (lines 575-578), for a modulus
    [2 <= prime <= 9223372036] and under a sane cost estimate: it returns
    the digits of [code_number] in radix [prime], least-significant
    first: at least one digit, every digit in [[0, prime)], no
    most-significant zero digit, and the single digit 0 for the number
    zero. *)
Theorem ready_code_radix {rt : FloatRuntime} (prime : Z) (code_number : UInt) :
  cost_sane -> 2 <= prime <= 9223372036 -> Inv code_number ->
  exists ds,
    ready_code prime code_number = Some ds /\ ds <> [] /\
    Forall (fun d => 0 <= d < prime) ds /\
    radix_value prime ds = value code_number /\
    (0 < value code_number -> last ds 0 <> 0) /\
    (value code_number = 0 -> ds = [0]).
Proof.
  intros Hc Hp Hi. apply ready_code_ok; trivial.
  apply cost_sane_short; [exact Hc | lia].
Qed.

Lemma ready_code_radix_witness :
  exists ds,
    ready_code (rt := exact_runtime) 1000003 (mkUInt [123456789; 987654321; 5])
    = Some ds /\ ds <> [] /\
    Forall (fun d => 0 <= d < 1000003) ds /\
    radix_value 1000003 ds = value (mkUInt [123456789; 987654321; 5]) /\
    (0 < value (mkUInt [123456789; 987654321; 5]) -> last ds 0 <> 0) /\
    (value (mkUInt [123456789; 987654321; 5]) = 0 -> ds = [0]).
Proof.
  apply (ready_code_radix (rt := exact_runtime)).
  - exact exact_runtime_cost_sane.
  - lia.
  - apply wf_Inv. reflexivity.
Defined.

Lemma ready_code_with_nonpositive {rt : FloatRuntime} (fuel : nat)
      (prime : Z) (code_number : UInt) :
  prime <= 0 -> ready_code_with fuel prime code_number = None.
Proof.
  intros Hp. unfold ready_code_with, radix_body, op_mod_int.
  cbn [snd]. destruct (Z.gtb_spec prime 0); [lia | reflexivity].
Qed.



(** ** Exponentiation on operands of at most 15 digits *)

Section SmallPower.
Context {rt : FloatRuntime}.
Hypothesis Hc : cost_sane.
Variable m : Z.
Hypothesis Hm : 0 < m <= INT64_MAX.

Lemma pow_step_small (T : Z) (s : UInt * UInt * Z) :
  pow_inv (Some m) T s /\ size (snd (fst s)) <= 15 -> pow_cond s = true ->
  exists s', pow_body (Some m) s = Some s' /\
             (pow_inv (Some m) T s' /\ size (snd (fst s')) <= 15) /\
             0 <= snd s' < snd s.
Proof.
  destruct s as [[res a] n]. intros [(Hres & Ha & Hn & Hv) Hsz] Hcond.
  unfold pow_cond in Hcond. cbn [fst snd] in *. apply Z.gtb_lt in Hcond.
  pose proof (cost_sane_spectral_ok Hc) as H15.
  pose proof (cost_sane_short 2 Hc ltac:(lia)) as H2.
  pose proof (Z.div_mod n 2 ltac:(lia)) as Hdm.
  pose proof (Z.mod_pos_bound n 2 ltac:(lia)) as Hmb.
  pose proof (Z.div_pos n 2 ltac:(lia) ltac:(lia)) as Hq.
  assert (Z.rem n 2 = n mod 2) as Er by (apply Z.rem_mod_nonneg; lia).
  assert (Z.quot n 2 = n / 2) as Eq by (apply Z.quot_div_nonneg; lia).
  unfold pow_body. rewrite Er, Eq.
  assert (exists res',
            (if negb (n mod 2 =? 0) then times_assign res a else Some res)
            = Some res' /\ Inv res' /\
            value res' = value res * value a ^ (n mod 2))
    as (res' & E1 & Hi1 & Hv1).
  { destruct (Z.eqb_spec (n mod 2) 0) as [E|E]; cbn [negb].
    - exists res. rewrite E, Z.pow_0_r. split; [reflexivity|].
      split; [assumption | lia].
    - assert (n mod 2 = 1) as -> by lia. rewrite Z.pow_1_r.
      apply (mult_ok 15); assumption. }
  rewrite E1. cbn [bind].
  destruct (mult_ok 15 a a H15 Ha Ha Hsz) as (a2 & E2 & Hi2 & Hv2).
  unfold times_assign, op_times. rewrite E2. cbn [bind].
  destruct (UInt_of_int_ok m ltac:(lia)) as (mu & Emu & Himu & Hvmu).
  rewrite Emu. cbn [bind].
  destruct (op_mod_ok H2 a2 mu Hi2 Himu ltac:(lia)) as (a3 & E3 & Hi3 & Hv3).
  rewrite E3. cbn [bind]. eexists. split; [reflexivity|].
  cbn [fst snd]. split; [|lia]. split.
  - unfold pow_inv. split; [exact Hi1|]. split; [exact Hi3|]. split; [lia|].
    rewrite Hv1, Hv3, Hv2, Hvmu, <- Hv. apply pow_step_mod; lia.
  - apply size_le_of_value; [exact Hi3 | lia |].
    pose proof (Z.mod_pos_bound (value a2) m ltac:(lia)).
    pose proof INT64_MAX_digits. rewrite Hv3, Hvmu. lia.
Qed.

(** [pow(a, n, mod)] on a base of at most 15 digits never leaves the
    schoolbook multiplier. *)
Lemma pow_small_ok (a : UInt) (n : Z) :
  Inv a -> size a <= 15 -> 0 <= n ->
  exists r, pow a n m = Some r /\ Inv r /\
            value r mod m = value a ^ n mod m.
Proof.
  intros Ha Hsz Hn. unfold pow. rewrite UInt_of_int_1. cbn [bind].
  destruct (Z.eqb_spec m (-1)) as [|_]; [lia|].
  destruct (while_total (UInt * UInt * Z) pow_cond (pow_body (Some m))
              (fun s => pow_inv (Some m) (value a ^ n) s /\
                        size (snd (fst s)) <= 15)
              (fun st => snd st)
              (pow_step_small (value a ^ n))
              (S (Z.to_nat (Z.log2 n))) (mkUInt [1], a, n))
    as ([[res' a'] n'] & Hw & [Hinv _] & Hcond).
  - cbn [fst snd]. split; [|exact Hsz].
    unfold pow_inv. split; [exact Inv_one|]. split; [exact Ha|].
    split; [exact Hn|]. f_equal. unfold value at 1. cbn [val digits]. lia.
  - cbn [snd]. split; [assumption | apply log2_fuel; assumption].
  - rewrite Hw. cbn [bind fst]. exists res'.
    destruct Hinv as (Hir & _ & Hn' & Hv).
    assert (n' = 0) as ->.
    { unfold pow_cond in Hcond. cbn [snd] in Hcond.
      destruct (Z.gtb_spec n' 0); [discriminate | lia]. }
    split; [reflexivity|]. split; [exact Hir|].
    rewrite Z.pow_0_r, Z.mul_1_r in Hv. exact Hv.
Qed.
End SmallPower.

(** X25.  [pow(a, n, mod)] on the operands of [main]: for a base of at
    most 15 digits, an exponent [n >= 0] and a modulus
    [0 < mod <= INT64_MAX], a sane cost estimate is all the runtime has
    to offer: every product of the loop is made by the schoolbook
    multiplier, the loop ends, and the result is congruent to [a ^ n]
    modulo [mod]. *)
Theorem pow_small_congruent {rt : FloatRuntime} (a : UInt) (n m : Z) :
  cost_sane -> Inv a -> size a <= 15 -> 0 <= n -> 0 < m <= INT64_MAX ->
  exists r, pow a n m = Some r /\ Inv r /\
            value r mod m = value a ^ n mod m.
Proof.
  intros Hc Ha Hs Hn Hm. apply pow_small_ok; assumption.
Qed.

Lemma pow_small_congruent_witness :
  exists r, pow (rt := exact_runtime) (mkUInt [123456789; 5]) 11 1000003
            = Some r /\ Inv r /\
            value r mod 1000003 = value (mkUInt [123456789; 5]) ^ 11 mod 1000003.
Proof.
  apply (pow_small_congruent (rt := exact_runtime)).
  - exact exact_runtime_cost_sane.
  - apply wf_Inv. reflexivity.
  - vm_compute. discriminate.
  - lia.
  - unfold INT64_MAX. lia.
Defined.

(** ** The cipher *)

Lemma of_int64_small (x : Z) :
  0 <= x <= INT64_MAX ->
  exists u, UInt_of_int x = Some u /\ Inv u /\ value u = x /\ size u <= 15.
Proof.
  intros Hx. destruct (UInt_of_int_ok x ltac:(lia)) as (u & E & Hi & Hv).
  exists u. split; [exact E|]. split; [exact Hi|]. split; [exact Hv|].
  apply size_le_of_value; [exact Hi | lia |].
  pose proof INT64_MAX_digits. lia.
Qed.

Lemma power_of_power_mod (g key p b x d : Z) :
  0 < p -> 0 <= b -> 0 <= x -> key mod p = g ^ x mod p ->
  ((g ^ b mod p) ^ x * d) mod p = (key ^ b * d) mod p.
Proof.
  intros Hp Hb Hx Hk.
  rewrite <- (Z.mul_mod_idemp_l ((g ^ b mod p) ^ x)) by lia.
  rewrite <- (Z.mul_mod_idemp_l (key ^ b)) by lia.
  f_equal. f_equal.
  rewrite Z.mod_pow_l, <- (Z.mod_pow_l key), Hk, Z.mod_pow_l.
  rewrite <- !Z.pow_mul_r by lia. f_equal. f_equal. lia.
Qed.

Section Cipher.
Context {rt : FloatRuntime}.
Hypothesis Hc : cost_sane.
Variable p : Z.
Hypothesis Hp : 0 < p <= 9223372036.

Lemma encrypt_digit_ok (temp k : UInt) (b digit : Z) :
  Inv temp -> size temp <= 15 -> Inv k -> size k <= 15 ->
  0 <= b -> 0 <= digit <= INT64_MAX ->
  encrypt_digit temp k p b digit
  = Some (value temp ^ b mod p, (value k ^ b * digit) mod p).
Proof.
  intros Ht Hts Hk Hks Hb Hd. unfold encrypt_digit.
  assert (0 < p <= INT64_MAX) as Hp' by (unfold INT64_MAX; lia).
  destruct (pow_small_ok Hc p Hp' temp b Ht Hts Hb) as (p1 & E1 & Hi1 & Hv1).
  rewrite E1. cbn [bind].
  rewrite op_mod_int_ok by assumption. cbn [bind].
  destruct (pow_small_ok Hc p Hp' k b Hk Hks Hb) as (p2 & E2 & Hi2 & Hv2).
  rewrite E2. cbn [bind].
  pose proof INT64_MAX_digits.
  destruct (times_assign_int_ok 15 p2 digit (cost_sane_spectral_ok Hc) Hi2
              ltac:(lia) ltac:(lia)) as (t & Et & Hti & Htv).
  rewrite Et. cbn [bind].
  rewrite op_mod_int_ok by assumption. cbn [bind].
  rewrite Hv1, Htv. do 2 f_equal.
  rewrite <- Z.mul_mod_idemp_l, Hv2, Z.mul_mod_idemp_l by lia. reflexivity.
Qed.

Variable rand : nat -> Z.
Hypothesis Hrand : forall i, 0 <= rand i.
Hypothesis Hp3 : p <> 3.

End Cipher.

(** X26.  One output line of [main], for the digit [d] and the exponent
    [b]: the two numbers are [g ^ b mod prime] and
    [key ^ b * d mod prime].  They are an ElGamal pair: for every [x]
    with [key = g ^ x] modulo [prime], the second number is the first
    one to the power [x], times [d], modulo [prime]. *)
Theorem encrypt_digit_pair {rt : FloatRuntime} (g key prime b d : Z) :
  cost_sane -> 0 < prime <= 9223372036 ->
  0 <= g <= INT64_MAX -> 0 <= key <= INT64_MAX ->
  0 <= b -> 0 <= d <= INT64_MAX ->
  exists temp k,
    UInt_of_int g = Some temp /\ UInt_of_int key = Some k /\
    encrypt_digit temp k prime b d
    = Some (g ^ b mod prime, (key ^ b * d) mod prime) /\
    (forall x, 0 <= x -> key mod prime = g ^ x mod prime ->
               ((g ^ b mod prime) ^ x * d) mod prime
               = (key ^ b * d) mod prime).
Proof.
  intros Hc Hp Hg Hk Hb Hd.
  destruct (of_int64_small g Hg) as (temp & Et & Hti & Htv & Hts).
  destruct (of_int64_small key Hk) as (k & Ek & Hki & Hkv & Hks).
  exists temp, k. split; [exact Et|]. split; [exact Ek|]. split.
  - rewrite (encrypt_digit_ok Hc prime Hp temp k b d); trivial.
    rewrite Htv, Hkv. reflexivity.
  - intros x Hx Hkey. apply power_of_power_mod; trivial. lia.
Qed.

Lemma encrypt_digit_pair_witness :
  exists temp k,
    UInt_of_int 5 = Some temp /\ UInt_of_int 8 = Some k /\
    encrypt_digit (rt := exact_runtime) temp k 23 6 17
    = Some (5 ^ 6 mod 23, (8 ^ 6 * 17) mod 23) /\
    (forall x, 0 <= x -> 8 mod 23 = 5 ^ x mod 23 ->
               ((5 ^ 6 mod 23) ^ x * 17) mod 23 = (8 ^ 6 * 17) mod 23).
Proof.
  apply (encrypt_digit_pair (rt := exact_runtime)).
  - exact exact_runtime_cost_sane.
  - lia.
  - unfold INT64_MAX. lia.
  - unfold INT64_MAX. lia.
  - lia.
  - unfold INT64_MAX. lia.
Defined.



Lemma ready_code_with_nonempty {rt : FloatRuntime} (fuel : nat) (prime : Z)
      (code_number : UInt) (ds : list Z) :
  ready_code_with fuel prime code_number = Some ds -> ds <> [].
Proof.
  unfold ready_code_with. intros H. inv_bind H. injection H as <-.
  assert (forall s s', radix_body prime s = Some s' -> fst s' <> []) as Hb.
  { intros s s' E. unfold radix_body in E. inv_bind E. injection E as <-.
    cbn [fst]. intros E'. apply app_eq_nil in E'. destruct E'; discriminate. }
  apply (while_partial (list Z * UInt) radix_cond (radix_body prime)
           (fun st => fst st <> [])) in Hx0.
  - apply Hx0.
  - intros s s' _ _ E. apply (Hb s s' E).
  - apply (Hb _ _ Hx).
Qed.

(** X28.  Inputs on which [main] stops before it writes anything.  For
    [prime <= 0] the first [code_number % prime] fails its assertion.
    For [2 <= prime <= 9223372036] the digit loop returns (under a sane
    cost estimate), and then a negative [g] fails the assertion of
    [UInt temp(g)], a negative [key] that of [UInt k(key)], and
    [prime = 3] makes [rand() % (prime - 3)] of the first line a division
    by zero. *)
Theorem main_rejects {rt : FloatRuntime} (rand : nat -> Z)
        (prime g key : Z) (input_msg : text) :
  exists code_number,
    encode_loop (start_vector input_msg) UInt0 (mkUInt [1]) = Some code_number /\
    (prime <= 0 ->
     op_mod_int code_number prime = None /\
     main rand prime g key input_msg = None) /\
    (cost_sane -> 2 <= prime <= 9223372036 ->
     exists ds,
       ready_code prime code_number = Some ds /\ ds <> [] /\
       (g < 0 ->
        UInt_of_int g = None /\ main rand prime g key input_msg = None) /\
       (0 <= g -> key < 0 ->
        UInt_of_int key = None /\ main rand prime g key input_msg = None) /\
       (0 <= g -> 0 <= key -> prime = 3 ->
        exponent rand prime 0 = None /\
        main rand prime g key input_msg = None)).
Proof.
  destruct (encode_ok input_msg) as (code & Ec & Hci & Hcv).
  exists code. split; [exact Ec|].
  assert (main rand prime g key input_msg
          = do ready_code <- ready_code prime code;
            do temp <- UInt_of_int g;
            do k <- UInt_of_int key;
            encrypt_loop rand ready_code 0 temp k prime [] []) as Hmain.
  { unfold main. rewrite UInt_of_int_1. cbn [bind].
    change (UInt_of_int 0) with (Some UInt0). cbn [bind].
    rewrite Ec. reflexivity. }
  split.
  - intros Hp. split.
    + unfold op_mod_int. destruct (Z.gtb_spec prime 0); [lia | reflexivity].
    + rewrite Hmain. unfold ready_code.
      rewrite ready_code_with_nonpositive by exact Hp. reflexivity.
  - intros Hc Hp.
    destruct (ready_code_ok (cost_sane_short 2 Hc ltac:(lia)) prime Hp code Hci)
      as (ds & Er & Hne & _).
    exists ds. split; [exact Er|]. split; [exact Hne|].
    rewrite Hmain, Er. cbn [bind].
    assert (forall x, x < 0 -> UInt_of_int x = None) as Hneg.
    { intros x Hx. unfold UInt_of_int.
      destruct (Z.geb_spec x 0); [lia | reflexivity]. }
    split; [|split].
    + intros Hg. rewrite (Hneg g Hg). split; reflexivity.
    + intros Hg Hk. destruct (UInt_of_int_ok g Hg) as (temp & Et & _).
      rewrite Et, (Hneg key Hk). split; reflexivity.
    + intros Hg Hk ->.
      destruct (UInt_of_int_ok g Hg) as (temp & Et & _).
      destruct (UInt_of_int_ok key Hk) as (k & Ek & _).
      rewrite Et, Ek. cbn [bind].
      destruct ds as [|d ds]; [congruence|].
      split; reflexivity.
Qed.

Lemma main_rejects_witness :
  exponent (fun _ => 11) 3 0 = None /\
  main (rt := exact_runtime) (fun _ => 11) 3 2 5 Samples.message = None.
Proof.
  destruct (main_rejects (rt := exact_runtime) (fun _ => 11) 3 2 5
              Samples.message) as (code & _ & _ & H).
  destruct (H exact_runtime_cost_sane ltac:(lia)) as (ds & _ & _ & _ & _ & H3).
  apply H3; [lia | lia | reflexivity].
Defined.

(** * The index computations of the transform *)

Lemma shl1_Some (i : Z) : 0 <= i < 31 -> shl1 i = Some (2 ^ i).
Proof.
  intros H. unfold shl1.
  rewrite assert_true by (apply andb_true_iff; split;
                          [apply Z.leb_le | apply Z.ltb_lt]; lia).
  cbn [bind]. rewrite Z.shiftl_1_l. reflexivity.
Qed.

Lemma land_pow2_eqb (n i : Z) :
  0 <= i -> (Z.land n (2 ^ i) =? 0) = negb (Z.testbit n i).
Proof.
  intros Hi. destruct (Z.testbit n i) eqn:Hb; cbn [negb].
  - apply Z.eqb_neq. intros E.
    apply (f_equal (fun z => Z.testbit z i)) in E.
    rewrite Z.land_spec, Hb, Z.pow2_bits_true, Z.bits_0 in E by lia.
    discriminate.
  - apply Z.eqb_eq. apply Z.bits_inj'. intros j Hj.
    rewrite Z.land_spec, Z.bits_0, Z.pow2_bits_eqb by lia.
    destruct (Z.eqb_spec i j) as [->|]; [rewrite Hb; reflexivity|].
    apply andb_false_r.
Qed.

(** The loop of [reverse], bit by bit. *)
Lemma reverse_loop_bits (count : nat) (number nBits : Z) :
  forall i res,
  0 <= i -> i + Z.of_nat count <= nBits <= 31 ->
  exists r,
    reverse_loop count i number nBits res = Some r /\
    forall j, 0 <= j ->
      Z.testbit r j
      = Z.testbit res j
        || ((i <=? nBits - 1 - j) && (nBits - 1 - j <? i + Z.of_nat count)
            && Z.testbit number (nBits - 1 - j)).
Proof.
  induction count as [|count IH]; intros i res Hi Hn.
  - exists res. split; [reflexivity|]. intros j Hj.
    destruct (Z.leb_spec i (nBits - 1 - j));
      destruct (Z.ltb_spec (nBits - 1 - j) (i + Z.of_nat 0));
      cbn [andb]; try lia; rewrite orb_false_r; reflexivity.
  - cbn [reverse_loop]. rewrite shl1_Some by lia. cbn [bind].
    rewrite land_pow2_eqb, negb_involutive by lia.
    assert (exists res',
              (if Z.testbit number i
               then do s <- shl1 (nBits - 1 - i); Some (Z.lor res s)
               else Some res) = Some res' /\
              forall j, 0 <= j ->
                Z.testbit res' j
                = Z.testbit res j
                  || ((nBits - 1 - j =? i) && Z.testbit number (nBits - 1 - j)))
      as (res' & E & Hres).
    { destruct (Z.testbit number i) eqn:Hb.
      - rewrite shl1_Some by lia. cbn [bind]. eexists. split; [reflexivity|].
        intros j Hj. rewrite Z.lor_spec, Z.pow2_bits_eqb by lia.
        f_equal. destruct (Z.eqb_spec (nBits - 1 - i) j) as [E|E];
          destruct (Z.eqb_spec (nBits - 1 - j) i) as [E'|E']; try lia.
        all: try rewrite E', Hb; reflexivity.
      - exists res. split; [reflexivity|]. intros j Hj.
        destruct (Z.eqb_spec (nBits - 1 - j) i) as [E'|E'];
          [rewrite E', Hb|]; cbn [andb]; rewrite ?andb_false_r, orb_false_r;
          reflexivity. }
    rewrite E. cbn [bind].
    destruct (IH (i + 1) res' ltac:(lia) ltac:(lia)) as (r & Er & Hr).
    exists r. split; [exact Er|]. intros j Hj.
    rewrite Hr, Hres by exact Hj. rewrite <- orb_assoc. f_equal.
    destruct (Z.testbit number (nBits - 1 - j)); rewrite ?andb_false_r, ?andb_true_r;
      [|reflexivity].
    destruct (Z.eqb_spec (nBits - 1 - j) i);
      destruct (Z.leb_spec (i + 1) (nBits - 1 - j));
      destruct (Z.ltb_spec (nBits - 1 - j) (i + 1 + Z.of_nat count));
      destruct (Z.leb_spec i (nBits - 1 - j));
      destruct (Z.ltb_spec (nBits - 1 - j) (i + Z.of_nat (S count)));
      cbn [andb orb]; try reflexivity; lia.
Qed.

Lemma reverse_bits (number nBits : Z) :
  0 <= nBits <= 31 ->
  exists r,
    reverse number nBits = Some r /\
    forall j, 0 <= j ->
      Z.testbit r j = (j <? nBits) && Z.testbit number (nBits - 1 - j).
Proof.
  intros Hn. unfold reverse.
  destruct (reverse_loop_bits (Z.to_nat nBits) number nBits 0 0
              ltac:(lia) ltac:(lia)) as (r & E & Hr).
  exists r. split; [exact E|]. intros j Hj. rewrite Hr by exact Hj.
  rewrite Z.bits_0. cbn [orb]. f_equal.
  destruct (Z.leb_spec 0 (nBits - 1 - j));
    destruct (Z.ltb_spec (nBits - 1 - j) (0 + Z.of_nat (Z.to_nat nBits)));
    destruct (Z.ltb_spec j nBits); cbn [andb]; try reflexivity; lia.
Qed.

Lemma bits_range (r n : Z) :
  0 <= n -> (forall j, 0 <= j -> n <= j -> Z.testbit r j = false) ->
  0 <= r < 2 ^ n.
Proof.
  intros Hn H.
  assert (0 <= r) as Hr.
  { destruct (Z_lt_le_dec r 0) as [Hneg|]; [|assumption].
    destruct (Z.bits_iff_neg_ex r) as [Hex _]. specialize (Hex Hneg).
    destruct Hex as (k & Hk).
    specialize (Hk (Z.max (k + 1) n) ltac:(lia)).
    rewrite H in Hk by lia. discriminate. }
  split; [exact Hr|].
  destruct (Z.eq_dec r 0) as [->|Hnz]; [apply Z.pow_pos_nonneg; lia|].
  apply Z.log2_lt_pow2; [lia|].
  destruct (Z_lt_le_dec (Z.log2 r) n) as [|Hge]; [assumption|].
  pose proof (Z.bit_log2 r ltac:(lia)) as Hb.
  rewrite H in Hb; [discriminate | apply Z.log2_nonneg | exact Hge].
Qed.

Lemma bits_above (x n j : Z) :
  0 <= x < 2 ^ n -> n <= j -> Z.testbit x j = false.
Proof.
  intros Hx Hj. destruct (Z.eq_dec x 0) as [->|Hnz]; [apply Z.bits_0|].
  apply Z.bits_above_log2; [lia|].
  assert (Z.log2 x < n); [|lia].
  apply Z.log2_lt_pow2; lia.
Qed.

Lemma reverse_twice (number nBits : Z) :
  0 <= nBits <= 31 -> 0 <= number < 2 ^ nBits ->
  exists r,
    reverse number nBits = Some r /\ 0 <= r < 2 ^ nBits /\
    (forall j, 0 <= j < nBits ->
               Z.testbit r j = Z.testbit number (nBits - 1 - j)) /\
    reverse r nBits = Some number.
Proof.
  intros Hn Hx. destruct (reverse_bits number nBits Hn) as (r & E & Hr).
  exists r. split; [exact E|]. split; [|split].
  - apply bits_range; [lia|]. intros j Hj Hge. rewrite Hr by exact Hj.
    destruct (Z.ltb_spec j nBits); [lia | reflexivity].
  - intros j Hj. rewrite Hr by lia.
    destruct (Z.ltb_spec j nBits); [reflexivity | lia].
  - destruct (reverse_bits r nBits Hn) as (x & E' & Hx').
    rewrite E'. f_equal. apply Z.bits_inj'. intros j Hj.
    rewrite Hx' by exact Hj.
    destruct (Z.ltb_spec j nBits) as [Hlt|Hge]; cbn [andb].
    + rewrite Hr by lia.
      destruct (Z.ltb_spec (nBits - 1 - j) nBits); [|lia]. cbn [andb].
      f_equal. lia.
    + symmetry. apply (bits_above number nBits); assumption.
Qed.

(** X29.  The lambda [reverse(number, nBits)] of [fast_mult], for
    [nBits <= 31] (beyond that [1 << i] leaves the [int] range) and
    [0 <= number < 2 ^ nBits]: it returns the number with the [nBits]
    low bits in reverse order, which is again below [2 ^ nBits], and
    reversing twice gives the number back. *)
Theorem reverse_involutive (number nBits : Z) :
  0 <= nBits <= 31 -> 0 <= number < 2 ^ nBits ->
  exists r,
    reverse number nBits = Some r /\ 0 <= r < 2 ^ nBits /\
    (forall j, 0 <= j < nBits ->
               Z.testbit r j = Z.testbit number (nBits - 1 - j)) /\
    reverse r nBits = Some number.
Proof. apply reverse_twice. Qed.

Lemma reverse_involutive_witness :
  exists r,
    reverse 11 5 = Some r /\ 0 <= r < 2 ^ 5 /\
    (forall j, 0 <= j < 5 -> Z.testbit r j = Z.testbit 11 (5 - 1 - j)) /\
    reverse r 5 = Some 11.
Proof.
  apply reverse_involutive.
  - lia.
  - split; [lia | reflexivity].
Defined.

Lemma count_bits_loop (n : Z) (fuel : nat) :
  forall nBits,
  1 <= n <= 2 ^ 30 -> 0 <= nBits <= 30 -> 30 - nBits < Z.of_nat fuel ->
  (0 < nBits -> 2 ^ (nBits - 1) < n) ->
  exists k, count_bits fuel nBits n = Some k /\ nBits <= k <= 30 /\
            n <= 2 ^ k /\ (0 < k -> 2 ^ (k - 1) < n).
Proof.
  induction fuel as [|fuel IH]; intros nBits Hn Hb Hf Hlow; [lia|].
  cbn [count_bits]. rewrite shl1_Some by lia. cbn [bind].
  destruct (Z.ltb_spec (2 ^ nBits) n) as [Hlt|Hge].
  - assert (nBits < 30) as Hb'.
    { destruct (Z_lt_le_dec nBits 30) as [|H30]; [assumption|].
      assert (nBits = 30) as -> by lia. lia. }
    destruct (IH (nBits + 1) Hn ltac:(lia) ltac:(lia)) as (k & E & Hk & Hu & Hl).
    + intros _. replace (nBits + 1 - 1) with nBits by lia. exact Hlt.
    + exists k. split; [exact E|]. split; [lia|]. split; assumption.
  - exists nBits. split; [reflexivity|]. split; [lia|]. split; assumption.
Qed.

Lemma count_bits_pow2 (k : Z) :
  0 <= k <= 30 -> count_bits 32 0 (2 ^ k) = Some k.
Proof.
  intros Hk.
  assert (1 <= 2 ^ k <= 2 ^ 30) as Hn.
  { split; [pose proof (Z.pow_pos_nonneg 2 k); lia|].
    apply Z.pow_le_mono_r; lia. }
  destruct (count_bits_loop (2 ^ k) 32 0 Hn ltac:(lia) ltac:(lia) ltac:(lia))
    as (k' & E & Hk' & Hu & Hl).
  rewrite E. f_equal.
  apply Z.pow_le_mono_r_iff in Hu; try lia.
  destruct (Z.eq_dec k' 0) as [->|Hnz]; [lia|].
  specialize (Hl ltac:(lia)). apply Z.pow_lt_mono_r_iff in Hl; lia.
Qed.

Lemma count_bits_fault (n : Z) (fuel : nat) :
  forall nBits, 2 ^ 30 < n -> 0 <= nBits <= 31 -> count_bits fuel nBits n = None.
Proof.
  induction fuel as [|fuel IH]; intros nBits Hn Hb; [reflexivity|].
  cbn [count_bits]. destruct (Z.eq_dec nBits 31) as [->|Hne]; [reflexivity|].
  rewrite shl1_Some by lia. cbn [bind].
  assert (2 ^ nBits <= 2 ^ 30) by (apply Z.pow_le_mono_r; lia).
  destruct (Z.ltb_spec (2 ^ nBits) n); [|lia].
  apply IH; [exact Hn | lia].
Qed.

(** ** The permutation *)

Lemma store_spec {A : Type} (a : list A) :
  forall i x, (i < length a)%nat ->
  exists a', store a i x = Some a' /\ length a' = length a /\
             forall m, nth_error a' m
                       = if (m =? i)%nat then Some x else nth_error a m.
Proof.
  induction a as [|h t IH]; intros i x Hi; [cbn in Hi; lia|].
  destruct i as [|i].
  - exists (x :: t). split; [reflexivity|]. split; [reflexivity|].
    intros [|m]; reflexivity.
  - cbn [length] in Hi. destruct (IH i x ltac:(lia)) as (t' & E & Hl & Hn).
    exists (h :: t'). cbn [store]. rewrite E. cbn [bind].
    split; [reflexivity|]. split; [cbn [length]; lia|].
    intros [|m]; [reflexivity|]. cbn [nth_error]. rewrite Hn. reflexivity.
Qed.

Lemma swap_spec {A : Type} (a : list A) (i j : nat) :
  (i < length a)%nat -> (j < length a)%nat ->
  exists a', swap a i j = Some a' /\ length a' = length a /\
             forall m, nth_error a' m
                       = if (m =? j)%nat then nth_error a i
                         else if (m =? i)%nat then nth_error a j
                         else nth_error a m.
Proof.
  intros Hi Hj. unfold swap.
  destruct (nth_error a i) as [x|] eqn:Ex;
    [|apply nth_error_None in Ex; lia].
  destruct (nth_error a j) as [y|] eqn:Ey;
    [|apply nth_error_None in Ey; lia].
  destruct (store_spec a i y Hi) as (a1 & E1 & Hl1 & Hn1).
  destruct (store_spec a1 j x ltac:(lia)) as (a2 & E2 & Hl2 & Hn2).
  rewrite E1. cbn [bind]. rewrite E2. exists a2.
  split; [reflexivity|]. split; [lia|].
  intros m. rewrite Hn2, Hn1. destruct (m =? j)%nat; [reflexivity|].
  destruct (m =? i)%nat; reflexivity.
Qed.

Section Permutation.
Variable A : Type.
Variable a : list A.
Variable nBits : Z.
Variable brev : Z -> Z.

Hypothesis Hrev :
  forall j, 0 <= j < Z.of_nat (length a) ->
  reverse j nBits = Some (brev j) /\
  0 <= brev j < Z.of_nat (length a) /\ brev (brev j) = j.

(** After the iterations below [i], position [j] holds the element of
    the reversed index as soon as [j] or its reversed index is below
    [i]. *)
Lemma permute_loop_spec (count : nat) :
  forall i cur,
  0 <= i -> i + Z.of_nat count = Z.of_nat (length a) ->
  length cur = length a ->
  (forall j, 0 <= j < Z.of_nat (length a) ->
     nth_error cur (Z.to_nat j)
     = if Z.min j (brev j) <? i then nth_error a (Z.to_nat (brev j))
       else nth_error a (Z.to_nat j)) ->
  exists out,
    permute_loop count i nBits cur = Some out /\ length out = length a /\
    forall j, 0 <= j < Z.of_nat (length a) ->
      nth_error out (Z.to_nat j) = nth_error a (Z.to_nat (brev j)).
Proof.
  induction count as [|count IH]; intros i cur Hi Hc Hl Hcur.
  - exists cur. split; [reflexivity|]. split; [exact Hl|].
    intros j Hj. rewrite Hcur by exact Hj.
    destruct (Hrev j Hj) as (_ & Hr & _).
    destruct (Z.ltb_spec (Z.min j (brev j)) i); [reflexivity | lia].
  - cbn [permute_loop].
    destruct (Hrev i ltac:(lia)) as (Er & Hr & Hinv).
    rewrite Er. cbn [bind].
    assert (forall j, 0 <= j < Z.of_nat (length a) -> brev j = i -> j = brev i)
      as Hback.
    { intros j Hj E. destruct (Hrev j Hj) as (_ & _ & Hjj). congruence. }
    destruct (Z.ltb_spec i (brev i)) as [Hlt|Hge].
    + destruct (swap_spec cur (Z.to_nat i) (Z.to_nat (brev i))
                  ltac:(lia) ltac:(lia)) as (cur' & Es & Hl' & Hn').
      rewrite Es. cbn [bind].
      apply IH; [lia | lia | lia |].
      intros j Hj. rewrite Hn'.
      destruct (Hrev j Hj) as (_ & Hrj & Hjj).
      destruct (Nat.eqb_spec (Z.to_nat j) (Z.to_nat (brev i))) as [E|E].
      * assert (j = brev i) as -> by lia. rewrite Hinv.
        rewrite (Hcur i) by lia.
        destruct (Z.ltb_spec (Z.min i (brev i)) i); [lia|].
        destruct (Z.ltb_spec (Z.min (brev i) i) (i + 1)); [reflexivity | lia].
      * destruct (Nat.eqb_spec (Z.to_nat j) (Z.to_nat i)) as [E'|E'].
        -- assert (j = i) as -> by lia.
           rewrite (Hcur (brev i)) by lia. rewrite Hinv.
           destruct (Z.ltb_spec (Z.min (brev i) i) i); [lia|].
           destruct (Z.ltb_spec (Z.min i (brev i)) (i + 1));
             [reflexivity | lia].
        -- rewrite Hcur by exact Hj.
           assert (j <> i) by lia. assert (j <> brev i) by lia.
           assert (brev j <> i) by (intros E0; apply Hback in E0; lia).
           destruct (Z.ltb_spec (Z.min j (brev j)) i);
             destruct (Z.ltb_spec (Z.min j (brev j)) (i + 1));
             try reflexivity; lia.
    + apply IH; [lia | lia | exact Hl |].
      intros j Hj. rewrite Hcur by exact Hj.
      destruct (Hrev j Hj) as (_ & Hrj & Hjj).
      destruct (Z.ltb_spec (Z.min j (brev j)) i);
        destruct (Z.ltb_spec (Z.min j (brev j)) (i + 1));
        try reflexivity; try lia.
      destruct (Z.eq_dec j i) as [->|Hne].
      * assert (brev i = i) as -> by lia. reflexivity.
      * assert (brev j = i) as E0 by lia. apply Hback in E0; lia.
Qed.
End Permutation.

Lemma bit_reversal_ok {A : Type} (a : list A) (k : Z) :
  0 <= k <= 30 -> Z.of_nat (length a) = 2 ^ k ->
  exists a',
    bit_reversal a = Some a' /\ length a' = length a /\
    forall i, 0 <= i < 2 ^ k ->
    exists r, reverse i k = Some r /\ 0 <= r < 2 ^ k /\
              reverse r k = Some i /\
              nth_error a' (Z.to_nat i) = nth_error a (Z.to_nat r).
Proof.
  intros Hk Hlen. unfold bit_reversal. rewrite Hlen, count_bits_pow2 by exact Hk.
  cbn [bind].
  pose (brev := fun j => match reverse j k with Some r => r | None => 0 end).
  assert (forall j, 0 <= j < Z.of_nat (length a) ->
          reverse j k = Some (brev j) /\
          0 <= brev j < Z.of_nat (length a) /\ brev (brev j) = j) as Hrev.
  { intros j Hj. rewrite Hlen in *.
    destruct (reverse_twice j k ltac:(lia) Hj) as (r & E & Hr & _ & E').
    unfold brev. rewrite E, E'. repeat split; lia. }
  destruct (permute_loop_spec A a k brev Hrev (length a) 0 a)
    as (out & E & Hl & Hout); try lia.
  { intros j Hj. destruct (Hrev j Hj) as (_ & Hr & _).
    destruct (Z.ltb_spec (Z.min j (brev j)) 0); [lia | reflexivity]. }
  exists out. split; [exact E|]. split; [exact Hl|].
  intros i Hi. rewrite <- Hlen in Hi.
  destruct (Hrev i Hi) as (Er & Hr & Hinv). exists (brev i).
  split; [exact Er|]. split; [lia|]. split.
  - destruct (Hrev (brev i) Hr) as (Er' & _). rewrite Er', Hinv. reflexivity.
  - apply Hout. exact Hi.
Qed.

(** X30.  The first loop of the lambda [fft] on a vector of [2 ^ k]
    elements, [k <= 30]: the bit count is [k], and the swaps leave at
    every index [i] the element of the index with the [k] bits of [i]
    reversed.  Running the loop on its result gives the vector back. *)
Theorem bit_reversal_permutes {A : Type} (a : list A) (k : Z) :
  0 <= k <= 30 -> Z.of_nat (length a) = 2 ^ k ->
  exists a',
    bit_reversal a = Some a' /\ length a' = length a /\
    (forall i, 0 <= i < 2 ^ k ->
       exists r, reverse i k = Some r /\ 0 <= r < 2 ^ k /\
                 nth_error a' (Z.to_nat i) = nth_error a (Z.to_nat r)) /\
    bit_reversal a' = Some a.
Proof.
  intros Hk Hlen.
  destruct (bit_reversal_ok a k Hk Hlen) as (a' & E & Hl & Hperm).
  exists a'. split; [exact E|]. split; [exact Hl|]. split.
  - intros i Hi. destruct (Hperm i Hi) as (r & Er & Hr & _ & Hn).
    exists r. repeat split; trivial; lia.
  - destruct (bit_reversal_ok a' k Hk ltac:(lia)) as (a'' & E' & Hl' & Hperm').
    rewrite E'. f_equal. apply nth_error_ext. intros n.
    destruct (Nat.lt_ge_cases n (length a)) as [Hlt|Hge].
    + destruct (Hperm' (Z.of_nat n) ltac:(lia)) as (r & Er & Hr & Er' & Hn).
      rewrite Nat2Z.id in Hn. rewrite Hn.
      destruct (Hperm r Hr) as (r' & Er2 & _ & _ & Hn').
      rewrite Hn'. rewrite Er' in Er2. injection Er2 as <-.
      rewrite Nat2Z.id. reflexivity.
    + rewrite (proj2 (nth_error_None a'' n)) by lia.
      rewrite (proj2 (nth_error_None a n)) by lia. reflexivity.
Qed.

Lemma bit_reversal_permutes_witness :
  exists a',
    bit_reversal [10; 11; 12; 13; 14; 15; 16; 17]%nat = Some a' /\
    length a' = length [10; 11; 12; 13; 14; 15; 16; 17]%nat /\
    (forall i, 0 <= i < 2 ^ 3 ->
       exists r, reverse i 3 = Some r /\ 0 <= r < 2 ^ 3 /\
                 nth_error a' (Z.to_nat i)
                 = nth_error [10; 11; 12; 13; 14; 15; 16; 17]%nat (Z.to_nat r)) /\
    bit_reversal a' = Some [10; 11; 12; 13; 14; 15; 16; 17]%nat.
Proof.
  apply (bit_reversal_permutes [10; 11; 12; 13; 14; 15; 16; 17]%nat 3).
  - lia.
  - reflexivity.
Defined.

(** * Exponentiation on the schoolbook multiplier *)

(** Under a sane cost estimate the selector takes the schoolbook path as
    soon as one operand has fewer than 90 digits. *)
Lemma use_fast_short {rt : FloatRuntime} (a b : UInt) :
  cost_sane -> 1 <= size a -> 1 <= size b ->
  size a < 90 \/ size b < 90 -> use_fast a b = false.
Proof.
  intros Hc Ha Hb Hs. unfold use_fast.
  destruct (padded_length_spec (size a) (size b) Ha Hb) as (k & Hk & E & Hle & _).
  assert (0 < 2 ^ k) by (apply Z.pow_pos_nonneg; lia).
  pose proof (Hc (padded_length (size a) (size b)) ltac:(lia)) as Hcost.
  assert (size a * size b <= 89 * Z.max (size a) (size b)) as Hop.
  { destruct Hs; [apply Z.le_trans with (89 * size b)
                 | apply Z.le_trans with (89 * size a)]; nia. }
  cbv zeta.
  match goal with |- (?x >=? ?y) = false =>
    destruct (Z.geb_spec x y) as [Hge|]; [|reflexivity] end.
  exfalso. lia.
Qed.


Section SchoolbookPower.
Context {rt : FloatRuntime}.
Hypothesis Hc : cost_sane.
Variable m : Z.
Hypothesis Hm : 0 < m <= INT64_MAX.





End SchoolbookPower.

Lemma use_fast_square_short {rt : FloatRuntime} (a : UInt) :
  cost_sane -> Inv a -> size a < 90 -> use_fast a a = false.
Proof.
  intros Hc Ha Hs. pose proof (Inv_size a Ha).
  apply use_fast_short; trivial. left. exact Hs.
Qed.



(** * The selector at a truncated estimate *)


